(** * CyanStore: the in-memory object store of crimson (src/crimson/os/cyan_store.cc)

    A shallow embedding of [CyanStore] and of the parts of [Collection] and
    [Object] it drives, together with the properties of the transaction
    interpreter, of the query paths and of [mkfs]. *)

From Stdlib Require Import ZArith Lia Ascii String.
From Stdlib Require OrderedTypeEx.
From stdpp Require Import gmap strings list sorting fin_maps.

Local Open Scope Z_scope.
Set Warnings "-clear-no-such-hyp".
Set Default Proof Using "Type".

(** ** Machine integers *)

(** [uint64_t] and (on the 64-bit targets of the code) [size_t] are values of
    [Z] in [0, 2^64); arithmetic on them is followed by [wrap64]. [ssize_t]
    is its two's complement reading, [to_ssize]. *)
Definition two64 : Z := 2 ^ 64.
Definition wrap64 (z : Z) : Z := z mod two64.
Definition to_ssize (z : Z) : Z :=
  if decide (wrap64 z < 2 ^ 63) then wrap64 z else wrap64 z - two64.
Definition is_uint64 (z : Z) : Prop := 0 ≤ z < two64.

(** errno values of <errno.h>, returned negated by the handlers. *)
Definition ENOENT : Z := 2.
Definition EEXIST : Z := 17.
Definition EINVAL : Z := 22.

(** ** Ordered containers

    [std::map<K, V>] is a finite map whose iteration follows the order of the
    keys. It is embedded as a [gmap K V] together with the ascending sequence
    of its keys; an iterator is the suffix of that sequence that is still to
    be visited, [end()] being the empty suffix. *)
Section std_map.
Context `{Countable K} {V : Type}.
Context (R : relation K) `{!RelDecision R}.

Definition ordered_keys (m : gmap K V) : list K :=
  merge_sort R (elements (dom m)).

(** The first position of [l] whose key satisfies [p], as a suffix. *)
Fixpoint seek (p : K → bool) (l : list K) : list K :=
  match l with
  | [] => []
  | k :: l' => if p k then k :: l' else seek p l'
  end.

(** [m.begin()], [m.lower_bound(k)] (first key not less than [k]) and
    [m.upper_bound(k)] (first key greater than [k]). *)
Definition map_begin (m : gmap K V) : list K := ordered_keys m.
Definition lower_bound (k : K) (m : gmap K V) : list K :=
  seek (λ x, bool_decide (R k x)) (ordered_keys m).
Definition upper_bound (k : K) (m : gmap K V) : list K :=
  seek (λ x, bool_decide (¬ R x k)) (ordered_keys m).
End std_map.

(** The sum of a measure over the values of a map. *)
Definition map_sum `{Countable K} {V : Type} (f : V → Z) (m : gmap K V) : Z :=
  map_fold (λ _ v acc, f v + acc) 0 m.

(** [std::string] keys compare lexicographically, byte by byte. *)
Definition string_le : relation string := λ a b, String.leb a b = true.

Global Instance string_le_dec : RelDecision string_le.
Proof. intros a b. unfold string_le. apply _. Defined.

(** ** Bytes, exceptions and results *)

Abbreviation byte := Byte.byte.
Abbreviation bufferlist := (list Byte.byte).

(** The exceptions the store raises. The formatted identifiers of the
    messages are left out; the text names the condition. *)
Inductive exn :=
| runtime_error (what : string)
| EnoentException (what : string).

(** A seastar future that is already resolved when the call returns, or the
    exception the call threw instead of returning one. *)
Inductive future (A : Type) :=
| make_ready_future (a : A)
| make_exception_future (e : exn)
| throws (e : exn).
Arguments make_ready_future {A} a.
Arguments make_exception_future {A} e.
Arguments throws {A} e.

(** The result of a handler that may run into [assert] or [abort()]. *)
Inductive result (A : Type) :=
| Ret (a : A)
| Abort.
Arguments Ret {A} a.
Arguments Abort {A}.

(** ** Object (crimson/os/cyan_object.h) *)

Record Object := mkObject {
  data : bufferlist;
  xattr : gmap string bufferlist;
  omap : gmap string bufferlist;
  omap_header : bufferlist
}.

Definition Object_new : Object :=
  {| data := []; xattr := ∅; omap := ∅; omap_header := [] |}.

Global Instance Object_inhabited : Inhabited Object := populate Object_new.

Definition set_data (d : bufferlist) (o : Object) : Object :=
  {| data := d; xattr := xattr o; omap := omap o; omap_header := omap_header o |}.
Definition set_xattr (x : gmap string bufferlist) (o : Object) : Object :=
  {| data := data o; xattr := x; omap := omap o; omap_header := omap_header o |}.
Definition set_omap (m : gmap string bufferlist) (o : Object) : Object :=
  {| data := data o; xattr := xattr o; omap := m; omap_header := omap_header o |}.
Definition set_omap_header (h : bufferlist) (o : Object) : Object :=
  {| data := data o; xattr := xattr o; omap := omap o; omap_header := h |}.

(** [Object::get_size]: the length of the content. *)
Definition get_size (o : Object) : Z := Z.of_nat (length (data o)).

(** Modelled from the spec: [Object::write], defined in cyan_object.cc, which
    is not among the sources. A write keeps the bytes before [offset], fills
    a gap beyond the current length with zeros, stores [src] and keeps what
    lay behind the written window. *)
Definition Object_write (offset : Z) (src : bufferlist) (o : Object) : Object :=
  let off := Z.to_nat offset in
  set_data (take off (data o) ++ replicate (off - length (data o))%nat Byte.x00
              ++ src ++ drop (off + length src)%nat (data o)) o.

(** Modelled from the spec: the effect of [Object::truncate] (cyan_object.cc)
    on the content. Truncating to a larger size appends zeros, to a smaller
    size discards the trailing bytes. *)
Definition Object_truncate (size : Z) (o : Object) : Object :=
  let n := Z.to_nat size in
  set_data (take n (data o) ++ replicate (n - length (data o))%nat Byte.x00) o.

(** Modelled from the spec: [Object::read] (cyan_object.cc) copies the window
    [offset, offset + len) of the content, for a window that its caller has
    clamped to the content. It gives the operation no failure there: the
    [int] it returns, which the caller only tests for being negative, is 0.
    Clamping is the caller's duty, and what [Object::read] does with a
    window that reaches beyond the content is not given: it is [beyond], a
    function of the window and the content. *)
Definition Object_read (beyond : Z → Z → bufferlist → Z * bufferlist)
    (offset len : Z) (o : Object) : Z * bufferlist :=
  if bool_decide (offset + len ≤ get_size o)
  then (0, take (Z.to_nat len) (drop (Z.to_nat offset) (data o)))
  else beyond offset len (data o).

(** Goals about 64-bit arithmetic: the wrap-around is unfolded into the
    equations of division by 2^64. *)
Ltac solve_wrap :=
  unfold is_uint64, to_ssize, wrap64, two64 in *;
  change (2 ^ 64) with 18446744073709551616 in *;
  change (2 ^ 63) with 9223372036854775808 in *;
  repeat case_decide;
  Z.div_mod_to_equations; lia.

(** ** Collection (crimson/os/cyan_collection.h) and CyanStore *)

(** An [ObjectRef] is a counted pointer to an [Object]. The Objects of a
    collection live in a store of their own, [objects], addressed by [loc];
    [object_map] and [object_hash] hold pointers into it, so a change made
    through a pointer found in one index is seen through the other. *)
Abbreviation loc := positive.

Section model.
(** [coll_t] and [ghobject_t] are declared outside the sources: they are
    opaque identifiers, [ghobject_t] totally ordered by [gh_le] with the
    sentinel [ghobject_t::get_max()], [gh_max]. [uuid_d] is the type of the
    filesystem identifier. *)
Context {coll_t : Type} {coll_eq : EqDecision coll_t}
  {coll_countable : Countable coll_t}.
Context {ghobject_t : Type} {ghobject_eq : EqDecision ghobject_t}
  {ghobject_countable : Countable ghobject_t}.
Context {uuid_d : Type}.

Record Collection := mkCollection {
  cid : coll_t;
  bits : Z;
  exists_ : bool;
  object_map : gmap ghobject_t loc;
  object_hash : gmap ghobject_t loc;
  objects : gmap loc Object
}.

(** [new Collection{cid}] *)
Definition Collection_new (c : coll_t) : Collection :=
  {| cid := c; bits := 0; exists_ := true;
     object_map := ∅; object_hash := ∅; objects := ∅ |}.

Definition set_bits (b : Z) (c : Collection) : Collection :=
  {| cid := cid c; bits := b; exists_ := exists_ c;
     object_map := object_map c; object_hash := object_hash c;
     objects := objects c |}.

(** [*o], for a pointer [o] that is not null. *)
Definition deref (c : Collection) (o : loc) : Object := objects c !!! o.

(** An assignment through the pointer [o]. *)
Definition store_object (o : loc) (v : Object) (c : Collection) : Collection :=
  {| cid := cid c; bits := bits c; exists_ := exists_ c;
     object_map := object_map c; object_hash := object_hash c;
     objects := <[o := v]> (objects c) |}.

(** Modelled from the spec: [Collection::get_object] (cyan_collection.cc)
    returns the Object of [oid] found through the lookup index, or a null
    reference. *)
Definition get_object (c : Collection) (oid : ghobject_t) : option loc :=
  object_hash c !! oid.

(** Modelled from the spec: [Collection::get_or_create_object]
    (cyan_collection.cc) returns the Object of [oid] when there is one, and
    otherwise creates an empty Object and inserts it into both
    [object_map] and [object_hash]. *)
Definition get_or_create_object (c : Collection) (oid : ghobject_t)
  : loc * Collection :=
  match object_hash c !! oid with
  | Some o => (o, c)
  | None =>
      let o := fresh (dom (objects c)) in
      (o, {| cid := cid c; bits := bits c; exists_ := exists_ c;
             object_map := <[oid := o]> (object_map c);
             object_hash := <[oid := o]> (object_hash c);
             objects := <[o := Object_new]> (objects c) |})
  end.

Record CyanStore := mkCyanStore {
  coll_map : gmap coll_t Collection;
  new_coll_map : gmap coll_t Collection;
  used_bytes : Z;
  osd_fsid : uuid_d
}.

Definition set_coll (c : coll_t) (v : Collection) (s : CyanStore) : CyanStore :=
  {| coll_map := <[c := v]> (coll_map s); new_coll_map := new_coll_map s;
     used_bytes := used_bytes s; osd_fsid := osd_fsid s |}.
Definition set_used_bytes (u : Z) (s : CyanStore) : CyanStore :=
  {| coll_map := coll_map s; new_coll_map := new_coll_map s;
     used_bytes := u; osd_fsid := osd_fsid s |}.
Definition set_osd_fsid (u : uuid_d) (s : CyanStore) : CyanStore :=
  {| coll_map := coll_map s; new_coll_map := new_coll_map s;
     used_bytes := used_bytes s; osd_fsid := u |}.

(** [CyanStore::CyanStore(path)]: nothing is loaded yet. *)
Definition CyanStore_new (zero : uuid_d) : CyanStore :=
  {| coll_map := ∅; new_coll_map := ∅; used_bytes := 0; osd_fsid := zero |}.

(** [CyanStore::_get_collection] *)
Definition _get_collection (s : CyanStore) (c : coll_t) : option Collection :=
  coll_map s !! c.

(** [CyanStore::create_new_collection] *)
Definition create_new_collection (s : CyanStore) (c : coll_t)
  : Collection * CyanStore :=
  let ch := Collection_new c in
  (ch, {| coll_map := coll_map s;
          new_coll_map := <[c := ch]> (new_coll_map s);
          used_bytes := used_bytes s; osd_fsid := osd_fsid s |}).

(** [CyanStore::list_collections] *)
Definition list_collections (s : CyanStore) : list coll_t :=
  (map_to_list (coll_map s)).*1.

(** *** Configuration and the constants of the header *)

(** The values [local_conf()] is read for. *)
Record Config := mkConfig {
  memstore_debug_omit_block_device_write : bool;
  memstore_device_bytes : Z
}.

Context (gh_le : relation ghobject_t) {gh_le_dec : RelDecision gh_le}.
Context (gh_max : ghobject_t).
(** [local_conf()], [MAX_KEYS_PER_OMAP_GET_CALL] (declared in cyan_store.h)
    and the [int] that [Object::truncate] returns (cyan_object.cc), which
    [_truncate] hands back as the status of the operation. *)
Context (conf : Config).
Context (MAX_KEYS_PER_OMAP_GET_CALL : nat).
Context (Object_truncate_ret : Z → Object → Z).
(** What [Object::read] does with a window that reaches beyond the content. *)
Context (Object_read_beyond : Z → Z → bufferlist → Z * bufferlist).
(** The largest [n] that [std::vector<ghobject_t>::reserve(n)] accepts: the
    vector's [max_size()], or less where the allocator refuses first. A
    vector can hold one element at least. *)
Context (reserve_max : positive).

(** *** Query paths *)

(** The loop of [list_objects]: [it] runs from [lower_bound(start)] to the
    end of [object_map]. *)
Fixpoint list_objects_loop (it : list ghobject_t) (end_ : ghobject_t)
    (limit : Z) (objs : list ghobject_t) (next : ghobject_t)
  : list ghobject_t * ghobject_t :=
  match it with
  | [] => (objs, next)
  | oid :: it' =>
      if bool_decide (gh_le end_ oid) || bool_decide (limit ≤ Z.of_nat (length objs))
      then (objs, oid)
      else list_objects_loop it' end_ limit (objs ++ [oid]) next
  end.

(** What a call of [list_objects] gives: the identifiers and the cursor, or
    the exception of [objects.reserve(limit)], [std::length_error] for a
    limit beyond [max_size()] and [std::bad_alloc] from the allocator, which
    nothing in [list_objects] catches. *)
Inductive listing :=
  | Listed (objs : list ghobject_t) (next : ghobject_t)
  | Reserve_failed.

(** [CyanStore::list_objects] *)
Definition list_objects (c : Collection) (start end_ : ghobject_t) (limit : Z)
  : listing :=
  if bool_decide (Z.pos reserve_max < limit) then Reserve_failed
  else
    let '(objs, next) :=
      list_objects_loop (lower_bound gh_le start (object_map c)) end_ limit
        [] gh_max in
    Listed objs next.

(** The length [l] that [read] hands to [Object::read], for an offset below
    the size: [offset + l] is a sum of 64-bit numbers. *)
Definition read_length (size offset len : Z) : Z :=
  if bool_decide (len = 0) && bool_decide (offset = 0) then size
  else if bool_decide (size < wrap64 (offset + len)) then wrap64 (size - offset)
  else len.

(** [CyanStore::read] *)
Definition read (c : Collection) (oid : ghobject_t) (offset len : Z)
  : future bufferlist :=
  if negb (exists_ c) then throws (runtime_error "collection does not exist")
  else match get_object c oid with
  | None => throws (runtime_error "object does not exist")
  | Some o =>
      let size := get_size (deref c o) in
      if bool_decide (size ≤ offset) then make_ready_future []
      else
        let l := read_length size offset len in
        let '(r, bl) := Object_read Object_read_beyond offset l (deref c o) in
        if bool_decide (r < 0) then throws (runtime_error "read")
        else make_ready_future bl
  end.

(** [CyanStore::get_attr] *)
Definition get_attr (c : Collection) (oid : ghobject_t) (name : string)
  : future bufferlist :=
  match get_object c oid with
  | None => make_exception_future (EnoentException "object does not exist")
  | Some o =>
      match xattr (deref c o) !! name with
      | Some v => make_ready_future v
      | None => make_exception_future (EnoentException "attr does not exist")
      end
  end.

(** [CyanStore::get_attrs] *)
Definition get_attrs (c : Collection) (oid : ghobject_t)
  : future (gmap string bufferlist) :=
  match get_object c oid with
  | None => throws (runtime_error "object does not exist")
  | Some o => make_ready_future (xattr (deref c o))
  end.

(** [CyanStore::omap_get_values], by a set of keys *)
Definition omap_get_values_keys (c : Collection) (oid : ghobject_t)
    (keys : gset string) : future (gmap string bufferlist) :=
  match get_object c oid with
  | None => throws (runtime_error "object does not exist")
  | Some o =>
      make_ready_future
        (foldl (λ values key,
                  match omap (deref c o) !! key with
                  | Some v => <[key := v]> values
                  | None => values
                  end) ∅ (merge_sort string_le (elements keys)))
  end.

(** The loop of the range query: [i] runs over the keys from the starting
    position, and stops at the end or when [values] is full. *)
Fixpoint omap_get_values_loop (m : gmap string bufferlist) (i : list string)
    (values : gmap string bufferlist) : gmap string bufferlist :=
  match i with
  | [] => values
  | k :: i' =>
      if bool_decide (size values < MAX_KEYS_PER_OMAP_GET_CALL)%nat
      then omap_get_values_loop m i'
             (match m !! k with Some v => <[k := v]> values | None => values end)
      else values
  end.

(** [CyanStore::omap_get_values], from an optional start key *)
Definition omap_get_values (c : Collection) (oid : ghobject_t)
    (start : option string) : future (bool * gmap string bufferlist) :=
  match get_object c oid with
  | None => throws (runtime_error "object does not exist")
  | Some o =>
      let m := omap (deref c o) in
      let i := match start with
               | Some k => upper_bound string_le k m
               | None => map_begin string_le m
               end in
      make_ready_future (true, omap_get_values_loop m i ∅)
  end.

(** [CyanStore::stat]: the available bytes. *)
Definition stat_available (s : CyanStore) : Z :=
  wrap64 (memstore_device_bytes conf - used_bytes s).

(** The window of [read] as the specification words it: the bytes at the
    positions of [offset, offset + len) that lie in [0, size), computed in
    unbounded arithmetic; [offset == 0] with [len == 0] asks for the whole
    content. *)
Definition clamped_window (d : bufferlist) (offset len : Z) : bufferlist :=
  if bool_decide (offset = 0 ∧ len = 0) then d
  else
    let lo := Z.max 0 offset in
    let hi := Z.min (Z.of_nat (length d)) (offset + len) in
    take (Z.to_nat (hi - lo)) (drop (Z.to_nat lo) d).

(** The keys of a map that lie strictly behind an optional start key, in
    ascending order: all of them when there is no start key. *)
Definition is_after (start : option string) (k : string) : Prop :=
  match start with
  | Some st => ¬ string_le k st
  | None => True
  end.

Global Instance is_after_dec start k : Decision (is_after start k).
Proof. destruct start; apply _. Defined.

Definition keys_after (start : option string) (m : gmap string bufferlist)
  : list string :=
  filter (is_after start) (ordered_keys string_le m).

(** The identifiers of a collection that lie in [start, end), in ascending
    order. *)
Definition objects_in_range (c : Collection) (start end_ : ghobject_t)
  : list ghobject_t :=
  filter (λ oid, gh_le start oid ∧ ¬ gh_le end_ oid)
    (ordered_keys gh_le (object_map c)).

(** A client that calls [list_objects] [n] times and feeds each returned
    cursor back as the next [start]: the identifiers it has received, in
    the order of their arrival, and the last cursor; nothing when a call
    throws. *)
Fixpoint list_pages (n : nat) (c : Collection) (start end_ : ghobject_t)
    (limit : Z) : option (list ghobject_t * ghobject_t) :=
  match n with
  | O => Some ([], start)
  | S n' =>
      match list_objects c start end_ limit with
      | Reserve_failed => None
      | Listed objs next =>
          match list_pages n' c next end_ limit with
          | None => None
          | Some (more, cursor) => Some (objs ++ more, cursor)
          end
      end
  end.

(** *** The handlers of the transaction operations

    Each handler returns its [int] status and the store it leaves. *)

(** [CyanStore::_remove] *)
Definition _remove (s : CyanStore) (c : coll_t) (oid : ghobject_t)
  : Z * CyanStore :=
  match _get_collection s c with
  | None => (- ENOENT, s)
  | Some ch =>
      match object_hash ch !! oid with
      | None => (- ENOENT, s)
      | Some i =>
          let used := wrap64 (used_bytes s - get_size (deref ch i)) in
          let ch' :=
            {| cid := cid ch; bits := bits ch; exists_ := exists_ ch;
               object_map := delete oid (object_map ch);
               object_hash := delete oid (object_hash ch);
               objects := objects ch |} in
          (0, set_coll c ch' (set_used_bytes used s))
      end
  end.

(** [CyanStore::_touch] *)
Definition _touch (s : CyanStore) (c : coll_t) (oid : ghobject_t)
  : Z * CyanStore :=
  match _get_collection s c with
  | None => (- ENOENT, s)
  | Some ch => (0, set_coll c (get_or_create_object ch oid).2 s)
  end.

(** [CyanStore::_write]; [assert(len == bl.length())] comes first. *)
Definition _write (s : CyanStore) (c : coll_t) (oid : ghobject_t)
    (offset len : Z) (bl : bufferlist) (fadvise_flags : Z)
  : result (Z * CyanStore) :=
  if negb (bool_decide (len = Z.of_nat (length bl))) then Abort
  else match _get_collection s c with
  | None => Ret (- ENOENT, s)
  | Some ch =>
      let '(o, ch1) := get_or_create_object ch oid in
      if bool_decide (0 < len) && negb (memstore_debug_omit_block_device_write conf)
      then
        let old_size := to_ssize (get_size (deref ch1 o)) in
        let ch2 := store_object o (Object_write offset bl (deref ch1 o)) ch1 in
        let used :=
          wrap64 (used_bytes s + wrap64 (get_size (deref ch2 o) - old_size)) in
        Ret (0, set_coll c ch2 (set_used_bytes used s))
      else Ret (0, set_coll c ch1 s)
  end.

(** The insertion of one pair by [std::map::insert]: a key that is present
    keeps its value. *)
Definition map_insert_new (k : string) (v : bufferlist)
    (m : gmap string bufferlist) : gmap string bufferlist :=
  match m !! k with
  | Some _ => m
  | None => <[k := v]> m
  end.

(** [CyanStore::_omap_set_values] *)
Definition _omap_set_values (s : CyanStore) (c : coll_t) (oid : ghobject_t)
    (aset : gmap string bufferlist) : Z * CyanStore :=
  match _get_collection s c with
  | None => (- ENOENT, s)
  | Some ch =>
      let '(o, ch1) := get_or_create_object ch oid in
      let m := foldl (λ m k, match aset !! k with
                             | Some v => map_insert_new k v m
                             | None => m
                             end)
                 (omap (deref ch1 o)) (ordered_keys string_le aset) in
      (0, set_coll c (store_object o (set_omap m (deref ch1 o)) ch1) s)
  end.

(** [CyanStore::_omap_set_header] *)
Definition _omap_set_header (s : CyanStore) (c : coll_t) (oid : ghobject_t)
    (header : bufferlist) : Z * CyanStore :=
  match _get_collection s c with
  | None => (- ENOENT, s)
  | Some ch =>
      let '(o, ch1) := get_or_create_object ch oid in
      (0, set_coll c (store_object o (set_omap_header header (deref ch1 o)) ch1) s)
  end.

(** [CyanStore::_omap_rmkeys] *)
Definition _omap_rmkeys (s : CyanStore) (c : coll_t) (oid : ghobject_t)
    (aset : gset string) : Z * CyanStore :=
  match _get_collection s c with
  | None => (- ENOENT, s)
  | Some ch =>
      let '(o, ch1) := get_or_create_object ch oid in
      let m := foldl (λ m k, delete k m) (omap (deref ch1 o))
                 (merge_sort string_le (elements aset)) in
      (0, set_coll c (store_object o (set_omap m (deref ch1 o)) ch1) s)
  end.

(** The loop of [_omap_rmkeyrange]: [i] starts at [lower_bound(first)]; the
    entry under the iterator is erased while its key is not beyond
    [last]. *)
Fixpoint omap_rmkeyrange_loop (i : list string) (last : string)
    (m : gmap string bufferlist) : gmap string bufferlist :=
  match i with
  | [] => m
  | k :: i' =>
      if bool_decide (string_le k last)
      then omap_rmkeyrange_loop i' last (delete k m)
      else m
  end.

(** [CyanStore::_omap_rmkeyrange] *)
Definition _omap_rmkeyrange (s : CyanStore) (c : coll_t) (oid : ghobject_t)
    (first last : string) : Z * CyanStore :=
  match _get_collection s c with
  | None => (- ENOENT, s)
  | Some ch =>
      let '(o, ch1) := get_or_create_object ch oid in
      let m := omap (deref ch1 o) in
      let m' := omap_rmkeyrange_loop (lower_bound string_le first m) last m in
      (0, set_coll c (store_object o (set_omap m' (deref ch1 o)) ch1) s)
  end.

(** [CyanStore::_truncate] *)
Definition _truncate (s : CyanStore) (c : coll_t) (oid : ghobject_t)
    (size : Z) : Z * CyanStore :=
  match _get_collection s c with
  | None => (- ENOENT, s)
  | Some ch =>
      match get_object ch oid with
      | None => (- ENOENT, s)
      | Some o =>
          if memstore_debug_omit_block_device_write conf then (0, s)
          else
            let old_size := to_ssize (get_size (deref ch o)) in
            let r := Object_truncate_ret size (deref ch o) in
            let ch' := store_object o (Object_truncate size (deref ch o)) ch in
            let used :=
              wrap64 (used_bytes s + wrap64 (get_size (deref ch' o) - old_size)) in
            (r, set_coll c ch' (set_used_bytes used s))
      end
  end.

(** [CyanStore::_setattrs] *)
Definition _setattrs (s : CyanStore) (c : coll_t) (oid : ghobject_t)
    (aset : gmap string bufferlist) : Z * CyanStore :=
  match _get_collection s c with
  | None => (- ENOENT, s)
  | Some ch =>
      match get_object ch oid with
      | None => (- ENOENT, s)
      | Some o =>
          let x := foldl (λ x p, match aset !! p with
                                 | Some v => <[p := v]> x
                                 | None => x
                                 end)
                     (xattr (deref ch o)) (ordered_keys string_le aset) in
          (0, set_coll c (store_object o (set_xattr x (deref ch o)) ch) s)
      end
  end.

(** [CyanStore::_create_collection]; the [assert] that the collection is
    pending comes after the test for a committed one. *)
Definition _create_collection (s : CyanStore) (c : coll_t) (bits_ : Z)
  : result (Z * CyanStore) :=
  match coll_map s !! c with
  | Some _ => Ret (- EEXIST, s)
  | None =>
      match new_coll_map s !! c with
      | None => Abort
      | Some p =>
          Ret (0, {| coll_map := <[c := set_bits bits_ p]> (coll_map s);
                     new_coll_map := delete c (new_coll_map s);
                     used_bytes := used_bytes s; osd_fsid := osd_fsid s |})
      end
  end.

(** *** The transaction interpreter *)

(** A decoded operation with the arguments its case of the [switch] reads
    from the stream. [OP_OTHER] stands for every other operation code. *)
Inductive Op :=
| OP_NOP
| OP_REMOVE (c : coll_t) (oid : ghobject_t)
| OP_TOUCH (c : coll_t) (oid : ghobject_t)
| OP_WRITE (c : coll_t) (oid : ghobject_t) (off len : Z)
    (fadvise_flags : Z) (bl : bufferlist)
| OP_TRUNCATE (c : coll_t) (oid : ghobject_t) (off : Z)
| OP_SETATTR (c : coll_t) (oid : ghobject_t) (name : string) (bl : bufferlist)
| OP_MKCOLL (c : coll_t) (split_bits : Z)
| OP_OMAP_SETKEYS (c : coll_t) (oid : ghobject_t) (aset : gmap string bufferlist)
| OP_OMAP_SETHEADER (c : coll_t) (oid : ghobject_t) (bl : bufferlist)
| OP_OMAP_RMKEYS (c : coll_t) (oid : ghobject_t) (keys : gset string)
| OP_OMAP_RMKEYRANGE (c : coll_t) (oid : ghobject_t) (first last : string)
| OP_COLL_HINT (hint : bufferlist)
| OP_OTHER (code : Z).

(** What the iterator yields for the next element of the stream: the
    operation and its arguments, or an exception of the decoder. Every case
    decodes its arguments before it calls its handler. *)
Inductive decoded :=
| Decoded (op : Op)
| DecodeError.

(** A transaction: the operation stream and the completions registered on
    it ([Context*], null when there is none). *)
Record Transaction := mkTransaction {
  ops : list decoded;
  on_applied : option nat;
  on_commit : option nat;
  on_applied_sync : option nat
}.

(** The body of the [switch] for one decoded operation: the value of [r]
    after it and the store it leaves. *)
Definition do_op (s : CyanStore) (op : Op) : result (Z * CyanStore) :=
  match op with
  | OP_NOP => Ret (0, s)
  | OP_REMOVE c oid =>
      let '(r, s') := _remove s c oid in
      Ret (if bool_decide (r = - ENOENT) then 0 else r, s')
  | OP_TOUCH c oid => Ret (_touch s c oid)
  | OP_WRITE c oid off len fadvise_flags bl =>
      _write s c oid off len bl fadvise_flags
  | OP_TRUNCATE c oid off => Ret (_truncate s c oid off)
  | OP_SETATTR c oid name bl => Ret (_setattrs s c oid {[name := bl]})
  | OP_MKCOLL c split_bits => _create_collection s c split_bits
  | OP_OMAP_SETKEYS c oid aset => Ret (_omap_set_values s c oid aset)
  | OP_OMAP_SETHEADER c oid bl => Ret (_omap_set_header s c oid bl)
  | OP_OMAP_RMKEYS c oid keys => Ret (_omap_rmkeys s c oid keys)
  | OP_OMAP_RMKEYRANGE c oid first last =>
      Ret (_omap_rmkeyrange s c oid first last)
  | OP_COLL_HINT hint => Ret (0, s)
  | OP_OTHER code => Abort
  end.

(** How control leaves the [try] block. *)
Inductive loop_exit :=
| Left_loop (r : Z) (s : CyanStore)
| Caught (s : CyanStore)
| Crashed.

(** The [while (i.have_op())] loop; [r] is the status of the operation
    before. *)
Fixpoint run_ops (r : Z) (s : CyanStore) (i : list decoded) : loop_exit :=
  match i with
  | [] => Left_loop r s
  | DecodeError :: _ => Caught s
  | Decoded op :: i' =>
      match do_op s op with
      | Abort => Crashed
      | Ret (r', s') =>
          if bool_decide (r' < 0) then Left_loop r' s' else run_ops r' s' i'
      end
  end.

(** How [do_transaction] ends: it returns after completing the registered
    completions with 0, in the order given; or [ceph_assert(r == 0)] fails
    after the dump of the transaction; or the process was ended inside an
    operation. *)
Inductive outcome :=
| Completed (s : CyanStore) (completions : list (nat * Z))
| Fatal (r : Z) (s : CyanStore)
| Aborted.

(** The last loop of [do_transaction]: every completion that is registered
    is completed with 0, [on_applied] first, then [on_commit], then
    [on_applied_sync]. *)
Definition complete_all (t : Transaction) : list (nat * Z) :=
  foldr (λ i done, match i with
                   | Some ctx => (ctx, 0) :: done
                   | None => done
                   end)
    [] [on_applied t; on_commit t; on_applied_sync t].

(** [CyanStore::do_transaction] *)
Definition do_transaction (s : CyanStore) (t : Transaction) : outcome :=
  let after_try :=
    match run_ops 0 s (ops t) with
    | Left_loop r s' => Some (r, s')
    | Caught s' => Some (- EINVAL, s')
    | Crashed => None
    end in
  match after_try with
  | None => Aborted
  | Some (r, s') =>
      if bool_decide (r < 0) then Fatal r s'
      else Completed s' (complete_all t)
  end.

(** The operations of [l] applied one after the other, none leaving a
    negative status: the store after the last one. *)
Fixpoint apply_ops (s : CyanStore) (l : list Op) : option CyanStore :=
  match l with
  | [] => Some s
  | op :: l' =>
      match do_op s op with
      | Ret (r, s') => if bool_decide (r < 0) then None else apply_ops s' l'
      | Abort => None
      end
  end.

(** *** The metadata files and mkfs *)

(** A file of the store's directory: its bytes, or the errno with which
    opening or reading it fails. *)
Inductive file :=
| File (content : string)
| Unreadable (errno : Z).

(** The directory at [path]: the metadata entries by key, and the
    collections manifest, whose encoding is the codec's business. Writing
    into the directory succeeds. *)
Record Disk := mkDisk {
  meta : gmap string file;
  collections_file : option (gset coll_t)
}.

(** [isspace] in the C locale. *)
Definition isspace (a : ascii) : bool :=
  let n := nat_of_ascii a in
  bool_decide (n = 32 ∨ 9 ≤ n ≤ 13)%nat.

(** [boost::algorithm::trim_right_if(s, isspace)] *)
Fixpoint trim_right (s : string) : string :=
  match s with
  | EmptyString => EmptyString
  | String a s' =>
      match trim_right s' with
      | EmptyString => if isspace a then EmptyString else String a EmptyString
      | t => String a t
      end
  end.

(** No byte of [s] is white space. *)
Fixpoint no_space (s : string) : bool :=
  match s with
  | EmptyString => true
  | String a s' => negb (isspace a) && no_space s'
  end.

(** [safe_read_file] into a buffer of 4096 bytes: the number of bytes read
    or a negated errno, and the bytes. *)
Definition safe_read_file (d : Disk) (key : string) : Z * string :=
  match meta d !! key with
  | None => (- ENOENT, EmptyString)
  | Some (Unreadable errno) => (- errno, EmptyString)
  | Some (File content) =>
      let buf := String.substring 0 4096 content in
      (Z.of_nat (String.length buf), buf)
  end.

(** [CyanStore::read_meta] *)
Definition read_meta (d : Disk) (key : string) : Z * string :=
  let '(r, buf) := safe_read_file d key in
  if bool_decide (0 < r) then (r, trim_right buf) else (r, EmptyString).

(** [CyanStore::write_meta] *)
Definition write_meta (d : Disk) (key value : string) : Disk :=
  {| meta := <[key := File (value +:+ String "010"%char EmptyString)]> (meta d);
     collections_file := collections_file d |}.

(** [uuid_d]: the zero identifier, its rendering by [fmt::format] and
    [uuid_d::parse]. *)
Context {uuid_eq : EqDecision uuid_d}.
Context (uuid_zero : uuid_d).
Context (uuid_to_string : uuid_d → string).
Context (uuid_parse : string → option uuid_d).

(** [CyanStore::mkfs]. [random] is the identifier [generate_random] yields
    when it is asked for one. The exceptions are thrown inside the
    continuations and resolve the future that is returned. *)
Definition mkfs (s : CyanStore) (d : Disk) (new_osd_fsid random : uuid_d)
  : future (CyanStore * Disk) :=
  let '(r, fsid_str) := read_meta d "fsid" in
  let first : future (CyanStore * Disk) :=
    if bool_decide (r = - ENOENT) then
      let fsid := if bool_decide (new_osd_fsid = uuid_zero)
                  then random else new_osd_fsid in
      make_ready_future
        (set_osd_fsid fsid s, write_meta d "fsid" (uuid_to_string fsid))
    else if bool_decide (r < 0) then
      make_exception_future (runtime_error "read_meta")
    else
      match uuid_parse fsid_str with
      | None => make_exception_future (runtime_error "failed to parse fsid")
      | Some fsid =>
          if bool_decide (fsid ≠ new_osd_fsid)
          then make_exception_future (runtime_error "unmatched osd_fsid")
          else make_ready_future (set_osd_fsid fsid s, d)
      end in
  match first with
  | make_ready_future (s1, d1) =>
      let d2 := {| meta := meta d1; collections_file := Some ∅ |} in
      make_ready_future (s1, write_meta d2 "type" "memstore")
  | make_exception_future e => make_exception_future e
  | throws e => throws e
  end.

(** *** The byte counter and the state a store can be in *)

(** The content lengths of the live objects of a collection, those its
    [object_map] holds, and of all collections of the store. *)
Definition live_bytes (c : Collection) : Z :=
  map_sum (λ o, get_size (deref c o)) (object_map c).
Definition total_live_bytes (s : CyanStore) : Z :=
  map_sum live_bytes (coll_map s).

(** The two indexes of a collection hold the same keys with the same
    pointers, no Object is entered under two identifiers, and every
    pointer of the indexes points to an Object. *)
Definition Collection_wf (c : Collection) : Prop :=
  object_map c = object_hash c ∧
  (∀ oid1 oid2 o,
     object_map c !! oid1 = Some o → object_map c !! oid2 = Some o →
     oid1 = oid2) ∧
  (∀ oid o, object_map c !! oid = Some o → is_Some (objects c !! o)).

(** The committed collections are well formed, the pending ones are
    empty, and the counter is the sum of the content lengths, as a 64-bit
    number. *)
Definition Store_wf (s : CyanStore) : Prop :=
  (∀ c ch, coll_map s !! c = Some ch → Collection_wf ch) ∧
  (∀ c ch, new_coll_map s !! c = Some ch →
           object_map ch = ∅ ∧ object_hash ch = ∅) ∧
  used_bytes s = wrap64 (total_live_bytes s).

(** The calls that change a store, and a run of them from a store. A
    transaction that ends in the failed assertion ends the run with the
    store it left; [None] when the process was ended inside an
    operation. *)
Inductive call :=
| Create_new_collection (c : coll_t)
| Do_transaction (t : Transaction).

Fixpoint run_calls (s : CyanStore) (l : list call) : option CyanStore :=
  match l with
  | [] => Some s
  | Create_new_collection c :: l' => run_calls (create_new_collection s c).2 l'
  | Do_transaction t :: l' =>
      match do_transaction s t with
      | Completed s' _ => run_calls s' l'
      | Fatal _ s' => Some s'
      | Aborted => None
      end
  end.

(** *** The remaining entry points *)

(** [CyanStore::open_collection]: the committed collection, or a null
    reference. *)
Definition open_collection (s : CyanStore) (c : coll_t)
  : future (option Collection) :=
  make_ready_future (_get_collection s c).

(** [CyanStore::get_fsid] *)
Definition get_fsid (s : CyanStore) : uuid_d := osd_fsid s.

(** [CyanStore::get_max_attr_name_length] *)
Definition get_max_attr_name_length : Z := 256.

(** [store_statfs_t], with the two fields that [stat] assigns. *)
Record store_statfs_t := mk_store_statfs_t {
  total_ : Z;
  available : Z
}.

(** [CyanStore::stat] *)
Definition stat (s : CyanStore) : store_statfs_t :=
  {| total_ := memstore_device_bytes conf; available := stat_available s |}.

(** The collection and the object that an operation on one object names. *)
Definition object_op (op : Op) : option (coll_t * ghobject_t) :=
  match op with
  | OP_REMOVE c oid => Some (c, oid)
  | OP_TOUCH c oid => Some (c, oid)
  | OP_WRITE c oid _ _ _ _ => Some (c, oid)
  | OP_TRUNCATE c oid _ => Some (c, oid)
  | OP_SETATTR c oid _ _ => Some (c, oid)
  | OP_OMAP_SETKEYS c oid _ => Some (c, oid)
  | OP_OMAP_SETHEADER c oid _ => Some (c, oid)
  | OP_OMAP_RMKEYS c oid _ => Some (c, oid)
  | OP_OMAP_RMKEYRANGE c oid _ _ => Some (c, oid)
  | OP_NOP | OP_MKCOLL _ _ | OP_COLL_HINT _ | OP_OTHER _ => None
  end.

(** The operations whose handler changes the content of an object or
    takes an object away. *)
Definition changes_content (op : Op) : bool :=
  match op with
  | OP_REMOVE _ _ | OP_WRITE _ _ _ _ _ _ | OP_TRUNCATE _ _ _ => true
  | _ => false
  end.

(** The operations whose handler calls [get_or_create_object]. *)
Definition creates_object (op : Op) : bool :=
  match op with
  | OP_TOUCH _ _ | OP_WRITE _ _ _ _ _ _ | OP_OMAP_SETKEYS _ _ _
  | OP_OMAP_SETHEADER _ _ _ | OP_OMAP_RMKEYS _ _ _
  | OP_OMAP_RMKEYRANGE _ _ _ _ => true
  | _ => false
  end.

(** Every collection, committed or pending, is marked as existing and
    carries the identifier it is entered under. *)
Definition Store_named (s : CyanStore) : Prop :=
  ∀ c ch, coll_map s !! c = Some ch ∨ new_coll_map s !! c = Some ch →
          exists_ ch = true ∧ cid ch = c.

(** No byte of [s] is anything but white space. *)
Fixpoint all_space (s : string) : bool :=
  match s with
  | EmptyString => true
  | String a s' => isspace a && all_space s'
  end.

(** The last byte of [s], when there is one, is not white space. *)
Fixpoint ends_without_space (s : string) : bool :=
  match s with
  | EmptyString => true
  | String a EmptyString => negb (isspace a)
  | String _ s' => ends_without_space s'
  end.

(** *** mount and umount *)

(** The directory holds, besides the metadata entries and the manifest,
    one file for each collection that was saved, named by the rendering of
    its identifier; distinct identifiers are taken to render to distinct
    names, none of them that of the manifest. What such a file holds is the
    business of [Collection::encode] and [Collection::decode]
    (cyan_collection.cc), which are not among the sources, as is
    [Collection::used_bytes]: [encoded] is what a file holds,
    [Collection_decode c e] the collection that [new Collection{c}] is after
    decoding [e], or nothing when the decoder throws. [coll_le] is the order
    of [std::set<coll_t>]. *)
Context {encoded : Type}.
Context (coll_le : relation coll_t) {coll_le_dec : RelDecision coll_le}.
Context (Collection_encode : Collection → encoded).
Context (Collection_decode : coll_t → encoded → option Collection).
Context (Collection_used_bytes : Collection → Z).

(** How [mount] ends, with the store as the loop left it: it returns, or
    throws [runtime_error("read_file")], or the decoder throws. *)
Inductive mount_exit :=
| Mounted (s : CyanStore)
| Read_file_failed (s : CyanStore)
| Decode_failed (s : CyanStore).

(** The loop of [mount] over the collections of the manifest. *)
Fixpoint mount_loop (files : gmap coll_t encoded) (s : CyanStore)
    (collections : list coll_t) : mount_exit :=
  match collections with
  | [] => Mounted s
  | coll :: rest =>
      match files !! coll with
      | None => Read_file_failed s
      | Some cbl =>
          match Collection_decode coll cbl with
          | None => Decode_failed s
          | Some c =>
              let used := wrap64 (used_bytes s + Collection_used_bytes c) in
              mount_loop files (set_used_bytes used (set_coll coll c s)) rest
          end
      end
  end.

(** [CyanStore::mount] *)
Definition mount (s : CyanStore) (d : Disk) (files : gmap coll_t encoded)
  : mount_exit :=
  match collections_file d with
  | None => Read_file_failed s
  | Some collections =>
      mount_loop files s (merge_sort coll_le (elements collections))
  end.

(** [CyanStore::umount]: every committed collection is entered into the
    set and written to its file, then the set is written as the
    manifest. *)
Definition umount (s : CyanStore) (d : Disk) (files : gmap coll_t encoded)
  : Disk * gmap coll_t encoded :=
  let '(collections, files') :=
    map_fold (λ col ch '(collections, files),
                ({[col]} ∪ collections, <[col := Collection_encode ch]> files))
      ((∅ : gset coll_t), files) (coll_map s) in
  ({| meta := meta d; collections_file := Some collections |}, files').
End model.

Arguments Collection coll_t ghobject_t {_ _}.
Arguments CyanStore coll_t {_ _} ghobject_t {_ _} uuid_d.
Arguments Disk coll_t {_ _}.
Arguments Op : clear implicits.
Arguments decoded : clear implicits.
Arguments Transaction : clear implicits.
Arguments call : clear implicits.
Arguments loop_exit coll_t {_ _} ghobject_t {_ _} uuid_d.
Arguments outcome coll_t {_ _} ghobject_t {_ _} uuid_d.
Arguments mount_exit coll_t {_ _} ghobject_t {_ _} uuid_d.
Arguments listing : clear implicits.
Arguments Listed {ghobject_t} objs next.
Arguments Reserve_failed {ghobject_t}.

(** ** A concrete store

    Identifiers, a codec for the filesystem identifier and a small store, on
    which the statements above are evaluated. *)

(** Object identifiers: numbered ones below the sentinel. *)
Inductive hobj :=
| Hobj (n : N)
| Hobj_max.

Global Instance hobj_eq_dec : EqDecision hobj.
Proof. solve_decision. Defined.

Global Instance hobj_countable : Countable hobj :=
  inj_countable'
    (λ x, match x with Hobj n => Some n | Hobj_max => None end)
    (λ o, match o with Some n => Hobj n | None => Hobj_max end)
    (λ x, match x with Hobj _ => eq_refl | Hobj_max => eq_refl end).

Definition hobj_le (a b : hobj) : Prop :=
  match a, b with
  | _, Hobj_max => True
  | Hobj_max, Hobj _ => False
  | Hobj x, Hobj y => (x ≤ y)%N
  end.

Global Instance hobj_le_dec : RelDecision hobj_le.
Proof. intros [x|] [y|]; simpl; apply _. Defined.

(** Filesystem identifiers of one byte, rendered as two hexadecimal
    digits. *)
Definition hex_digit (n : N) : ascii :=
  match n with
  | 0 => "0" | 1 => "1" | 2 => "2" | 3 => "3" | 4 => "4" | 5 => "5"
  | 6 => "6" | 7 => "7" | 8 => "8" | 9 => "9" | 10 => "a" | 11 => "b"
  | 12 => "c" | 13 => "d" | 14 => "e" | _ => "f"
  end%N%char.

Definition hex_value (a : ascii) : option N :=
  let n := N_of_ascii a in
  if bool_decide (48 ≤ n ≤ 57)%N then Some (n - 48)%N
  else if bool_decide (97 ≤ n ≤ 102)%N then Some (n - 87)%N
  else None.

Definition byte_to_string (u : ascii) : string :=
  let n := N_of_ascii u in
  String (hex_digit (n / 16)) (String (hex_digit (n mod 16)) EmptyString).

Definition byte_parse (s : string) : option ascii :=
  match s with
  | String h (String l EmptyString) =>
      match hex_value h, hex_value l with
      | Some x, Some y => Some (ascii_of_N (16 * x + y))
      | _, _ => None
      end
  | _ => None
  end.

Definition ex_conf : Config :=
  {| memstore_debug_omit_block_device_write := false;
     memstore_device_bytes := 1073741824 |}.

Definition ex_omit_conf : Config :=
  {| memstore_debug_omit_block_device_write := true;
     memstore_device_bytes := 1073741824 |}.

(** [Object::truncate] answering 0. *)
Definition ex_truncate_ret (size : Z) (o : Object) : Z := 0.

(** [Object::truncate] answering the resulting size, as the specification
    of the Object has it. *)
Definition ex_size_truncate_ret (size : Z) (o : Object) : Z := size.

(** An [Object::read] that refuses a window beyond the content. *)
Definition ex_read_beyond (offset len : Z) (d : bufferlist) : Z * bufferlist :=
  (- EINVAL, []).

(** A vector of identifiers with a [max_size()] of 2^56. *)
Definition ex_reserve_max : positive := 72057594037927936.

Definition ex_object : Object :=
  {| data := [Byte.x01; Byte.x02; Byte.x03];
     xattr := {[ "k" := [Byte.x2a] ]};
     omap := {[ "a" := [Byte.x0a]; "b" := [Byte.x0b]; "c" := [Byte.x0c];
                "d" := [Byte.x0d]; "e" := [Byte.x0e] ]};
     omap_header := [] |}.

Definition ex_coll : Collection N hobj :=
  {| cid := 1%N; bits := 0; exists_ := true;
     object_map := {[ Hobj 1 := 1%positive; Hobj 5 := 2%positive ]};
     object_hash := {[ Hobj 1 := 1%positive; Hobj 5 := 2%positive ]};
     objects := {[ 1%positive := ex_object; 2%positive := Object_new ]} |}.

Definition ex_store : CyanStore N hobj ascii :=
  {| coll_map := {[ 1%N := ex_coll ]}; new_coll_map := ∅;
     used_bytes := 3; osd_fsid := zero |}.

Definition ex_new : CyanStore N hobj ascii := CyanStore_new zero.

Definition ex_disk : Disk N :=
  {| meta := ∅; collections_file := None |}.

(** A run that commits a collection and writes, truncates and removes
    objects in it, and the store it ends in. *)
Definition ex_calls : list (call N hobj) :=
  [ Create_new_collection 1%N;
    Do_transaction
      {| ops := [ Decoded (OP_MKCOLL 1%N 0);
                  Decoded (OP_TOUCH 1%N (Hobj 1));
                  Decoded (OP_WRITE 1%N (Hobj 1) 0 3 0 [Byte.x01; Byte.x02; Byte.x03]);
                  Decoded (OP_WRITE 1%N (Hobj 2) 2 2 0 [Byte.x04; Byte.x05]);
                  Decoded (OP_TRUNCATE 1%N (Hobj 1) 10);
                  Decoded (OP_REMOVE 1%N (Hobj 2)) ];
         on_applied := Some 1%nat; on_commit := None;
         on_applied_sync := Some 2%nat |} ].

Definition ex_final : CyanStore N hobj ascii :=
  default ex_new (run_calls ex_conf ex_truncate_ret ex_new ex_calls).

(** A transaction whose second operation fails. *)
Definition ex_failing : Transaction N hobj :=
  {| ops := [ Decoded (OP_TOUCH 1%N (Hobj 7));
              Decoded (OP_TRUNCATE 1%N (Hobj 9) 4);
              Decoded (OP_TOUCH 1%N (Hobj 8)) ];
     on_applied := None; on_commit := None; on_applied_sync := None |}.

(** A TRUNCATE of an object that exists, with a TOUCH behind it. *)
Definition ex_truncate_touch : Transaction N hobj :=
  {| ops := [ Decoded (OP_TRUNCATE 1%N (Hobj 1) 4);
              Decoded (OP_TOUCH 1%N (Hobj 8)) ];
     on_applied := None; on_commit := None; on_applied_sync := None |}.

Definition ex_touched : CyanStore N hobj ascii :=
  default ex_store (apply_ops ex_conf ex_truncate_ret ex_store [OP_TOUCH 1%N (Hobj 7)]).

(** The store and the directory after a first mkfs with the zero
    identifier, for which the identifier 7 is generated. *)
Definition ex_formatted : CyanStore N hobj ascii * Disk N :=
  match mkfs zero byte_to_string byte_parse ex_new ex_disk zero (ascii_of_N 7) with
  | make_ready_future p => p
  | _ => (ex_new, ex_disk)
  end.


Definition ex_touch_missing : Transaction N hobj :=
  {| ops := [ Decoded (OP_TOUCH 4%N (Hobj 1)) ];
     on_applied := None; on_commit := None; on_applied_sync := None |}.

(** The first operation of [ex_failing], and the two behind it. *)
Definition ex_failing_head : Transaction N hobj :=
  {| ops := [ Decoded (OP_TOUCH 1%N (Hobj 7)) ];
     on_applied := None; on_commit := None; on_applied_sync := None |}.

Definition ex_failing_tail : Transaction N hobj :=
  {| ops := [ Decoded (OP_TRUNCATE 1%N (Hobj 9) 4);
              Decoded (OP_TOUCH 1%N (Hobj 8)) ];
     on_applied := None; on_commit := None; on_applied_sync := None |}.

(** The store that an operation leaves [ex_store] in. *)
Definition ex_after (op : Op N hobj) : CyanStore N hobj ascii :=
  match do_op ex_conf ex_truncate_ret ex_store op with
  | Ret (_, s') => s'
  | Abort => ex_store
  end.

(** A device of four bytes. *)
Definition ex_small_conf : Config :=
  {| memstore_debug_omit_block_device_write := false;
     memstore_device_bytes := 4 |}.

(** A codec that stores a collection as it is, the byte count of a
    collection, and the directory after [umount] of [ex_store]. *)
Definition ex_encode (ch : Collection N hobj) : Collection N hobj := ch.
Definition ex_decode (c : N) (e : Collection N hobj)
  : option (Collection N hobj) := Some e.
Definition ex_used_bytes (ch : Collection N hobj) : Z := wrap64 (live_bytes ch).

Definition ex_saved : Disk N * gmap N (Collection N hobj) :=
  umount ex_encode ex_store ex_disk ∅.

(** The collection that [ex_final] holds. *)
Definition ex_final_coll : Collection N hobj :=
  default (Collection_new 1%N) (coll_map ex_final !! 1%N).

Definition ex_mounted : CyanStore N hobj ascii :=
  match mount N.le ex_decode ex_used_bytes ex_new ex_saved.1 ex_saved.2 with
  | Mounted s => s
  | _ => ex_new
  end.

(** * Properties *)

(** ** Properties of the ordered containers *)

Section std_map_facts.
Context {K : Type} {K_eq : EqDecision K} {K_countable : Countable K}.
Context {V : Type}.
Context (R : relation K) {R_dec : RelDecision R} {R_total : TotalOrder R}.
Implicit Types (m : gmap K V) (l : list K) (k : K).

Lemma elem_of_ordered_keys m k : k ∈ ordered_keys R m ↔ is_Some (m !! k).
Proof.
  unfold ordered_keys. rewrite merge_sort_Permutation, elem_of_elements.
  apply elem_of_dom.
Qed.

Lemma ordered_keys_sorted m : StronglySorted R (ordered_keys R m).
Proof using Type*. apply StronglySorted_merge_sort; apply _. Qed.

Lemma ordered_keys_NoDup m : NoDup (ordered_keys R m).
Proof.
  unfold ordered_keys. rewrite merge_sort_Permutation. apply NoDup_elements.
Qed.

(** On an ascending sequence, seeking the first key of an upward closed
    set of keys yields exactly the keys of the set. *)
Lemma seek_sorted (P : K → Prop) `{!∀ x, Decision (P x)} l :
  StronglySorted R l →
  (∀ x y, P x → R x y → P y) →
  seek (λ x, bool_decide (P x)) l = filter P l.
Proof.
  intros Hs Hp. induction Hs as [|x l Hl IH Hx]; [done|]. simpl.
  case_bool_decide as Hpx.
  - rewrite filter_cons_True by done. f_equal.
    clear IH Hl. induction Hx as [|y l Hy Hl IH]; [done|].
    rewrite filter_cons_True by eauto. by f_equal.
  - by rewrite filter_cons_False.
Qed.

Lemma lower_bound_filter m k :
  lower_bound R k m = filter (R k) (ordered_keys R m).
Proof using Type*.
  unfold lower_bound. apply seek_sorted; [apply ordered_keys_sorted|].
  intros x y ??. by trans x.
Qed.

Lemma upper_bound_filter m k :
  upper_bound R k m = filter (λ x, ¬ R x k) (ordered_keys R m).
Proof using Type*.
  unfold upper_bound. apply seek_sorted; [apply ordered_keys_sorted|].
  intros x y Hx Hxy Hy. apply Hx. by trans y.
Qed.

Lemma StronglySorted_filter (P : K → Prop) `{!∀ x, Decision (P x)} l :
  StronglySorted R l → StronglySorted R (filter P l).
Proof.
  induction 1 as [|x l Hl IH Hx]; [constructor|].
  rewrite filter_cons. case_decide; [|done].
  constructor; [done|]. apply Forall_forall. intros y [_ Hy]%list_elem_of_filter.
  by eapply Forall_forall in Hx.
Qed.

(** The ascending key sequence is the only ascending sequence without
    repetition that holds exactly the keys of the map. *)
Lemma ordered_keys_unique m l :
  StronglySorted R l → NoDup l → (∀ k, k ∈ l ↔ is_Some (m !! k)) →
  ordered_keys R m = l.
Proof using Type*.
  intros Hs Hnd Hl. apply (StronglySorted_unique R);
    [apply ordered_keys_sorted|done|].
  apply NoDup_Permutation; [apply ordered_keys_NoDup|done|].
  intros k. by rewrite elem_of_ordered_keys, Hl.
Qed.

Lemma StronglySorted_take l n : StronglySorted R l → StronglySorted R (take n l).
Proof.
  intros Hs. rewrite <-(take_drop n l) in Hs.
  by apply StronglySorted_app_1_l in Hs.
Qed.

Lemma StronglySorted_drop l n : StronglySorted R l → StronglySorted R (drop n l).
Proof.
  intros Hs. rewrite <-(take_drop n l) in Hs.
  by apply StronglySorted_app_1_r in Hs.
Qed.

(** In an ascending sequence without repetition the keys greater than
    one of its keys are those behind it. *)
Lemma filter_greater_split l1 k l2 :
  StronglySorted R (l1 ++ k :: l2) → NoDup (l1 ++ k :: l2) →
  filter (λ x, ¬ R x k) (l1 ++ k :: l2) = l2.
Proof using Type*.
  intros Hs Hnd. rewrite filter_app, filter_cons_False by (intros Hk; by apply Hk).
  apply StronglySorted_app in Hs as (H12 & Hs1 & Hs2).
  apply NoDup_app in Hnd as (_ & _ & Hnd2). apply NoDup_cons in Hnd2 as [Hk _].
  apply StronglySorted_cons in Hs2 as [Hk2 Hs2].
  assert (filter (λ x, ¬ R x k) l1 = []) as ->.
  { clear Hs1. induction l1 as [|x l1 IH]; [done|].
    rewrite filter_cons_False; [apply IH; intros; apply H12; set_solver|].
    intros Hx. apply Hx, H12; set_solver. }
  simpl. clear Hs1 Hs2 H12. induction l2 as [|x l2 IH]; [done|].
  apply Forall_cons in Hk2 as [Hkx Hk2].
  rewrite filter_cons_True.
  - f_equal. apply IH; [done|set_solver].
  - intros Hxk. apply Hk. assert (x = k) as -> by (by apply (anti_symm R)).
    set_solver.
Qed.

Lemma map_filter_nothing (P : K * V → Prop) `{!∀ x, Decision (P x)} m :
  (∀ i x, m !! i = Some x → ¬ P (i, x)) → filter P m = ∅.
Proof.
  intros HP. apply map_eq. intros i.
  rewrite lookup_empty. apply map_lookup_filter_None. naive_solver.
Qed.

(** In an ascending sequence without repetition the keys not less than
    one of its keys are that key and those behind it. *)
Lemma filter_ge_split l1 k l2 :
  StronglySorted R (l1 ++ k :: l2) → NoDup (l1 ++ k :: l2) →
  filter (R k) (l1 ++ k :: l2) = k :: l2.
Proof using Type*.
  intros Hs Hnd. rewrite filter_app, filter_cons_True by done.
  apply StronglySorted_app in Hs as (H12 & Hs1 & Hs2).
  apply NoDup_app in Hnd as (_ & Hnd1 & _).
  apply StronglySorted_cons in Hs2 as [Hk2 Hs2].
  assert (filter (R k) l1 = []) as ->.
  { clear Hs1. induction l1 as [|x l1 IH]; [done|].
    rewrite filter_cons_False; [apply IH; intros; try apply H12; set_solver|].
    intros Hkx. apply (Hnd1 x); [set_solver|].
    assert (x = k) as -> by (apply (anti_symm R); [apply H12; set_solver|done]).
    set_solver. }
  simpl. f_equal. clear Hs1 Hs2 H12 Hnd1.
  induction Hk2 as [|x l2 Hx Hk2 IH]; [done|].
  rewrite filter_cons_True by done. by f_equal.
Qed.

Lemma map_sum_empty (f : V → Z) : map_sum f (∅ : gmap K V) = 0.
Proof. apply map_fold_empty. Qed.

Lemma map_sum_insert_None (f : V → Z) m k v :
  m !! k = None → map_sum f (<[k := v]> m) = f v + map_sum f m.
Proof. intros Hk. unfold map_sum. rewrite map_fold_insert_L; [done| |done]. lia. Qed.

Lemma map_sum_delete (f : V → Z) m k v :
  m !! k = Some v → map_sum f (delete k m) = map_sum f m - f v.
Proof.
  intros Hk. unfold map_sum.
  rewrite (map_fold_delete_L _ _ k v m); [lia| |done]. lia.
Qed.

Lemma map_sum_insert_Some (f : V → Z) m k v w :
  m !! k = Some w → map_sum f (<[k := v]> m) = map_sum f m - f w + f v.
Proof.
  intros Hk. rewrite <-insert_delete_eq, map_sum_insert_None
    by apply lookup_delete_eq.
  rewrite (map_sum_delete _ _ _ _ Hk). lia.
Qed.

Lemma map_sum_ext (f g : V → Z) m :
  (∀ k v, m !! k = Some v → f v = g v) → map_sum f m = map_sum g m.
Proof.
  induction m as [|k v m Hk IH] using map_ind; intros Hfg.
  - by rewrite !map_sum_empty.
  - rewrite !map_sum_insert_None by done.
    rewrite (Hfg k v) by apply lookup_insert_eq. f_equal. apply IH.
    intros k' v' Hk'. apply (Hfg k'). rewrite lookup_insert_ne; [done|].
    intros ->. congruence.
Qed.

(** A change of the measure at one key changes the sum by as much. *)
Lemma map_sum_change (f g : V → Z) m k v :
  m !! k = Some v →
  (∀ k' v', k' ≠ k → m !! k' = Some v' → f v' = g v') →
  map_sum g m = map_sum f m - f v + g v.
Proof.
  intros Hk Hfg. rewrite <-(insert_delete_id m k v) at 1 by done.
  rewrite map_sum_insert_None by apply lookup_delete_eq.
  rewrite (map_sum_ext g f).
  - rewrite (map_sum_delete _ _ _ _ Hk). lia.
  - intros k' v' [??]%lookup_delete_Some. symmetry. by apply (Hfg k').
Qed.

Lemma map_sum_nonneg (f : V → Z) m :
  (∀ k v, m !! k = Some v → 0 ≤ f v) → 0 ≤ map_sum f m.
Proof.
  induction m as [|k v m Hk IH] using map_ind; intros Hf.
  - by rewrite map_sum_empty.
  - rewrite map_sum_insert_None by done.
    pose proof (Hf k v (lookup_insert_eq _ _ _)).
    assert (0 ≤ map_sum f m); [|lia]. apply IH. intros k' v' Hk'.
    apply (Hf k'). rewrite lookup_insert_ne; [done|]. intros ->. congruence.
Qed.
End std_map_facts.

(** The lexicographic order of [std::string] is a total order. *)
Lemma string_le_compare (a b : string) :
  string_le a b ↔ String.compare a b ≠ Gt.
Proof.
  unfold string_le, String.leb. destruct (String.compare a b); naive_solver.
Qed.

Lemma string_le_lt_eq (a b : string) :
  string_le a b ↔ OrderedTypeEx.String_as_OT.lt a b ∨ a = b.
Proof.
  rewrite string_le_compare, <-OrderedTypeEx.String_as_OT.cmp_lt,
    <-OrderedTypeEx.String_as_OT.cmp_eq.
  unfold OrderedTypeEx.String_as_OT.cmp.
  destruct (String.compare a b); naive_solver.
Qed.

Global Instance string_le_total_order : TotalOrder string_le.
Proof.
  split; [split; [split|]|].
  - intros a. apply string_le_lt_eq. by right.
  - intros a b c Hab Hbc. apply string_le_lt_eq.
    apply string_le_lt_eq in Hab as [Hab|Hab], Hbc as [Hbc|Hbc]; subst; eauto.
    left. by eapply OrderedTypeEx.String_as_OT.lt_trans.
  - intros a b. apply String.leb_antisym.
  - intros a b. unfold strict.
    destruct (String.compare a b) eqn:Hc.
    + right; left. by apply OrderedTypeEx.String_as_OT.cmp_eq.
    + left. rewrite !string_le_compare, (String.compare_antisym b a), Hc.
      naive_solver.
    + right; right.
      rewrite !string_le_compare, (String.compare_antisym b a), Hc.
      naive_solver.
Qed.

(** ** 64-bit arithmetic *)

Lemma wrap64_is_uint64 (z : Z) : is_uint64 (wrap64 z).
Proof. solve_wrap. Qed.

Lemma wrap64_uint64 (z : Z) : is_uint64 z → wrap64 z = z.
Proof. intros ?. solve_wrap. Qed.

Lemma wrap64_add_l (a b : Z) : wrap64 (wrap64 a + b) = wrap64 (a + b).
Proof. solve_wrap. Qed.

Lemma wrap64_add_r (a b : Z) : wrap64 (a + wrap64 b) = wrap64 (a + b).
Proof. solve_wrap. Qed.

(** A sum of 64-bit numbers, taken as a 64-bit number, is the sum of the
    numbers they stand for. *)
Lemma wrap64_map_sum `{Countable K} {V : Type} (f : V → Z) (m : gmap K V) :
  wrap64 (map_sum (λ v, wrap64 (f v)) m) = wrap64 (map_sum f m).
Proof.
  induction m as [|k v m Hk IH] using map_ind.
  - by rewrite !map_sum_empty.
  - rewrite !map_sum_insert_None by done.
    rewrite <-wrap64_add_r, IH, wrap64_add_r, wrap64_add_l. done.
Qed.

(** ** Properties of the store *)

Section properties.
Context {coll_t : Type} {coll_eq : EqDecision coll_t}
  {coll_countable : Countable coll_t}.
Context {ghobject_t : Type} {ghobject_eq : EqDecision ghobject_t}
  {ghobject_countable : Countable ghobject_t}.
Context {uuid_d : Type}.
Local Abbreviation Collection := (Collection coll_t ghobject_t).
Local Abbreviation CyanStore := (CyanStore coll_t ghobject_t uuid_d).
Local Abbreviation Disk := (Disk coll_t).
Local Abbreviation Op := (Op coll_t ghobject_t).
Local Abbreviation decoded := (decoded coll_t ghobject_t).
Local Abbreviation Transaction := (Transaction coll_t ghobject_t).
Local Abbreviation call := (call coll_t ghobject_t).

(** ** Attribute lookup *)

(** C9. [get_attr] yields the value exactly when the object and the named
    attribute both exist; when the object or the attribute is absent it
    resolves to [EnoentException], and it never raises [runtime_error],
    which is what the bulk lookup [get_attrs] throws for an absent
    object. *)
Theorem get_attr_enoent (c : Collection) (oid : ghobject_t) (name : string) :
  (∀ v, get_attr c oid name = make_ready_future v ↔
        ∃ o, get_object c oid = Some o ∧ xattr (deref c o) !! name = Some v) ∧
  ((get_object c oid = None ∨
    ∃ o, get_object c oid = Some o ∧ xattr (deref c o) !! name = None) ↔
   ∃ what, get_attr c oid name = make_exception_future (EnoentException what)) ∧
  (∀ e, get_attr c oid name ≠ throws e) ∧
  (∀ what, get_attr c oid name ≠ make_exception_future (runtime_error what)) ∧
  (get_object c oid = None ↔
   ∃ what, get_attrs c oid = throws (runtime_error what)) ∧
  (∀ what, get_attrs c oid ≠ make_exception_future (EnoentException what) ∧
           get_attrs c oid ≠ throws (EnoentException what)).
Proof.
  unfold get_attr, get_attrs.
  destruct (get_object c oid) as [o|] eqn:Ho;
    [destruct (xattr (deref c o) !! name) as [v|] eqn:Hv|];
    repeat split; try naive_solver.
Qed.

(** ** Reading *)

(** The length that [read] hands to [Object::read] when [offset + len]
    does not fit into 64 bits: the comparison is made on the wrapped sum,
    which lies below the offset, and [len] is handed over as it is. *)
Lemma read_length_wrapped (size offset len : Z) :
  is_uint64 offset → is_uint64 len → offset < size → two64 ≤ offset + len →
  read_length size offset len = len.
Proof.
  intros Hoff Hlen Hbelow Hwrap. unfold read_length.
  assert (bool_decide (len = 0) && bool_decide (offset = 0) = false) as ->.
  { apply andb_false_iff. rewrite !bool_decide_eq_false. solve_wrap. }
  rewrite bool_decide_eq_false_2; [done|]. solve_wrap.
Qed.

Section reading.
(** What [Object::read] does with a window that reaches beyond the
    content: the properties hold whatever it is. *)
Context (Object_read_beyond : Z → Z → bufferlist → Z * bufferlist).
Local Abbreviation read := (read Object_read_beyond).

(** X22. For a collection that exists and an object that exists, [read]
    returns the bytes of [offset, offset + len) that lie inside the content,
    and the whole content for [offset == 0], [len == 0], whenever the offset
    is at or past the size or [offset + len] fits into 64 bits: nothing for
    an offset at or past the size, the bytes from [offset] to the end when
    [offset + len] exceeds the size; the window handed to [Object::read]
    lies inside the content. The comparison [offset + l > size] is made on
    the 64-bit sum: when the sum wraps, for an offset below the size, [len]
    is handed to [Object::read] as it is, a window beyond the content. When
    the collection is marked as not existing or the object is absent,
    [read] throws [runtime_error]. *)
Theorem read_clamps (c : Collection) (oid : ghobject_t) (offset len : Z) :
  is_uint64 offset → is_uint64 len →
  (exists_ c = true →
   ∀ o, get_object c oid = Some o →
     let d := data (deref c o) in
     (get_size (deref c o) ≤ offset ∨ offset + len < two64 →
      read c oid offset len = make_ready_future (clamped_window d offset len)) ∧
     (get_size (deref c o) ≤ offset → clamped_window d offset len = []) ∧
     (offset = 0 → len = 0 → clamped_window d offset len = d) ∧
     (offset < get_size (deref c o) < offset + len →
      clamped_window d offset len = drop (Z.to_nat offset) d) ∧
     (offset < get_size (deref c o) → offset + len < two64 →
      offset + read_length (get_size (deref c o)) offset len ≤
        get_size (deref c o)) ∧
     (offset < get_size (deref c o) < two64 → two64 ≤ offset + len →
      read_length (get_size (deref c o)) offset len = len ∧
      read c oid offset len =
        let '(r, bl) := Object_read_beyond offset len d in
        if bool_decide (r < 0) then throws (runtime_error "read")
        else make_ready_future bl)) ∧
  (exists_ c = false ∨ get_object c oid = None →
   ∃ what, read c oid offset len = throws (runtime_error what) ∧
           ∀ what', read c oid offset len ≠
                      make_exception_future (EnoentException what')).
Proof.
  intros Hoff Hlen. split.
  - intros Hex o Ho d.
    assert (offset < get_size (deref c o) → offset + len < two64 →
            offset + read_length (get_size (deref c o)) offset len ≤
              get_size (deref c o)) as Hinside.
    { intros Hbelow Hfit. unfold read_length.
      destruct (bool_decide (len = 0) && bool_decide (offset = 0)) eqn:H00.
      - apply andb_true_iff in H00 as [_ H0]. apply bool_decide_eq_true in H0. lia.
      - clear H00. case_bool_decide; solve_wrap. }
    repeat split.
    + intros Hclamped. unfold read. rewrite Hex, Ho. simpl.
      case_bool_decide as Hpast.
      { f_equal. symmetry. unfold clamped_window. case_bool_decide as H00.
        - destruct H00; subst. unfold get_size in Hpast. fold d in Hpast.
          destruct d; [done|]. simpl in *. lia.
        - apply length_zero_iff_nil. rewrite length_take, length_drop.
          unfold get_size in Hpast. fold d in Hpast. solve_wrap. }
      destruct Hclamped as [?|Hfit]; [done|].
      unfold Object_read. rewrite bool_decide_eq_true_2 by (apply Hinside; lia).
      rewrite bool_decide_eq_false_2 by done. f_equal.
      unfold get_size in Hpast. fold d in Hpast. clear Hinside.
      unfold clamped_window, read_length, get_size. fold d.
      destruct (decide (offset = 0 ∧ len = 0)) as [[-> ->]|Hn00].
      { rewrite !bool_decide_eq_true_2 by done. simpl.
        rewrite Nat2Z.id. apply firstn_all. }
      rewrite (bool_decide_eq_false_2 (offset = 0 ∧ len = 0)) by done.
      assert (bool_decide (len = 0) && bool_decide (offset = 0) = false) as ->.
      { apply andb_false_iff. rewrite !bool_decide_eq_false. lia. }
      rewrite Z.max_r by solve_wrap.
      case_bool_decide as Hover; f_equal; solve_wrap.
    + intros Hpast. unfold clamped_window, get_size in *. fold d in Hpast.
      case_bool_decide as H00.
      * destruct H00; subst. destruct d; [done|]. simpl in *. lia.
      * apply length_zero_iff_nil. rewrite length_take, length_drop.
        solve_wrap.
    + intros -> ->. unfold clamped_window. by rewrite bool_decide_eq_true_2.
    + intros Hover. unfold clamped_window, get_size in *. fold d in Hover.
      rewrite bool_decide_eq_false_2 by solve_wrap.
      rewrite Z.max_r by solve_wrap. apply take_ge.
      rewrite length_drop. solve_wrap.
    + done.
    + apply read_length_wrapped; [done..|lia|done].
    + unfold read. rewrite Hex, Ho. simpl.
      rewrite bool_decide_eq_false_2 by lia.
      rewrite read_length_wrapped by (done || lia).
      unfold Object_read. rewrite bool_decide_eq_false_2; [done|]. lia.
  - intros Habsent. unfold read.
    destruct (exists_ c); simpl; [|by eexists].
    destruct Habsent as [Hx| ->]; [done|]. by eexists.
Qed.

End reading.

(** ** Range removal of omap keys *)

(** The erasing loop, started anywhere in the ascending key sequence,
    removes the keys of the sequence that are not beyond [last]. *)
Lemma omap_rmkeyrange_loop_filter (i : list string) (last : string)
    (m : gmap string bufferlist) :
  StronglySorted string_le i →
  omap_rmkeyrange_loop i last m =
    filter (λ kv, kv.1 ∉ i ∨ ¬ string_le kv.1 last) m.
Proof.
  intros Hs. revert m. induction Hs as [|k i Hi IH Hk]; intros m; simpl.
  - symmetry. apply map_filter_id. intros ? ? _. left. apply not_elem_of_nil.
  - case_bool_decide as Hlast.
    + rewrite IH. apply map_filter_strong_ext_1. intros j x. simpl.
      rewrite lookup_delete_Some, not_elem_of_cons. naive_solver.
    + symmetry. apply map_filter_id. intros j x _. simpl.
      destruct (decide (j ∈ k :: i)) as [Hj|]; [|by left]. right.
      intros Hjl. apply Hlast. apply elem_of_cons in Hj as [->|Hj]; [done|].
      trans j; [|done]. by eapply Forall_forall in Hk.
Qed.

(** C5. On an existing object, [_omap_rmkeyrange] returns 0 and leaves the
    object with exactly the omap entries whose key does not lie in
    [first, last], both ends included, in lexicographic order; nothing
    else changes. From the keys a, b, c, d, e the range from b to d leaves
    a and e. *)
Theorem omap_rmkeyrange_inclusive (s : CyanStore) (c : coll_t)
    (ch : Collection) (oid : ghobject_t) (o : loc) (first last : string) :
  coll_map s !! c = Some ch →
  get_object ch oid = Some o →
  let m := omap (deref ch o) in
  let m' := filter (λ kv, ¬ (string_le first kv.1 ∧ string_le kv.1 last)) m in
  _omap_rmkeyrange s c oid first last =
    (0, set_coll c (store_object o (set_omap m' (deref ch o)) ch) s) ∧
  (∀ k, m' !! k =
        if bool_decide (string_le first k ∧ string_le k last)
        then None else m !! k) ∧
  (first = "b" → last = "d" →
   dom m = {[ "a"; "b"; "c"; "d"; "e" ]} → dom m' = {[ "a"; "e" ]}).
Proof.
  intros Hch Ho m m'.
  assert (∀ k, m' !! k =
               if bool_decide (string_le first k ∧ string_le k last)
               then None else m !! k) as Hlookup.
  { intros k. unfold m'. rewrite map_lookup_filter.
    destruct (m !! k) as [v|]; simpl; [|by case_bool_decide].
    case_bool_decide.
    - by rewrite option_guard_False by naive_solver.
    - by rewrite option_guard_True. }
  split; [|split; [done|]].
  - unfold _omap_rmkeyrange, _get_collection, get_or_create_object.
    unfold get_object in Ho. rewrite Hch, Ho. fold m. do 4 f_equal.
    rewrite omap_rmkeyrange_loop_filter.
    + apply map_filter_ext. intros k v Hk. simpl.
      rewrite lower_bound_filter, list_elem_of_filter, elem_of_ordered_keys
        by apply _.
      rewrite Hk. split.
      * intros [Hn|Hn] [??]; [apply Hn; eauto|done].
      * intros Hn. destruct (decide (string_le k last)); [left|by right].
        intros [??]. by apply Hn.
    + rewrite lower_bound_filter by apply _.
      apply StronglySorted_filter, ordered_keys_sorted; apply _.
  - intros -> -> Hdom. apply set_eq. intros k.
    rewrite elem_of_dom, Hlookup.
    assert (is_Some (m !! k) ↔ k ∈ ({[ "a"; "b"; "c"; "d"; "e" ]} : gset string))
      as Hk by (by rewrite <-Hdom, elem_of_dom).
    rewrite !elem_of_union, !elem_of_singleton in *.
    case_bool_decide as Hr.
    + split; [by intros []|]. intros [->| ->]; by destruct Hr.
    + rewrite Hk. split; [|tauto].
      intros [[[[->| ->]| ->]| ->]| ->]; try tauto; by destruct Hr.
Qed.

Section omap_paging.
Context (MAX_KEYS_PER_OMAP_GET_CALL : nat).

(** ** The omap range query *)

Lemma omap_get_values_start (m : gmap string bufferlist) (start : option string) :
  match start with
  | Some k => upper_bound string_le k m
  | None => map_begin string_le m
  end = keys_after start m.
Proof.
  unfold keys_after. destruct start as [k|]; simpl.
  - by rewrite upper_bound_filter by apply _.
  - unfold map_begin. generalize (ordered_keys string_le m). intros l.
    induction l as [|x l IH]; [done|]. rewrite filter_cons_True by done.
    by f_equal.
Qed.

Lemma keys_after_sorted start m : StronglySorted string_le (keys_after start m).
Proof. apply StronglySorted_filter, ordered_keys_sorted; apply _. Qed.

Lemma keys_after_NoDup start m : NoDup (keys_after start m).
Proof. apply NoDup_filter, ordered_keys_NoDup. Qed.

Lemma elem_of_keys_after start m k :
  k ∈ keys_after start m ↔ is_after start k ∧ is_Some (m !! k).
Proof.
  unfold keys_after. by rewrite list_elem_of_filter, elem_of_ordered_keys by apply _.
Qed.

(** The loop fills [values] with the entries of the next keys of [i], as
    many as there is room for. *)
Lemma omap_get_values_loop_spec (m : gmap string bufferlist) (i : list string)
    (values : gmap string bufferlist) :
  NoDup i → (∀ k, k ∈ i → is_Some (m !! k) ∧ values !! k = None) →
  omap_get_values_loop MAX_KEYS_PER_OMAP_GET_CALL m i values =
    values ∪ filter (λ kv, kv.1 ∈ take (MAX_KEYS_PER_OMAP_GET_CALL - size values) i) m.
Proof.
  intros Hnd. revert values. induction Hnd as [|k i Hk Hnd IH]; intros values Hi; simpl.
  - rewrite take_nil, map_filter_nothing, (right_id_L ∅ (∪)); [done|].
    intros ?? _ []%elem_of_nil.
  - destruct (Hi k) as [[v Hv] Hvk]; [left|].
    case_bool_decide as Hsize.
    + rewrite Hv, IH.
      2:{ intros j Hj. destruct (Hi j) as [??]; [by right|]. split; [done|].
          rewrite lookup_insert_ne; [done|]. by intros ->. }
      rewrite map_size_insert_None by done.
      replace (MAX_KEYS_PER_OMAP_GET_CALL - size values)%nat
        with (S (MAX_KEYS_PER_OMAP_GET_CALL - S (size values))) by lia.
      simpl. set (t := take _ i). apply map_eq. intros j.
      rewrite !lookup_union, !map_lookup_filter. simpl.
      destruct (decide (j = k)) as [->|Hjk].
      * rewrite lookup_insert_eq, Hvk, Hv. simpl.
        rewrite (option_guard_True (k ∈ k :: t)) by left.
        by destruct (guard (k ∈ t)).
      * rewrite lookup_insert_ne by done.
        destruct (m !! j) as [w|]; simpl; [|done].
        destruct (decide (j ∈ t)).
        -- rewrite !option_guard_True; [done|by right|done].
        -- rewrite !option_guard_False; [done| |done].
           rewrite elem_of_cons. tauto.
    + replace (MAX_KEYS_PER_OMAP_GET_CALL - size values)%nat with 0%nat by lia.
      simpl. rewrite map_filter_nothing, (right_id_L ∅ (∪)); [done|].
      intros ?? _ []%elem_of_nil.
Qed.

Lemma omap_get_values_page (m : gmap string bufferlist) (start : option string) :
  let page := omap_get_values_loop MAX_KEYS_PER_OMAP_GET_CALL m (keys_after start m) ∅ in
  ordered_keys string_le page = take MAX_KEYS_PER_OMAP_GET_CALL (keys_after start m) ∧
  page ⊆ m.
Proof.
  intros page.
  assert (page = filter (λ kv, kv.1 ∈ take MAX_KEYS_PER_OMAP_GET_CALL
                                        (keys_after start m)) m) as ->.
  { unfold page. rewrite omap_get_values_loop_spec.
    - by rewrite map_size_empty, Nat.sub_0_r, (left_id_L ∅ (∪)).
    - apply keys_after_NoDup.
    - intros k [_ ?]%elem_of_keys_after. by rewrite lookup_empty. }
  split; [|apply map_filter_subseteq].
  apply ordered_keys_unique; [apply _|..].
  - apply StronglySorted_take, keys_after_sorted.
  - eauto using sublist_NoDup, sublist_take, keys_after_NoDup.
  - intros k. unfold is_Some. setoid_rewrite map_lookup_filter_Some. simpl.
    split; [|naive_solver]. intros Hk.
    assert (k ∈ keys_after start m) as [_ [v Hv]]%elem_of_keys_after
      by (eapply elem_of_sublist; [done|apply sublist_take]).
    eauto.
Qed.

(** The keys behind the last key of a page are the keys behind the page. *)
Lemma keys_after_last (m : gmap string bufferlist) (start : option string)
    (n : nat) (k : string) :
  last (take n (keys_after start m)) = Some k →
  keys_after (Some k) m = drop n (keys_after start m).
Proof.
  intros [l1 Hl1]%last_Some.
  pose proof (take_drop n (keys_after start m)) as Hsplit.
  rewrite Hl1, <-app_assoc in Hsplit. simpl in Hsplit.
  pose proof (keys_after_sorted start m) as Hs.
  pose proof (keys_after_NoDup start m) as Hnd.
  rewrite <-Hsplit in Hs, Hnd.
  rewrite <-(filter_greater_split string_le l1 k (drop n (keys_after start m)))
    by done.
  rewrite Hsplit. unfold keys_after at 2. rewrite list_filter_filter.
  apply list_filter_iff. intros x. simpl. split; [|tauto].
  intros Hx. split; [done|].
  assert (k ∈ keys_after start m) as [Hk _]%elem_of_keys_after.
  { rewrite <-Hsplit. set_solver. }
  destruct start as [st|]; [|done]. simpl in *. intros Hxst. apply Hk.
  trans x; [|done]. by destruct (total string_le k x).
Qed.

(** C4. For an object that exists, the range query resolves to a flag,
    which is always [true], and a page of omap entries. Read in key order,
    the page holds the first [MAX_KEYS_PER_OMAP_GET_CALL] keys of the omap
    that are greater than [start] (of all keys when there is no start), in
    ascending order, with the values of the omap. The query from the last
    key of a page yields the keys that follow: the two pages read one after
    the other are the first [2 * MAX_KEYS_PER_OMAP_GET_CALL] keys behind
    [start], none twice and none left out. *)
Theorem omap_get_values_paging (c : Collection) (oid : ghobject_t) (o : loc)
    (start : option string) :
  get_object c oid = Some o →
  let m := omap (deref c o) in
  let keys := keys_after start m in
  (StronglySorted string_le keys ∧ NoDup keys ∧
   ∀ k, k ∈ keys ↔ is_after start k ∧ is_Some (m !! k)) ∧
  ∃ page,
    omap_get_values MAX_KEYS_PER_OMAP_GET_CALL c oid start =
      make_ready_future (true, page) ∧
    ordered_keys string_le page = take MAX_KEYS_PER_OMAP_GET_CALL keys ∧
    (length (ordered_keys string_le page) ≤ MAX_KEYS_PER_OMAP_GET_CALL)%nat ∧
    page ⊆ m ∧
    ∀ k, last (ordered_keys string_le page) = Some k →
      ∃ page',
        omap_get_values MAX_KEYS_PER_OMAP_GET_CALL c oid (Some k) =
          make_ready_future (true, page') ∧
        ordered_keys string_le page' =
          take MAX_KEYS_PER_OMAP_GET_CALL (drop MAX_KEYS_PER_OMAP_GET_CALL keys) ∧
        page' ⊆ m ∧
        ordered_keys string_le page ++ ordered_keys string_le page' =
          take (MAX_KEYS_PER_OMAP_GET_CALL + MAX_KEYS_PER_OMAP_GET_CALL) keys.
Proof.
  intros Ho m keys. split.
  { split; [apply keys_after_sorted|]. split; [apply keys_after_NoDup|].
    apply elem_of_keys_after. }
  unfold omap_get_values. rewrite Ho. fold m.
  rewrite !omap_get_values_start. fold keys.
  destruct (omap_get_values_page m start) as [Hkeys Hsub]. fold keys in Hkeys, Hsub.
  eexists. split; [done|]. split; [done|]. split; [|split; [done|]].
  { rewrite Hkeys, length_take. lia. }
  intros k Hlast. rewrite Hkeys in Hlast.
  pose proof (omap_get_values_start m (Some k)) as Hstart. simpl in Hstart.
  rewrite Hstart.
  destruct (omap_get_values_page m (Some k)) as [Hkeys' Hsub'].
  rewrite (keys_after_last m start _ k Hlast) in Hkeys', Hsub' |- *.
  eexists. split; [done|]. split; [done|]. split; [done|].
  rewrite Hkeys, Hkeys'. apply take_take_drop.
Qed.
End omap_paging.

Section listing.
(** ** Listing the objects of a collection *)

Context (gh_le : relation ghobject_t) {gh_le_dec : RelDecision gh_le}.
Context (gh_max : ghobject_t).
Context {gh_le_total : TotalOrder gh_le}.
Context (gh_max_top : ∀ oid, gh_le oid gh_max).
Context (reserve_max : positive).

(** On an ascending sequence the keys below [end_] form a prefix; the
    loop takes as much of it as [limit] leaves room for, and the cursor is
    the key behind what it took. *)
Lemma list_objects_loop_spec (it : list ghobject_t) (end_ : ghobject_t)
    (limit : Z) (objs : list ghobject_t) (next : ghobject_t) :
  StronglySorted gh_le it →
  let taken := take (Z.to_nat (limit - Z.of_nat (length objs)))
                 (filter (λ oid, ¬ gh_le end_ oid) it) in
  list_objects_loop gh_le it end_ limit objs next =
    (objs ++ taken, default next (head (drop (length taken) it))) ∧
  it = taken ++ drop (length taken) it.
Proof using Type*.
  intros Hs. revert objs. induction Hs as [|oid it Hit IH Hoid]; intros objs.
  { simpl. rewrite filter_nil, take_nil. simpl. by rewrite (right_id_L [] (++)). }
  simpl. rewrite filter_cons.
  destruct (decide (gh_le end_ oid)) as [Hend|Hend].
  - rewrite bool_decide_eq_true_2 by done. simpl.
    rewrite decide_False by tauto.
    assert (filter (λ x, ¬ gh_le end_ x) it = []) as ->.
    { clear IH Hit. induction Hoid as [|x it Hx _ IH]; [done|].
      rewrite filter_cons_False; [done|]. intros Hn. apply Hn. by trans oid. }
    by rewrite take_nil, (right_id_L [] (++)).
  - rewrite bool_decide_eq_false_2 by done. rewrite decide_True by done. simpl.
    case_bool_decide as Hfull.
    + replace (Z.to_nat (limit - Z.of_nat (length objs))) with 0%nat by lia.
      simpl. by rewrite (right_id_L [] (++)).
    + destruct (IH (objs ++ [oid])) as [-> Hsplit].
      rewrite length_app in Hsplit |- *. simpl in Hsplit |- *.
      replace (Z.to_nat (limit - Z.of_nat (length objs)))
        with (S (Z.to_nat (limit - Z.of_nat (length objs + 1)))) by lia.
      simpl. rewrite <-app_assoc. simpl. split; [done|]. by f_equal.
Qed.

Lemma objects_in_range_lower_bound (c : Collection) (start end_ : ghobject_t) :
  objects_in_range gh_le c start end_ =
    filter (λ oid, ¬ gh_le end_ oid) (lower_bound gh_le start (object_map c)).
Proof using Type*.
  unfold objects_in_range. rewrite lower_bound_filter, list_filter_filter by apply _.
  apply list_filter_iff. tauto.
Qed.

Lemma objects_in_range_sorted (c : Collection) (start end_ : ghobject_t) :
  StronglySorted gh_le (objects_in_range gh_le c start end_) ∧
  NoDup (objects_in_range gh_le c start end_) ∧
  ∀ oid, oid ∈ objects_in_range gh_le c start end_ ↔
         is_Some (object_map c !! oid) ∧ gh_le start oid ∧ ¬ gh_le end_ oid.
Proof using Type*.
  unfold objects_in_range. split; [|split].
  - apply StronglySorted_filter, ordered_keys_sorted; apply _.
  - apply NoDup_filter, ordered_keys_NoDup.
  - intros oid. rewrite list_elem_of_filter, elem_of_ordered_keys by apply _. tauto.
Qed.

(** Nothing lies in a range that starts at the sentinel or at an
    identifier that is not below [end_]. *)
Lemma objects_in_range_past (c : Collection) (start end_ : ghobject_t) :
  start = gh_max ∨ gh_le end_ start → objects_in_range gh_le c start end_ = [].
Proof using Type*.
  intros Hpast. destruct (objects_in_range gh_le c start end_) as [|oid l] eqn:Hr; [done|].
  assert (oid ∈ objects_in_range gh_le c start end_) as Hoid by (rewrite Hr; left).
  apply objects_in_range_sorted in Hoid as (_ & Hstart & Hend).
  destruct Hend. destruct Hpast as [->|Hpast].
  - trans gh_max; [apply gh_max_top|done].
  - by trans start.
Qed.

(** A limit that [reserve] accepts: the call returns. *)
Lemma list_objects_spec (c : Collection) (start end_ : ghobject_t) (limit : Z) :
  limit ≤ Z.pos reserve_max →
  ∃ rest,
    list_objects gh_le gh_max reserve_max c start end_ limit =
      Listed (take (Z.to_nat limit) (objects_in_range gh_le c start end_))
        (default gh_max (head rest)) ∧
    lower_bound gh_le start (object_map c) =
      take (Z.to_nat limit) (objects_in_range gh_le c start end_) ++ rest.
Proof using Type*.
  intros Hreserve. unfold list_objects.
  rewrite bool_decide_eq_false_2 by lia.
  rewrite objects_in_range_lower_bound.
  destruct (list_objects_loop_spec (lower_bound gh_le start (object_map c))
              end_ limit [] gh_max) as [Hloop Hsplit].
  { rewrite lower_bound_filter by apply _.
    apply StronglySorted_filter, ordered_keys_sorted; apply _. }
  simpl in Hloop, Hsplit. rewrite Z.sub_0_r in Hloop, Hsplit.
  eexists. split; [by rewrite Hloop|exact Hsplit].
Qed.

(** A call that returns was made with a limit that [reserve] accepts. *)
Lemma list_objects_reserved (c : Collection) (start end_ : ghobject_t)
    (limit : Z) (objs : list ghobject_t) (next : ghobject_t) :
  list_objects gh_le gh_max reserve_max c start end_ limit = Listed objs next →
  limit ≤ Z.pos reserve_max.
Proof. unfold list_objects. case_bool_decide; [done|lia]. Qed.

(** One call: what it returns and the range that is left at its cursor
    make up the range it was asked for. *)
Lemma list_objects_step (c : Collection) (start end_ : ghobject_t) (limit : Z)
    (objs : list ghobject_t) (next : ghobject_t) :
  list_objects gh_le gh_max reserve_max c start end_ limit = Listed objs next →
  objects_in_range gh_le c start end_ = objs ++ objects_in_range gh_le c next end_ ∧
  (objects_in_range gh_le c start end_ = [] → next = gh_max ∨ gh_le end_ next) ∧
  (0 < limit → objs = [] → objects_in_range gh_le c start end_ = []).
Proof using Type*.
  intros Hcall.
  destruct (list_objects_spec c start end_ limit) as (rest & Hspec & Hsplit);
    [by eapply list_objects_reserved|].
  rewrite Hcall in Hspec. injection Hspec as Hobjs Hnext.
  rewrite <-Hobjs in Hsplit.
  assert (Forall (λ oid, ¬ gh_le end_ oid) objs) as Hin.
  { rewrite Hobjs. apply Forall_forall. intros oid Hoid.
    assert (oid ∈ objects_in_range gh_le c start end_) as Hoid'
      by (eapply elem_of_sublist; [done|apply sublist_take]).
    by apply objects_in_range_sorted in Hoid' as (_ & _ & ?). }
  assert (filter (λ oid, ¬ gh_le end_ oid) objs = objs) as Hfilter.
  { clear -Hin. induction Hin as [|x l Hx Hl IH]; [done|].
    rewrite filter_cons_True by done. by f_equal. }
  pose proof (objects_in_range_lower_bound c start end_) as Hrange.
  rewrite Hsplit, filter_app, Hfilter in Hrange.
  split; [|split].
  - rewrite Hrange. f_equal. destruct rest as [|x rest]; simpl in Hnext; subst next.
    { rewrite filter_nil. symmetry. apply objects_in_range_past. by left. }
    rewrite objects_in_range_lower_bound. f_equal.
    rewrite !lower_bound_filter in * by apply _.
    assert (gh_le start x) as Hx.
    { assert (x ∈ filter (gh_le start) (ordered_keys gh_le (object_map c)))
        as [? _]%list_elem_of_filter by (rewrite Hsplit; set_solver).
      done. }
    symmetry.
    transitivity (filter (gh_le x)
                    (filter (gh_le start) (ordered_keys gh_le (object_map c)))).
    { rewrite list_filter_filter. apply list_filter_iff. intros y.
      split; [|tauto]. intros ?. split; [done|]. by trans x. }
    rewrite Hsplit. apply filter_ge_split; [apply _|rewrite <-Hsplit..].
    + apply StronglySorted_filter, ordered_keys_sorted; apply _.
    + apply NoDup_filter, ordered_keys_NoDup.
  - intros Hempty. rewrite Hempty in Hrange.
    symmetry in Hrange. apply app_eq_nil in Hrange as [-> Hrest].
    destruct rest as [|x rest]; simpl in Hnext; subst next; [by left|right].
    rewrite filter_cons in Hrest. case_decide as Hx; [done|].
    by destruct (decide (gh_le end_ x)).
  - intros Hlimit ->. symmetry in Hobjs.
    destruct (objects_in_range gh_le c start end_); [done|].
    replace (Z.to_nat limit) with (S (Z.to_nat (limit - 1))) in Hobjs by lia.
    done.
Qed.

Lemma list_pages_spec (c : Collection) (end_ : ghobject_t) (limit : Z) (n : nat) :
  0 < limit ≤ Z.pos reserve_max → ∀ start,
  (length (objects_in_range gh_le c start end_) < n)%nat →
  ∃ cursor,
    list_pages gh_le gh_max reserve_max n c start end_ limit =
      Some (objects_in_range gh_le c start end_, cursor) ∧
    (end_ = gh_max → cursor = gh_max).
Proof using Type*.
  intros [Hlimit Hreserve]. induction n as [|n IH]; intros start Hn; [lia|]. simpl.
  destruct (list_objects_spec c start end_ limit Hreserve) as (rest & Hcall & _).
  rewrite Hcall.
  destruct (list_objects_step _ _ _ _ _ _ Hcall) as (Hrange & Hpast & Hprogress).
  set (objs := take (Z.to_nat limit) (objects_in_range gh_le c start end_)) in *.
  set (next := default gh_max (head rest)) in *.
  destruct (decide (length (objects_in_range gh_le c next end_) < n)%nat) as [Hlt|Hge].
  - destruct (IH next Hlt) as (cursor & -> & Hcursor).
    exists cursor. by rewrite <-Hrange.
  - rewrite Hrange, length_app in Hn.
    assert (objs = []) as Hobjs by (destruct objs; [done|simpl in *; lia]).
    specialize (Hprogress Hlimit Hobjs). rewrite Hobjs, Hprogress in Hrange.
    simpl in Hrange. rewrite <-Hrange in Hge. simpl in Hge.
    assert (n = 0%nat) as -> by lia. simpl.
    exists next. rewrite Hobjs, Hprogress. split; [done|]. intros ->.
    destruct (Hpast Hprogress) as [?|?]; [done|].
    by apply (anti_symm gh_le).
Qed.

(** C3, as amended. For a [limit] that [objects.reserve(limit)] accepts,
    [list_objects] returns the first [limit] identifiers of the collection
    that lie in [start, end_), in ascending order; the cursor is the
    identifier at which the loop broke off, the first one from [start] on
    that was not returned, and the sentinel when the loop came to the end
    of [object_map]. For such a [limit] that is positive, the calls of a
    client that feeds each cursor back as the next [start] return every
    identifier of [start, end_) once, in ascending order, and with the
    sentinel as [end_] the last cursor is the sentinel. *)
Theorem list_objects_paging (c : Collection) (start end_ : ghobject_t)
    (limit : Z) :
  limit ≤ Z.pos reserve_max →
  let range := objects_in_range gh_le c start end_ in
  (StronglySorted gh_le range ∧ NoDup range ∧
   ∀ oid, oid ∈ range ↔
          is_Some (object_map c !! oid) ∧ gh_le start oid ∧ ¬ gh_le end_ oid) ∧
  (∃ rest,
     list_objects gh_le gh_max reserve_max c start end_ limit =
       Listed (take (Z.to_nat limit) range) (default gh_max (head rest)) ∧
     lower_bound gh_le start (object_map c) = take (Z.to_nat limit) range ++ rest) ∧
  (0 < limit → ∀ n, (length range < n)%nat →
     ∃ cursor,
       list_pages gh_le gh_max reserve_max n c start end_ limit =
         Some (range, cursor) ∧
       (end_ = gh_max → cursor = gh_max)).
Proof using Type*.
  intros Hreserve range. split; [apply objects_in_range_sorted|].
  split; [by apply list_objects_spec|].
  intros Hlimit n Hn. by apply list_pages_spec.
Qed.
End listing.

(** ** The byte counter *)

Lemma Collection_new_wf (c : coll_t) :
  Collection_wf (Collection_new c : Collection).
Proof. split; [done|]. split; intros *; simpl; by rewrite lookup_empty. Qed.

(** An assignment through a pointer that an identifier holds changes the
    live bytes by the change of that Object's length. *)
Lemma live_bytes_store_object (ch : Collection) (oid : ghobject_t) (o : loc)
    (v : Object) :
  Collection_wf ch → object_map ch !! oid = Some o →
  Collection_wf (store_object o v ch) ∧
  live_bytes (store_object o v ch) =
    live_bytes ch - get_size (deref ch o) + get_size v.
Proof.
  intros (Hsame & Hinj & Halloc) Ho. split.
  - split; [done|]. split; [done|]. intros oid' o' Ho'. simpl.
    destruct (decide (o = o')) as [->|]; [by rewrite lookup_insert_eq|].
    rewrite lookup_insert_ne by done. by eapply Halloc.
  - unfold live_bytes, deref. simpl.
    rewrite (map_sum_change (λ o', get_size (objects ch !!! o')) _ _ oid o Ho).
    + by rewrite lookup_total_insert_eq.
    + intros oid' o' Hne Ho'. rewrite lookup_total_insert_ne; [done|].
      intros ->. by destruct Hne; eapply Hinj.
Qed.

(** Getting or creating an Object keeps the collection well formed and its
    live bytes, and the identifier holds the pointer that is returned. *)
Lemma get_or_create_object_wf (ch : Collection) (oid : ghobject_t) :
  Collection_wf ch →
  Collection_wf (get_or_create_object ch oid).2 ∧
  object_map (get_or_create_object ch oid).2 !! oid =
    Some (get_or_create_object ch oid).1 ∧
  live_bytes (get_or_create_object ch oid).2 = live_bytes ch.
Proof.
  intros (Hsame & Hinj & Halloc). unfold get_or_create_object.
  destruct (object_hash ch !! oid) as [o|] eqn:Ho; simpl.
  { split; [done|]. by rewrite Hsame. }
  pose proof (is_fresh (dom (objects ch))) as Hfresh.
  set (o := fresh (dom (objects ch))) in *.
  assert (∀ oid', object_map ch !! oid' ≠ Some o) as Hnew.
  { intros oid' Ho'. apply Hfresh, elem_of_dom. by eapply Halloc. }
  split; [split; [|split]|split]; simpl.
  - by rewrite Hsame.
  - intros oid1 oid2 o'. rewrite !lookup_insert_Some.
    intros [[<- <-]|[? H1]] [[<- ?]|[? H2]]; subst; try done.
    + by destruct (Hnew oid2).
    + by destruct (Hnew oid1).
    + by eapply Hinj.
  - intros oid' o'. rewrite lookup_insert_Some.
    intros [[<- <-]|[? Ho']]; [by rewrite lookup_insert_eq|].
    rewrite lookup_insert_ne; [by eapply Halloc|]. intros <-. by destruct (Hnew oid').
  - by rewrite lookup_insert_eq.
  - unfold live_bytes, deref. simpl.
    rewrite map_sum_insert_None by (by rewrite Hsame).
    rewrite lookup_total_insert_eq. unfold get_size at 1. simpl.
    apply map_sum_ext. intros oid' o' Ho'.
    rewrite lookup_total_insert_ne; [done|]. intros <-. by destruct (Hnew oid').
Qed.

Lemma total_live_bytes_set_coll (s : CyanStore) (c : coll_t) (ch ch' : Collection) :
  coll_map s !! c = Some ch →
  total_live_bytes (set_coll c ch' s) =
    total_live_bytes s - live_bytes ch + live_bytes ch'.
Proof. intros Hch. unfold total_live_bytes. simpl. by apply map_sum_insert_Some. Qed.

(** Replacing a committed collection by a well formed one and moving the
    counter by the change of its live bytes keeps the store consistent. *)
Lemma Store_wf_update (s s' : CyanStore) (c : coll_t) (ch ch' : Collection) :
  Store_wf s → coll_map s !! c = Some ch → Collection_wf ch' →
  coll_map s' = <[c := ch']> (coll_map s) →
  new_coll_map s' = new_coll_map s →
  used_bytes s' = wrap64 (used_bytes s + (live_bytes ch' - live_bytes ch)) →
  Store_wf s'.
Proof.
  intros (Hcolls & Hnew & Hused) Hch Hwf Hmap Hnewmap Hu. split; [|split].
  - intros c' ch''. rewrite Hmap, lookup_insert_Some.
    intros [[_ <-]|[_ ?]]; [done|by eapply Hcolls].
  - by rewrite Hnewmap.
  - rewrite Hu. unfold total_live_bytes in *. rewrite Hmap.
    rewrite (map_sum_insert_Some _ _ _ _ _ Hch), Hused. solve_wrap.
Qed.

(** An assignment to an Object of a committed collection that keeps the
    length of its content keeps the store consistent. *)
Lemma Store_wf_store_same_size (s : CyanStore) (c : coll_t) (ch : Collection)
    (oid : ghobject_t) (o : loc) (v : Object) :
  Store_wf s → Collection_wf ch →
  object_map ch !! oid = Some o → get_size v = get_size (deref ch o) →
  ∀ ch0, coll_map s !! c = Some ch0 → live_bytes ch0 = live_bytes ch →
  Store_wf (set_coll c (store_object o v ch) s).
Proof.
  intros Hs Hwf Ho Hsize ch0 Hch0 Hlive.
  destruct (live_bytes_store_object ch oid o v Hwf Ho) as [Hwf' Hbytes].
  apply (Store_wf_update s _ c ch0 _ Hs Hch0 Hwf'); [done..|]. simpl.
  destruct Hs as (_ & _ & Hused). rewrite Hused. solve_wrap.
Qed.

Lemma Store_wf_get_or_create (s : CyanStore) (c : coll_t) (ch : Collection)
    (oid : ghobject_t) :
  Store_wf s → coll_map s !! c = Some ch →
  Store_wf (set_coll c (get_or_create_object ch oid).2 s).
Proof.
  intros Hs Hch. pose proof Hs as (Hcolls & _ & Hused).
  destruct (get_or_create_object_wf ch oid (Hcolls _ _ Hch)) as (Hwf & _ & Hbytes).
  apply (Store_wf_update s _ c ch _ Hs Hch Hwf); [done..|]. simpl.
  rewrite Hused. solve_wrap.
Qed.

Section transactions.
Context (conf : Config).
Context (Object_truncate_ret : Z → Object → Z).

(** ** Removal *)

(** C6. A REMOVE operation leaves [r] at 0 whether the object exists or
    not. When it exists it is erased from [object_hash] and from
    [object_map] and [used_bytes] goes down by its size; when the
    collection or the object is absent, [_remove] answers [-ENOENT], the
    operation turns that into 0 and the store is as before. *)
Theorem remove_reports_success (s : CyanStore) (c : coll_t) (oid : ghobject_t) :
  (∀ ch o,
     coll_map s !! c = Some ch → object_hash ch !! oid = Some o →
     ∃ s' ch',
       do_op conf Object_truncate_ret s (OP_REMOVE c oid) = Ret (0, s') ∧
       coll_map s' = <[c := ch']> (coll_map s) ∧
       object_hash ch' = delete oid (object_hash ch) ∧
       object_map ch' = delete oid (object_map ch) ∧
       used_bytes s' = wrap64 (used_bytes s - get_size (deref ch o))) ∧
  ((coll_map s !! c = None ∨
    ∃ ch, coll_map s !! c = Some ch ∧ object_hash ch !! oid = None) →
   _remove s c oid = (- ENOENT, s) ∧
   do_op conf Object_truncate_ret s (OP_REMOVE c oid) = Ret (0, s)).
Proof.
  split.
  - intros ch o Hch Ho. unfold do_op, _remove, _get_collection.
    rewrite Hch, Ho. simpl. eexists _, _. split; [done|]. by simpl.
  - intros Habsent. unfold do_op, _remove, _get_collection.
    destruct Habsent as [Hc|(ch & Hch & Ho)].
    + by rewrite Hc.
    + by rewrite Hch, Ho.
Qed.

(** ** Writes and truncations that are left out *)

(** C10. With [memstore_debug_omit_block_device_write] set (for [_write],
    also with [len == 0]), [_write] and [_truncate] on an existing
    collection return 0 and change neither an object nor [used_bytes]: the
    store is as before, except that [_write] on an absent object enters a
    new, empty Object at a fresh place into [object_map] and
    [object_hash]. [_truncate] on an absent object still answers
    [-ENOENT]. *)
Theorem omitted_write_frame (s : CyanStore) (c : coll_t) (ch : Collection)
    (oid : ghobject_t) (offset len size flags : Z) (bl : bufferlist) :
  coll_map s !! c = Some ch →
  len = Z.of_nat (length bl) →
  (memstore_debug_omit_block_device_write conf = true ∨ len = 0 →
     (∀ o, get_object ch oid = Some o →
           _write conf s c oid offset len bl flags = Ret (0, s)) ∧
     (get_object ch oid = None →
        ∃ o, objects ch !! o = None ∧
          _write conf s c oid offset len bl flags =
            Ret (0, set_coll c
                      {| cid := cid ch; bits := bits ch; exists_ := exists_ ch;
                         object_map := <[oid := o]> (object_map ch);
                         object_hash := <[oid := o]> (object_hash ch);
                         objects := <[o := Object_new]> (objects ch) |} s))) ∧
  (memstore_debug_omit_block_device_write conf = true →
     (∀ o, get_object ch oid = Some o → _truncate conf Object_truncate_ret s c oid size = (0, s)) ∧
     (get_object ch oid = None → _truncate conf Object_truncate_ret s c oid size = (- ENOENT, s))).
Proof.
  intros Hch Hlen. split.
  - intros Hskip.
    assert (bool_decide (0 < len) &&
            negb (memstore_debug_omit_block_device_write conf) = false) as Hcond.
    { destruct Hskip as [-> | ->]; [apply andb_false_r|done]. }
    unfold _write, _get_collection, get_or_create_object, get_object in *.
    rewrite Hch, bool_decide_eq_true_2 by done. simpl. split.
    + intros o Ho. rewrite Ho, Hcond. do 2 f_equal.
      destruct s; unfold set_coll; simpl in *. f_equal. by apply insert_id.
    + intros Ho. rewrite Ho, Hcond. eexists. split; [|done].
      apply not_elem_of_dom, is_fresh.
  - intros Hflag. unfold _truncate, _get_collection. rewrite Hch. split.
    + intros o Ho. by rewrite Ho, Hflag.
    + intros Ho. by rewrite Ho.
Qed.

(** ** The transaction interpreter *)

(** The loop goes through a prefix of operations none of which leaves a
    negative status and carries on behind it from the store they left; the
    status it carries is tested again only behind the loop. *)
Lemma run_ops_status (r r' : Z) (s : CyanStore) (rest : list decoded) :
  rest ≠ [] →
  run_ops conf Object_truncate_ret r s rest =
    run_ops conf Object_truncate_ret r' s rest.
Proof. by destruct rest. Qed.

Lemma apply_ops_app (s s1 : CyanStore) (pre l : list Op) :
  apply_ops conf Object_truncate_ret s pre = Some s1 →
  apply_ops conf Object_truncate_ret s (pre ++ l) =
    apply_ops conf Object_truncate_ret s1 l.
Proof.
  revert s. induction pre as [|op pre IH]; intros s Hpre; simpl in *.
  - by injection Hpre as ->.
  - destruct (do_op conf Object_truncate_ret s op) as [[r s']|]; [|done].
    case_bool_decide; [done|]. by apply IH.
Qed.

(** The loop over a prefix of that kind ends with a status that is not
    negative, in the store the prefix left. *)
Lemma run_ops_applied (r : Z) (s s1 : CyanStore) (pre : list Op) :
  0 ≤ r → apply_ops conf Object_truncate_ret s pre = Some s1 →
  ∃ r', 0 ≤ r' ∧
    run_ops conf Object_truncate_ret r s (Decoded <$> pre) = Left_loop r' s1.
Proof.
  revert r s. induction pre as [|op pre IH]; intros r s Hr Hpre; simpl in *.
  - injection Hpre as ->. by exists r.
  - destruct (do_op conf Object_truncate_ret s op) as [[r' s']|]; [|done].
    case_bool_decide; [done|]. apply IH; [lia|done].
Qed.

Lemma run_ops_prefix (s s1 : CyanStore) (pre : list Op) (rest : list decoded) :
  apply_ops conf Object_truncate_ret s pre = Some s1 → rest ≠ [] →
  run_ops conf Object_truncate_ret 0 s ((Decoded <$> pre) ++ rest) = run_ops conf Object_truncate_ret 0 s1 rest.
Proof.
  revert s. induction pre as [|op pre IH]; intros s Hpre; simpl in *.
  - by injection Hpre as ->.
  - destruct (do_op conf Object_truncate_ret s op) as [[r s']|]; [|done].
    case_bool_decide as Hr; [done|].
    intros Hrest. rewrite <-(IH s') by done.
    apply run_ops_status. by destruct pre.
Qed.

(** A failing operation ends the loop, and the failed assertion behind the
    loop ends the process: what follows in the stream is not looked at, and
    the store is the one the failing operation left. *)
Lemma do_transaction_negative (s s1 s2 : CyanStore) (t : Transaction)
    (pre : list Op) (op : Op) (post : list decoded) (r : Z) :
  apply_ops conf Object_truncate_ret s pre = Some s1 →
  ops t = (Decoded <$> pre) ++ Decoded op :: post →
  do_op conf Object_truncate_ret s1 op = Ret (r, s2) → r < 0 →
  do_transaction conf Object_truncate_ret s t = Fatal r s2.
Proof.
  intros Hpre Hops Hop Hr. unfold do_transaction.
  rewrite Hops, (run_ops_prefix _ _ _ _ Hpre) by done. simpl. rewrite Hop.
  by rewrite !bool_decide_eq_true_2.
Qed.

(** The status of an operation is 0 or the negated errno of its handler,
    or what [Object::truncate] returned. *)
Lemma do_op_status (s s' : CyanStore) (op : Op) (r : Z) :
  do_op conf Object_truncate_ret s op = Ret (r, s') →
  r = 0 ∨ r = - ENOENT ∨ r = - EEXIST ∨
  ∃ c oid size o, op = OP_TRUNCATE c oid size ∧ r = Object_truncate_ret size o.
Proof.
  destruct op; simpl;
    unfold _remove, _touch, _write, _truncate, _setattrs, _create_collection,
      _omap_set_values, _omap_set_header, _omap_rmkeys, _omap_rmkeyrange,
      _get_collection;
    intros Hop; repeat (case_match; simplify_eq);
    simplify_eq; eauto 10.
Qed.

(** Every stream is either a sequence of operations none of which leaves a
    negative status, or such a sequence followed by a first element that is
    an exception of the decoder, an operation that ends the process, or an
    operation with a negative status. *)
Lemma stream_cases (s : CyanStore) (i : list decoded) :
  (∃ pre s1, i = Decoded <$> pre ∧
             apply_ops conf Object_truncate_ret s pre = Some s1) ∨
  (∃ pre s1 x post,
     i = (Decoded <$> pre) ++ x :: post ∧
     apply_ops conf Object_truncate_ret s pre = Some s1 ∧
     (x = DecodeError ∨
      ∃ op, x = Decoded op ∧
        (do_op conf Object_truncate_ret s1 op = Abort ∨
         ∃ r s2, do_op conf Object_truncate_ret s1 op = Ret (r, s2) ∧ r < 0))).
Proof.
  revert s. induction i as [|[op|] i IH]; intros s.
  - left. by exists [], s.
  - destruct (do_op conf Object_truncate_ret s op) as [[r s']|] eqn:Hop.
    + destruct (decide (r < 0)) as [Hr|Hr].
      * right. exists [], s, (Decoded op), i. split; [done|]. split; [done|].
        right. exists op. split; [done|]. right. by exists r, s'.
      * destruct (IH s') as [(pre & s1 & -> & Hpre)|(pre & s1 & x & post & -> & Hpre & Hx)].
        -- left. exists (op :: pre), s1. split; [done|]. simpl.
           by rewrite Hop, bool_decide_eq_false_2.
        -- right. exists (op :: pre), s1, x, post. split; [done|].
           split; [|done]. simpl. by rewrite Hop, bool_decide_eq_false_2.
    + right. exists [], s, (Decoded op), i. split; [done|]. split; [done|].
      right. exists op. split; [done|]. by left.
  - right. exists [], s, DecodeError, i. split; [done|]. split; [done|]. by left.
Qed.

(** C2, as amended. [do_transaction] applies the operations in the order
    of the stream, and the status it tests is a negative one, in the loop
    and behind it. When no operation leaves a negative status it completes
    the registered completions and returns. The first operation whose
    status is negative ends the loop: the operations behind it are not
    applied, the store keeps what the operations before it and the failing
    one did, and the assertion behind the loop fails with that status. An
    operation whose status is not negative is gone past, and a positive
    status is one that [Object::truncate] handed to [_truncate]. A REMOVE
    leaves the status 0 also when [_remove] answered [-ENOENT]. An
    exception of the decoder is caught, makes the status [-EINVAL] and runs
    into the same assertion, with the store as the operations before it
    left it. An operation that runs into [abort()] or a failed [assert]
    ends the process at once. *)
Theorem do_transaction_apply_until_failure (s s1 : CyanStore) (t : Transaction)
    (pre : list Op) :
  apply_ops conf Object_truncate_ret s pre = Some s1 →
  (ops t = Decoded <$> pre →
   do_transaction conf Object_truncate_ret s t = Completed s1 (complete_all t)) ∧
  (∀ op post r s2,
     ops t = (Decoded <$> pre) ++ Decoded op :: post →
     do_op conf Object_truncate_ret s1 op = Ret (r, s2) → r < 0 →
     do_transaction conf Object_truncate_ret s t = Fatal r s2) ∧
  (∀ op r s2,
     do_op conf Object_truncate_ret s1 op = Ret (r, s2) → 0 ≤ r →
     apply_ops conf Object_truncate_ret s (pre ++ [op]) = Some s2) ∧
  (∀ op r s2,
     do_op conf Object_truncate_ret s1 op = Ret (r, s2) → 0 < r →
     ∃ c oid size o,
       op = OP_TRUNCATE c oid size ∧ r = Object_truncate_ret size o) ∧
  (∀ post,
     ops t = (Decoded <$> pre) ++ DecodeError :: post →
     do_transaction conf Object_truncate_ret s t = Fatal (- EINVAL) s1) ∧
  (∀ op post,
     ops t = (Decoded <$> pre) ++ Decoded op :: post →
     do_op conf Object_truncate_ret s1 op = Abort →
     do_transaction conf Object_truncate_ret s t = Aborted) ∧
  (∀ c oid, ∃ s2, do_op conf Object_truncate_ret s1 (OP_REMOVE c oid) = Ret (0, s2)).
Proof.
  intros Hpre. repeat split.
  - intros Hops. unfold do_transaction. rewrite Hops.
    destruct (run_ops_applied 0 s s1 pre) as (r & Hr & ->); [done..|].
    by rewrite bool_decide_eq_false_2 by lia.
  - intros op post r s2 Hops Hop Hr.
    by apply (do_transaction_negative s s1 s2 t pre op post r).
  - intros op r s2 Hop Hr. rewrite (apply_ops_app _ _ _ _ Hpre). simpl.
    by rewrite Hop, bool_decide_eq_false_2 by lia.
  - intros op r s2 Hop Hr.
    destruct (do_op_status _ _ _ _ Hop) as [?|[?|[?|?]]];
      [unfold ENOENT, EEXIST in *; lia..|done].
  - intros post Hops. unfold do_transaction.
    by rewrite Hops, (run_ops_prefix _ _ _ _ Hpre).
  - intros op post Hops Hop. unfold do_transaction.
    rewrite Hops, (run_ops_prefix _ _ _ _ Hpre) by done. simpl. by rewrite Hop.
  - intros c oid. simpl. destruct (_remove s1 c oid) as [r s2] eqn:Hremove.
    eexists. f_equal. f_equal.
    unfold _remove in Hremove. repeat (case_match; simplify_eq); try done.
Qed.

(** ** The byte counter in a transaction *)

(** Every operation keeps the store consistent. *)
Lemma do_op_wf (s s' : CyanStore) (op : Op) (r : Z) :
  Store_wf s → do_op conf Object_truncate_ret s op = Ret (r, s') → Store_wf s'.
Proof.
  intros Hs Hop. pose proof Hs as (Hcolls & Hnew & Hused).
  destruct op; simpl in Hop;
    unfold _remove, _touch, _write, _truncate, _setattrs, _create_collection,
      _omap_set_values, _omap_set_header, _omap_rmkeys, _omap_rmkeyrange,
      _get_collection, get_object in Hop.
  - (* OP_NOP *) by simplify_eq.
  - (* OP_REMOVE *)
    destruct (coll_map s !! c) as [ch|] eqn:Hch; [|by simplify_eq].
    destruct (object_hash ch !! oid) as [i|] eqn:Hi; [|by simplify_eq].
    simplify_eq. destruct (Hcolls _ _ Hch) as (Hsame & Hinj & Halloc).
    eapply (Store_wf_update s _ c ch); [done..| | |done|]; simpl; [|done|].
    + split; [by rewrite Hsame|]. split; simpl.
      * intros oid1 oid2 o [_ ?]%lookup_delete_Some [_ ?]%lookup_delete_Some.
        by eapply Hinj.
      * intros oid' o [_ ?]%lookup_delete_Some. by eapply Halloc.
    + unfold live_bytes, deref. simpl.
      rewrite (map_sum_delete _ _ oid i) by (by rewrite Hsame).
      f_equal. lia.
  - (* OP_TOUCH *)
    destruct (coll_map s !! c) as [ch|] eqn:Hch; [|by simplify_eq].
    simplify_eq. by apply Store_wf_get_or_create.
  - (* OP_WRITE *)
    case_match; [done|].
    destruct (coll_map s !! c) as [ch|] eqn:Hch; [|by simplify_eq].
    destruct (get_or_create_object_wf ch oid (Hcolls _ _ Hch)) as (Hwf & Ho & Hbytes).
    destruct (get_or_create_object ch oid) as [o ch1] eqn:Hcreate. simpl in *.
    case_match; simplify_eq.
    + destruct (live_bytes_store_object ch1 oid o
                  (Object_write off bl (deref ch1 o)) Hwf Ho) as [Hwf' Hbytes'].
      eapply (Store_wf_update s _ c ch); [done..|]. simpl.
      rewrite Hbytes', Hbytes. unfold deref at 1. simpl.
      rewrite lookup_total_insert_eq. solve_wrap.
    + pose proof (Store_wf_get_or_create s c ch oid Hs Hch) as Hs'.
      by rewrite Hcreate in Hs'.
  - (* OP_TRUNCATE *)
    destruct (coll_map s !! c) as [ch|] eqn:Hch; [|by simplify_eq].
    destruct (object_hash ch !! oid) as [o|] eqn:Ho; [|by simplify_eq].
    case_match; simplify_eq; [done|].
    destruct (Hcolls _ _ Hch) as (Hsame & ?).
    destruct (live_bytes_store_object ch oid o
                (Object_truncate off (deref ch o)) (Hcolls _ _ Hch))
      as [Hwf' Hbytes']; [by rewrite Hsame|].
    eapply (Store_wf_update s _ c ch); [done..|]. simpl.
    rewrite Hbytes'. unfold deref at 1. simpl.
    rewrite lookup_total_insert_eq. solve_wrap.
  - (* OP_SETATTR *)
    destruct (coll_map s !! c) as [ch|] eqn:Hch; [|by simplify_eq].
    destruct (object_hash ch !! oid) as [o|] eqn:Ho; [|by simplify_eq].
    simplify_eq. destruct (Hcolls _ _ Hch) as (Hsame & ?).
    eapply (Store_wf_store_same_size s c ch oid); eauto. by rewrite Hsame.
  - (* OP_MKCOLL *)
    destruct (coll_map s !! c) as [ch|] eqn:Hch; [by simplify_eq|].
    destruct (new_coll_map s !! c) as [p|] eqn:Hp; [|done]. simplify_eq.
    destruct (Hnew _ _ Hp) as [Hmap Hhash]. split; [|split]; simpl.
    + intros c' ch'. rewrite lookup_insert_Some.
      intros [[_ <-]|[_ ?]]; [|by eapply Hcolls].
      split; [simpl; congruence|]. split; intros *; simpl; by rewrite Hmap, lookup_empty.
    + intros c' ch' [_ ?]%lookup_delete_Some. by eapply Hnew.
    + unfold total_live_bytes in *. simpl.
      rewrite map_sum_insert_None by done.
      unfold live_bytes at 1. simpl. by rewrite Hmap, map_sum_empty.
  - (* OP_OMAP_SETKEYS *)
    destruct (coll_map s !! c) as [ch|] eqn:Hch; [|by simplify_eq].
    destruct (get_or_create_object_wf ch oid (Hcolls _ _ Hch)) as (Hwf & Ho & Hbytes).
    destruct (get_or_create_object ch oid) as [o ch1] eqn:Hcreate. simpl in *.
    simplify_eq. by eapply (Store_wf_store_same_size s c ch1 oid).
  - (* OP_OMAP_SETHEADER *)
    destruct (coll_map s !! c) as [ch|] eqn:Hch; [|by simplify_eq].
    destruct (get_or_create_object_wf ch oid (Hcolls _ _ Hch)) as (Hwf & Ho & Hbytes).
    destruct (get_or_create_object ch oid) as [o ch1] eqn:Hcreate. simpl in *.
    simplify_eq. by eapply (Store_wf_store_same_size s c ch1 oid).
  - (* OP_OMAP_RMKEYS *)
    destruct (coll_map s !! c) as [ch|] eqn:Hch; [|by simplify_eq].
    destruct (get_or_create_object_wf ch oid (Hcolls _ _ Hch)) as (Hwf & Ho & Hbytes).
    destruct (get_or_create_object ch oid) as [o ch1] eqn:Hcreate. simpl in *.
    simplify_eq. by eapply (Store_wf_store_same_size s c ch1 oid).
  - (* OP_OMAP_RMKEYRANGE *)
    destruct (coll_map s !! c) as [ch|] eqn:Hch; [|by simplify_eq].
    destruct (get_or_create_object_wf ch oid (Hcolls _ _ Hch)) as (Hwf & Ho & Hbytes).
    destruct (get_or_create_object ch oid) as [o ch1] eqn:Hcreate. simpl in *.
    simplify_eq. by eapply (Store_wf_store_same_size s c ch1 oid).
  - (* OP_COLL_HINT *) by simplify_eq.
  - (* OP_OTHER *) done.
Qed.

Lemma run_ops_wf (r : Z) (s : CyanStore) (i : list decoded) :
  Store_wf s →
  match run_ops conf Object_truncate_ret r s i with
  | Left_loop _ s' | Caught s' => Store_wf s'
  | Crashed => True
  end.
Proof.
  revert r s. induction i as [|[op|] i IH]; intros r s Hs; simpl; [done| |done].
  destruct (do_op conf Object_truncate_ret s op) as [[r' s']|] eqn:Hop; [|done].
  pose proof (do_op_wf _ _ _ _ Hs Hop). case_bool_decide; [done|by apply IH].
Qed.

Lemma do_transaction_wf (s : CyanStore) (t : Transaction) :
  Store_wf s →
  match do_transaction conf Object_truncate_ret s t with
  | Completed s' _ | Fatal _ s' => Store_wf s'
  | Aborted => True
  end.
Proof.
  intros Hs. unfold do_transaction.
  pose proof (run_ops_wf 0 s (ops t) Hs) as Hrun.
  destruct (run_ops conf Object_truncate_ret 0 s (ops t)); [by case_bool_decide|done..].
Qed.

Lemma CyanStore_new_wf (zero : uuid_d) :
  Store_wf (CyanStore_new zero : CyanStore).
Proof.
  split; [|split]; simpl; try (intros *; by rewrite lookup_empty).
  unfold total_live_bytes. simpl. by rewrite map_sum_empty.
Qed.

Lemma create_new_collection_wf (s : CyanStore) (c : coll_t) :
  Store_wf s → Store_wf (create_new_collection s c).2.
Proof.
  intros (Hcolls & Hnew & Hused). split; [done|]. split; [|done]. simpl.
  intros c' ch. rewrite lookup_insert_Some. intros [[_ <-]|[_ ?]]; [done|].
  by eapply Hnew.
Qed.

Lemma run_calls_wf (s0 s : CyanStore) (calls : list call) :
  Store_wf s0 → run_calls conf Object_truncate_ret s0 calls = Some s → Store_wf s.
Proof.
  revert s0. induction calls as [|[c|t] calls IH]; intros s0 Hs0 Hrun; simpl in Hrun.
  - by simplify_eq.
  - eapply IH; [|done]. by apply create_new_collection_wf.
  - pose proof (do_transaction_wf s0 t Hs0) as Ht.
    destruct (do_transaction conf Object_truncate_ret s0 t); simplify_eq; [by eapply IH|done].
Qed.

Lemma total_live_bytes_nonneg (s : CyanStore) : 0 ≤ total_live_bytes s.
Proof.
  apply map_sum_nonneg. intros c ch _. apply map_sum_nonneg.
  intros oid o _. unfold get_size. lia.
Qed.

(** C1. From a consistent store, and so from the store as it is
    constructed, after any run of transactions (and of the creation of
    collections they commit) [used_bytes] is the sum of the content lengths
    of the live objects of all collections: as a 64-bit number, and so the
    sum itself as long as that fits 64 bits. The store stays consistent
    also when a transaction ends in the failed assertion. *)
Theorem used_bytes_is_sum (s0 s : CyanStore) (calls : list call) :
  Store_wf s0 → run_calls conf Object_truncate_ret s0 calls = Some s →
  Store_wf s ∧
  used_bytes s = wrap64 (total_live_bytes s) ∧
  (total_live_bytes s < two64 → used_bytes s = total_live_bytes s).
Proof.
  intros Hs0 Hrun. pose proof (run_calls_wf _ _ _ Hs0 Hrun) as Hs.
  split; [done|]. destruct Hs as (_ & _ & Hused). split; [done|].
  intros Hfit. pose proof (total_live_bytes_nonneg s). rewrite Hused.
  solve_wrap.
Qed.
End transactions.

Section mkfs_facts.
Context {uuid_eq : EqDecision uuid_d}.
Context (uuid_zero : uuid_d).
Context (uuid_to_string : uuid_d → string).
Context (uuid_parse : string → option uuid_d).

(** ** mkfs and the filesystem identifier *)

Lemma trim_right_newline (v : string) :
  no_space v = true → trim_right (v +:+ String "010"%char EmptyString) = v.
Proof.
  induction v as [|a v IH]; [done|]. simpl.
  intros [Ha Hv]%andb_true_iff. rewrite (IH Hv).
  destruct v; [|done]. by destruct (isspace a).
Qed.

Lemma substring_all (v : string) (n : nat) :
  (String.length v ≤ n)%nat → String.substring 0 n v = v.
Proof.
  revert n. induction v as [|a v IH]; intros [|n] Hn; simpl in *; try done; try lia.
  f_equal. apply IH. lia.
Qed.

Lemma length_append_newline (v : string) :
  String.length (v +:+ String "010"%char EmptyString) = S (String.length v).
Proof. induction v as [|a v IH]; [done|]. simpl. by f_equal. Qed.

(** A value without white space that fits the buffer is read back as it
    was written. *)
Lemma read_meta_write_meta (d : Disk) (key v : string) :
  no_space v = true → (String.length v < 4096)%nat →
  ∃ r, 0 < r ∧ read_meta (write_meta d key v) key = (r, v).
Proof.
  intros Hv Hlen. unfold read_meta, safe_read_file, write_meta. simpl.
  rewrite lookup_insert_eq.
  rewrite substring_all by (rewrite length_append_newline; lia).
  rewrite length_append_newline, bool_decide_eq_true_2 by lia.
  rewrite trim_right_newline by done. eexists. split; [|done]. lia.
Qed.

(** What a call of mkfs does when an fsid is persisted: it succeeds, and
    adopts the identifier, exactly when the persisted text parses to the
    identifier supplied. *)
Lemma mkfs_present (s : CyanStore) (d : Disk) (new_osd_fsid random : uuid_d)
    (r : Z) (fsid_str : string) :
  read_meta d "fsid" = (r, fsid_str) → 0 ≤ r →
  (uuid_parse fsid_str = Some new_osd_fsid →
   mkfs uuid_zero uuid_to_string uuid_parse s d new_osd_fsid random =
     make_ready_future
       (set_osd_fsid new_osd_fsid s,
        write_meta {| meta := meta d; collections_file := Some ∅ |}
          "type" "memstore")) ∧
  (uuid_parse fsid_str ≠ Some new_osd_fsid →
   ∃ what, mkfs uuid_zero uuid_to_string uuid_parse s d new_osd_fsid random = make_exception_future (runtime_error what)).
Proof.
  intros Hread Hr. unfold mkfs. rewrite Hread.
  rewrite !bool_decide_eq_false_2 by (unfold ENOENT; lia). split.
  - intros ->. by rewrite bool_decide_eq_false_2 by (by intros []).
  - intros Hne. destruct (uuid_parse fsid_str) as [fsid|]; [|by eexists].
    rewrite bool_decide_eq_true_2 by congruence. by eexists.
Qed.

(** C8, as amended. Without a persisted fsid, mkfs adopts the identifier
    supplied, or the generated one when the identifier supplied is zero,
    and persists it. With a persisted fsid, mkfs succeeds exactly when the
    persisted text parses to the identifier supplied, and otherwise
    resolves to [runtime_error]. So a second mkfs succeeds exactly when it
    supplies the identifier the first one persisted: the same identifier
    again when that is not zero, and the generated identifier, not zero
    again, after a first call with zero. The rendering of an identifier is
    taken to be free of white space, shorter than the read buffer, and
    parsed back to the identifier. *)
Theorem mkfs_fsid_check (s : CyanStore) (d : Disk)
    (new_osd_fsid random : uuid_d) :
  (∀ u, uuid_parse (uuid_to_string u) = Some u) →
  (∀ u, no_space (uuid_to_string u) = true) →
  (∀ u, (String.length (uuid_to_string u) < 4096)%nat) →
  let fsid := if bool_decide (new_osd_fsid = uuid_zero)
              then random else new_osd_fsid in
  (meta d !! "fsid" = None →
   ∃ d1,
     mkfs uuid_zero uuid_to_string uuid_parse s d new_osd_fsid random =
       make_ready_future (set_osd_fsid fsid s, d1) ∧
     meta d1 !! "fsid" =
       Some (File (uuid_to_string fsid +:+ String "010"%char EmptyString)) ∧
     ∀ second random',
       (second = fsid →
        ∃ d2, mkfs uuid_zero uuid_to_string uuid_parse (set_osd_fsid fsid s) d1 second random' =
                make_ready_future (set_osd_fsid fsid (set_osd_fsid fsid s), d2)) ∧
       (second ≠ fsid →
        ∃ what, mkfs uuid_zero uuid_to_string uuid_parse (set_osd_fsid fsid s) d1 second random' =
                  make_exception_future (runtime_error what))) ∧
  (∀ content, meta d !! "fsid" = Some (File content) →
     (uuid_parse (read_meta d "fsid").2 = Some new_osd_fsid →
      ∃ d1, mkfs uuid_zero uuid_to_string uuid_parse s d new_osd_fsid random =
              make_ready_future (set_osd_fsid new_osd_fsid s, d1)) ∧
     (uuid_parse (read_meta d "fsid").2 ≠ Some new_osd_fsid →
      ∃ what, mkfs uuid_zero uuid_to_string uuid_parse s d new_osd_fsid random =
                make_exception_future (runtime_error what))).
Proof.
  intros Hparse Hspace Hlen fsid. split.
  - intros Habsent.
    assert (read_meta d "fsid" = (- ENOENT, EmptyString)) as Hread.
    { unfold read_meta, safe_read_file. by rewrite Habsent. }
    set (d1 := write_meta
                 ({| meta := meta (write_meta d "fsid" (uuid_to_string fsid));
                     collections_file := Some ∅ |} : Disk) "type" "memstore").
    exists d1. split; [|split].
    + unfold mkfs. by rewrite Hread.
    + unfold d1, write_meta. simpl.
      rewrite lookup_insert_ne by done. by rewrite lookup_insert_eq.
    + intros second random'.
      destruct (read_meta_write_meta d "fsid" (uuid_to_string fsid)
                  (Hspace fsid) (Hlen fsid)) as (r & Hr & Hback).
      assert (read_meta d1 "fsid" = (r, uuid_to_string fsid)) as Hread1.
      { rewrite <-Hback. unfold read_meta, safe_read_file, d1, write_meta. simpl.
        by rewrite lookup_insert_ne. }
      destruct (mkfs_present (set_osd_fsid fsid s) d1 second random' r
                  (uuid_to_string fsid) Hread1) as [Hok Hfail]; [lia|].
      rewrite Hparse in Hok, Hfail. split.
      * intros ->. eexists. by apply Hok.
      * intros Hne. apply Hfail. congruence.
  - intros content Hpresent.
    destruct (read_meta d "fsid") as [r fsid_str] eqn:Hread. simpl.
    assert (0 ≤ r).
    { unfold read_meta, safe_read_file in Hread. rewrite Hpresent in Hread.
      case_bool_decide; simplify_eq; lia. }
    destruct (mkfs_present s d new_osd_fsid random r fsid_str Hread) as [Hok Hfail];
      [done|].
    split; [|done]. intros Hp. eexists. by apply Hok.
Qed.
End mkfs_facts.

(** ** Collections: pending and committed *)

(** X1. [list_collections] names every committed collection once, and a
    collection is named exactly when [open_collection] hands back a
    reference that is not null. *)
Theorem list_collections_open (s : CyanStore) :
  NoDup (list_collections s) ∧
  ∀ c, c ∈ list_collections s ↔
       ∃ ch, open_collection s c = make_ready_future (Some ch).
Proof.
  split; [apply NoDup_fst_map_to_list|]. intros c.
  unfold list_collections, open_collection, _get_collection.
  rewrite list_elem_of_fmap. split.
  - intros ([c' ch] & -> & Hch%elem_of_map_to_list). exists ch. simpl. by rewrite Hch.
  - intros (ch & Hch). exists (c, ch). split; [done|].
    apply elem_of_map_to_list. congruence.
Qed.

Section collections.
Context (conf : Config).
Context (Object_truncate_ret : Z → Object → Z).

End collections.

(** ** Folds over the keys of a map *)

(** Entering, key by key, the values that [src] holds at the keys of [l],
    whatever the target held there. *)
Lemma foldl_insert_found {V : Type} (src : gmap string V) (l : list string)
    (x : gmap string V) :
  foldl (λ x p, match src !! p with
                | Some v => <[p := v]> x
                | None => x
                end) x l =
    filter (λ kv, kv.1 ∈ l) src ∪ x.
Proof.
  revert x. induction l as [|p l IH]; intros x; simpl.
  - rewrite map_filter_nothing, (left_id_L ∅ (∪)); [done|].
    intros ?? _ []%elem_of_nil.
  - rewrite IH. apply map_eq. intros k.
    rewrite !lookup_union, !map_lookup_filter. simpl.
    destruct (decide (k = p)) as [->|Hkp].
    + destruct (src !! p) as [v|] eqn:Hp; simpl.
      * rewrite lookup_insert_eq, (option_guard_True (p ∈ p :: l)) by left.
        destruct (x !! p); case_guard; done.
      * by destruct (x !! p).
    + assert (src !! k ≫= (λ v, guard (k ∈ l);; Some v) =
              src !! k ≫= (λ v, guard (k ∈ p :: l);; Some v)) as ->.
      { destruct (src !! k) as [w|]; simpl; [|done].
        destruct (decide (k ∈ l)).
        - rewrite !option_guard_True; [done|by right|done].
        - rewrite !option_guard_False; [done| |done].
          rewrite elem_of_cons. tauto. }
      destruct (src !! p); [by rewrite lookup_insert_ne|done].
Qed.

(** Entering, key by key, the values that [src] holds at the keys of [l]
    where the target holds nothing yet. *)
Lemma foldl_insert_new (src : gmap string bufferlist) (l : list string)
    (m : gmap string bufferlist) :
  foldl (λ m k, match src !! k with
                | Some v => map_insert_new k v m
                | None => m
                end) m l =
    m ∪ filter (λ kv, kv.1 ∈ l) src.
Proof.
  revert m. induction l as [|p l IH]; intros m; simpl.
  - rewrite map_filter_nothing, (right_id_L ∅ (∪)); [done|].
    intros ?? _ []%elem_of_nil.
  - rewrite IH. apply map_eq. intros k.
    rewrite !lookup_union, !map_lookup_filter. simpl.
    destruct (decide (k = p)) as [->|Hkp].
    + unfold map_insert_new.
      destruct (src !! p) as [v|] eqn:Hp; simpl.
      * rewrite (option_guard_True (p ∈ p :: l)) by left.
        destruct (m !! p) as [w|] eqn:Hm.
        -- rewrite Hm. by case_guard.
        -- rewrite lookup_insert_eq. by case_guard.
      * done.
    + assert (src !! k ≫= (λ v, guard (k ∈ l);; Some v) =
              src !! k ≫= (λ v, guard (k ∈ p :: l);; Some v)) as ->.
      { destruct (src !! k) as [w|]; simpl; [|done].
        destruct (decide (k ∈ l)).
        - rewrite !option_guard_True; [done|by right|done].
        - rewrite !option_guard_False; [done| |done].
          rewrite elem_of_cons. tauto. }
      unfold map_insert_new.
      destruct (src !! p); [|done].
      destruct (m !! p); [done|]. by rewrite lookup_insert_ne.
Qed.

(** Erasing the keys of [l] one after the other. *)
Lemma foldl_delete_keys {V : Type} (l : list string) (m : gmap string V) :
  foldl (λ m k, delete k m) m l = filter (λ kv, kv.1 ∉ l) m.
Proof.
  revert m. induction l as [|p l IH]; intros m; simpl.
  - symmetry. apply map_filter_id. intros ?? _. apply not_elem_of_nil.
  - rewrite IH. apply map_eq. intros k. rewrite !map_lookup_filter. simpl.
    destruct (decide (k = p)) as [->|Hkp].
    + rewrite lookup_delete_eq. simpl. destruct (m !! p); simpl; [|done].
      rewrite option_guard_False; [done|]. intros Hn. apply Hn. left.
    + rewrite lookup_delete_ne by done. destruct (m !! k); simpl; [|done].
      destruct (decide (k ∈ l)).
      * rewrite !option_guard_False; [done| |]; rewrite ?elem_of_cons; tauto.
      * rewrite !option_guard_True; [done| |done]. rewrite elem_of_cons. tauto.
Qed.

Section content.
(** What [Object::read] does with a window that reaches beyond the
    content: the properties hold whatever it is. *)
Context (Object_read_beyond : Z → Z → bufferlist → Z * bufferlist).
Local Abbreviation read := (read Object_read_beyond).

(** [read] looks at the collection's mark, at the pointer the lookup index
    holds for the object, and at the content behind it. *)
Lemma read_ext (c c' : Collection) (oid : ghobject_t) (offset len : Z) :
  exists_ c' = exists_ c → get_object c' oid = get_object c oid →
  (∀ o, get_object c oid = Some o → data (deref c' o) = data (deref c o)) →
  read c' oid offset len = read c oid offset len.
Proof.
  intros Hex Hget Hdata. unfold read. rewrite Hex, Hget.
  destruct (exists_ c); simpl; [|done].
  destruct (get_object c oid) as [o|]; [|done].
  unfold Object_read, get_size. by rewrite (Hdata o eq_refl).
Qed.

(** What an assignment through a pointer leaves behind the pointer. *)
Lemma deref_store_object (c : Collection) (o : loc) (v : Object) :
  deref (store_object o v c) o = v.
Proof. unfold deref. simpl. apply lookup_total_insert_eq. Qed.

(** The pointer that [get_or_create_object] returns is the one the lookup
    index then holds for the object; behind it lies the Object that was
    there, or an empty one. *)
Lemma get_or_create_object_spec (ch : Collection) (oid : ghobject_t) :
  get_object (get_or_create_object ch oid).2 oid =
    Some (get_or_create_object ch oid).1 ∧
  deref (get_or_create_object ch oid).2 (get_or_create_object ch oid).1 =
    match get_object ch oid with
    | Some o => deref ch o
    | None => Object_new
    end.
Proof.
  unfold get_or_create_object, get_object.
  destruct (object_hash ch !! oid) as [o|] eqn:Ho; simpl; [done|].
  rewrite lookup_insert_eq. unfold deref. simpl.
  by rewrite lookup_total_insert_eq.
Qed.

(** ** Attributes *)

(** X3. [_setattrs] on an object that exists returns 0 and enters every pair
    of [aset] into the object's attributes, over what was there under the
    same name: afterwards [get_attrs] yields the old attributes overlaid
    with [aset], [get_attr] the new value of a name in [aset] and what it
    yielded before for any other name. The attributes of the other objects
    of the collection and the result of every [read] are as before. On an
    object that is absent [_setattrs] answers [-ENOENT] and the store is as
    before: the object is not created. *)
Theorem setattrs_get_attr (s : CyanStore) (c : coll_t) (ch : Collection)
    (oid : ghobject_t) (aset : gmap string bufferlist) :
  coll_map s !! c = Some ch → Collection_wf ch →
  (∀ o, get_object ch oid = Some o →
     ∃ ch',
       _setattrs s c oid aset = (0, set_coll c ch' s) ∧
       get_attrs ch' oid = make_ready_future (aset ∪ xattr (deref ch o)) ∧
       (∀ name, get_attr ch' oid name =
                match aset !! name with
                | Some v => make_ready_future v
                | None => get_attr ch oid name
                end) ∧
       (∀ oid', oid' ≠ oid →
          get_attrs ch' oid' = get_attrs ch oid' ∧
          ∀ name, get_attr ch' oid' name = get_attr ch oid' name) ∧
       (∀ oid' offset len, read ch' oid' offset len = read ch oid' offset len)) ∧
  (get_object ch oid = None → _setattrs s c oid aset = (- ENOENT, s)).
Proof.
  intros Hch (Hsame & Hinj & Halloc). split.
  2:{ intros Ho. unfold _setattrs, _get_collection. by rewrite Hch, Ho. }
  intros o Ho. eexists. split.
  { unfold _setattrs, _get_collection. rewrite Hch, Ho. reflexivity. }
  rewrite foldl_insert_found.
  rewrite (map_filter_id _ aset).
  2:{ intros k v Hk. simpl. apply elem_of_ordered_keys. by rewrite Hk. }
  set (ch' := store_object o _ ch).
  assert (∀ oid', get_object ch' oid' = get_object ch oid') as Hget by done.
  assert (deref ch' o = set_xattr (aset ∪ xattr (deref ch o)) (deref ch o)) as Hnew.
  { unfold ch', deref. simpl. by rewrite lookup_total_insert_eq. }
  assert (∀ oid' o', oid' ≠ oid → get_object ch oid' = Some o' →
                     deref ch' o' = deref ch o') as Hother.
  { intros oid' o' Hne Ho'. unfold ch', deref. simpl.
    rewrite lookup_total_insert_ne; [done|]. intros <-.
    apply Hne. unfold get_object in *. rewrite <-Hsame in Ho, Ho'.
    by eapply Hinj. }
  split; [|split; [|split]].
  - unfold get_attrs. by rewrite Hget, Ho, Hnew.
  - intros name. unfold get_attr. rewrite Hget, Ho, Hnew. simpl.
    rewrite lookup_union.
    by destruct (aset !! name), (xattr (deref ch o) !! name).
  - intros oid' Hne. unfold get_attrs, get_attr. rewrite Hget.
    destruct (get_object ch oid') as [o'|] eqn:Ho'; [|done].
    by rewrite (Hother oid' o' Hne Ho').
  - intros oid' offset len. apply read_ext; [done|apply Hget|].
    intros o' Ho'. destruct (decide (oid' = oid)) as [->|Hne].
    + assert (o' = o) as -> by congruence. by rewrite Hnew.
    + by rewrite (Hother oid' o' Hne Ho').
Qed.

(** ** Updates of the omap *)

(** X4. [_omap_set_values] on a committed collection returns 0 and leaves
    the object, created when it was absent, with the omap it had and, for
    the keys it did not hold, the pairs of [aset]: a key that was present
    keeps its value. *)
Theorem omap_set_values_keeps_existing (s : CyanStore) (c : coll_t)
    (ch : Collection) (oid : ghobject_t) (aset : gmap string bufferlist) :
  coll_map s !! c = Some ch →
  let old := match get_object ch oid with
             | Some o => omap (deref ch o)
             | None => ∅
             end in
  ∃ ch' o,
    _omap_set_values s c oid aset = (0, set_coll c ch' s) ∧
    get_object ch' oid = Some o ∧
    omap (deref ch' o) = old ∪ aset ∧
    (∀ k, omap (deref ch' o) !! k =
          match old !! k with
          | Some v => Some v
          | None => aset !! k
          end) ∧
    xattr (deref ch' o) =
      match get_object ch oid with Some o => xattr (deref ch o) | None => ∅ end ∧
    data (deref ch' o) =
      match get_object ch oid with Some o => data (deref ch o) | None => [] end.
Proof.
  intros Hch old.
  assert (∀ m, m ∪ filter (λ kv, kv.1 ∈ ordered_keys string_le aset) aset =
               m ∪ aset) as Hall.
  { intros m. f_equal. apply map_filter_id. intros k v Hk. simpl.
    apply elem_of_ordered_keys. by rewrite Hk. }
  assert (∀ (m : gmap string bufferlist) k,
            (m ∪ aset) !! k =
            match m !! k with Some v => Some v | None => aset !! k end) as Hlookup.
  { intros m k. rewrite lookup_union. destruct (m !! k); simpl.
    - by destruct (aset !! k).
    - by rewrite (left_id_L None (∪)). }
  unfold _omap_set_values, _get_collection. rewrite Hch.
  destruct (get_or_create_object_spec ch oid) as [Hget Hderef].
  destruct (get_or_create_object ch oid) as [o ch1]. simpl in Hget, Hderef.
  eexists _, o. split; [reflexivity|]. split; [done|].
  rewrite deref_store_object. simpl.
  rewrite foldl_insert_new, Hall, Hderef.
  unfold old. by destruct (get_object ch oid).
Qed.

(** X5. [_omap_rmkeys] on a committed collection returns 0 and leaves the
    object, created when it was absent, with the omap entries whose key is
    not in [aset]; a key of [aset] that the omap does not hold is passed
    over. A query for the keys of [aset] then finds nothing. *)
Theorem omap_rmkeys_removes (s : CyanStore) (c : coll_t)
    (ch : Collection) (oid : ghobject_t) (aset : gset string) :
  coll_map s !! c = Some ch →
  let old := match get_object ch oid with
             | Some o => omap (deref ch o)
             | None => ∅
             end in
  ∃ ch' o,
    _omap_rmkeys s c oid aset = (0, set_coll c ch' s) ∧
    get_object ch' oid = Some o ∧
    omap (deref ch' o) = filter (λ kv, kv.1 ∉ aset) old ∧
    (∀ k, omap (deref ch' o) !! k =
          if bool_decide (k ∈ aset) then None else old !! k) ∧
    omap_get_values_keys ch' oid aset = make_ready_future ∅.
Proof.
  intros Hch old.
  assert (∀ m : gmap string bufferlist,
            foldl (λ m k, delete k m) m (merge_sort string_le (elements aset)) =
            filter (λ kv, kv.1 ∉ aset) m) as Hfold.
  { intros m. rewrite foldl_delete_keys. apply map_filter_ext. intros k v _.
    simpl. by rewrite merge_sort_Permutation, elem_of_elements. }
  assert (∀ (m : gmap string bufferlist) k,
            filter (λ kv, kv.1 ∉ aset) m !! k =
            if bool_decide (k ∈ aset) then None else m !! k) as Hlookup.
  { intros m k. rewrite map_lookup_filter. simpl.
    destruct (m !! k); simpl; [|by case_bool_decide].
    case_bool_decide; [by rewrite option_guard_False by tauto|].
    by rewrite option_guard_True. }
  assert (∀ m : gmap string bufferlist,
            foldl (λ values key,
                     match filter (λ kv, kv.1 ∉ aset) m !! key with
                     | Some v => <[key := v]> values
                     | None => values
                     end) (∅ : gmap string bufferlist)
              (merge_sort string_le (elements aset)) = ∅) as Hquery.
  { intros m. rewrite foldl_insert_found, (right_id_L ∅ (∪)).
    apply map_filter_nothing. intros k v Hk. simpl.
    rewrite Hlookup in Hk. case_bool_decide; [done|].
    by rewrite merge_sort_Permutation, elem_of_elements. }
  unfold _omap_rmkeys, _get_collection. rewrite Hch.
  destruct (get_or_create_object_spec ch oid) as [Hget Hderef].
  destruct (get_or_create_object ch oid) as [o ch1]. simpl in Hget, Hderef.
  eexists _, o. split; [reflexivity|]. split; [done|].
  unfold omap_get_values_keys.
  replace (get_object (store_object o _ ch1) oid) with (Some o) by done.
  rewrite deref_store_object. simpl. rewrite Hfold, Hquery, Hderef.
  unfold old. by destruct (get_object ch oid).
Qed.

(** X6. The query by keys yields the omap entries whose key is among [keys];
    a key that the omap does not hold is passed over. For an object that is
    absent the call throws [runtime_error]. *)
Theorem omap_get_values_keys_restrict (c : Collection) (oid : ghobject_t)
    (keys : gset string) :
  match get_object c oid with
  | Some o =>
      ∃ values,
        omap_get_values_keys c oid keys = make_ready_future values ∧
        values = filter (λ kv, kv.1 ∈ keys) (omap (deref c o)) ∧
        ∀ k, values !! k =
             if bool_decide (k ∈ keys) then omap (deref c o) !! k else None
  | None =>
      omap_get_values_keys c oid keys =
        throws (runtime_error "object does not exist")
  end.
Proof.
  unfold omap_get_values_keys. destruct (get_object c oid) as [o|]; [|done].
  eexists. split; [done|].
  assert (∀ values, values = filter (λ kv, kv.1 ∈ keys) (omap (deref c o)) →
                    ∀ k, values !! k =
                         if bool_decide (k ∈ keys) then omap (deref c o) !! k
                         else None) as Hlookup.
  { intros ? -> k. rewrite map_lookup_filter. simpl.
    destruct (omap (deref c o) !! k); simpl; [|by case_bool_decide].
    case_bool_decide; [by rewrite option_guard_True|].
    by rewrite option_guard_False. }
  split; [|apply Hlookup];
    rewrite foldl_insert_found, (right_id_L ∅ (∪));
    apply map_filter_ext; intros k v _; simpl;
    by rewrite merge_sort_Permutation, elem_of_elements.
Qed.

(** An Object that is created is not seen by the reads of the objects
    that were there. *)
Lemma get_or_create_object_read (ch : Collection) (oid oid' : ghobject_t)
    (offset len : Z) :
  is_Some (get_object ch oid') →
  read (get_or_create_object ch oid).2 oid' offset len = read ch oid' offset len.
Proof.
  intros [o' Ho']. unfold get_or_create_object.
  destruct (object_hash ch !! oid) as [o|] eqn:Ho; [done|]. simpl.
  pose proof (is_fresh (dom (objects ch))) as Hfresh.
  apply not_elem_of_dom in Hfresh.
  assert (oid' ≠ oid) as Hne by (intros ->; unfold get_object in Ho'; congruence).
  apply read_ext; [done|..].
  - unfold get_object. simpl. by rewrite lookup_insert_ne.
  - intros o'' _. unfold deref. simpl.
    destruct (decide (o'' = fresh (dom (objects ch)))) as [->|Hne'].
    + by rewrite lookup_total_insert_eq, lookup_total_alt, Hfresh.
    + by rewrite lookup_total_insert_ne.
Qed.

(** An assignment that keeps the content of the Object is not seen by
    any read. *)
Lemma store_object_read (c : Collection) (o : loc) (v : Object)
    (oid : ghobject_t) (offset len : Z) :
  data v = data (deref c o) →
  read (store_object o v c) oid offset len = read c oid offset len.
Proof.
  intros Hdata. apply read_ext; [done..|]. intros o' _.
  destruct (decide (o' = o)) as [->|Hne]; [by rewrite deref_store_object|].
  unfold deref. simpl. by rewrite lookup_total_insert_ne.
Qed.

Section object_operations.
Context (conf : Config).
Context (Object_truncate_ret : Z → Object → Z).

(** ** Operations on a collection that is not committed *)

(** X7. An operation on an object of a collection that [coll_map] does not
    hold, be it pending or unknown, leaves the store as it is. A REMOVE
    leaves the status 0 and the transaction goes on with the operation
    behind it; every other one answers [-ENOENT], on which the transaction
    ends in the failed assertion. A WRITE whose length is not that of its
    data ends the process before the collection is looked up. *)
Theorem uncommitted_collection_enoent (s : CyanStore) (op : Op) (c : coll_t)
    (oid : ghobject_t) (t : Transaction) (post : list decoded) :
  object_op op = Some (c, oid) → coll_map s !! c = None →
  ops t = Decoded op :: post →
  match op with
  | OP_REMOVE _ _ =>
      do_op conf Object_truncate_ret s op = Ret (0, s) ∧
      do_transaction conf Object_truncate_ret s t =
        do_transaction conf Object_truncate_ret s
          {| ops := post; on_applied := on_applied t;
             on_commit := on_commit t; on_applied_sync := on_applied_sync t |}
  | OP_WRITE _ _ _ len _ bl =>
      if bool_decide (len = Z.of_nat (length bl))
      then do_op conf Object_truncate_ret s op = Ret (- ENOENT, s) ∧
           do_transaction conf Object_truncate_ret s t = Fatal (- ENOENT) s
      else do_op conf Object_truncate_ret s op = Abort ∧
           do_transaction conf Object_truncate_ret s t = Aborted
  | _ =>
      do_op conf Object_truncate_ret s op = Ret (- ENOENT, s) ∧
      do_transaction conf Object_truncate_ret s t = Fatal (- ENOENT) s
  end.
Proof.
  intros Hop Hc Hops. unfold do_transaction. rewrite Hops.
  destruct op; simpl in *; simplify_eq;
    unfold _remove, _touch, _write, _truncate, _setattrs, _omap_set_values,
      _omap_set_header, _omap_rmkeys, _omap_rmkeyrange, _get_collection;
    rewrite ?Hc; simpl; try done.
  case_bool_decide; simpl; done.
Qed.

(** ** Operations on an object that is absent *)

(** X8. On a committed collection that does not hold the object, TOUCH,
    WRITE and the four omap operations return 0 and enter the object, at a
    fresh place, into [object_map] and [object_hash], leaving the entries of
    the other objects as they are; TRUNCATE and SETATTR answer [-ENOENT] and
    REMOVE leaves the status 0, the three of them with the store as before. *)
Theorem absent_object_created_or_enoent (s s' : CyanStore) (op : Op)
    (c : coll_t) (ch : Collection) (oid : ghobject_t) (r : Z) :
  object_op op = Some (c, oid) → coll_map s !! c = Some ch →
  get_object ch oid = None →
  do_op conf Object_truncate_ret s op = Ret (r, s') →
  if creates_object op then
    r = 0 ∧
    ∃ ch' o,
      coll_map s' = <[c := ch']> (coll_map s) ∧
      objects ch !! o = None ∧
      get_object ch' oid = Some o ∧ object_map ch' !! oid = Some o ∧
      ∀ oid', oid' ≠ oid →
        get_object ch' oid' = get_object ch oid' ∧
        object_map ch' !! oid' = object_map ch !! oid'
  else
    s' = s ∧
    r = match op with OP_REMOVE _ _ => 0 | _ => - ENOENT end.
Proof.
  intros Hop Hch Ho Hdo.
  pose proof (is_fresh (dom (objects ch))) as Hfresh.
  apply not_elem_of_dom in Hfresh.
  unfold get_object in Ho.
  destruct op; simpl in *; simplify_eq;
    unfold _remove, _touch, _write, _truncate, _setattrs, _omap_set_values,
      _omap_set_header, _omap_rmkeys, _omap_rmkeyrange, _get_collection,
      get_or_create_object, get_object in *;
    rewrite ?Hch, ?Ho in *; simpl in *;
    repeat (case_match; simplify_eq); simplify_eq; simpl;
    try done;
    (split; [done|]; eexists _, _; split; [done|]; split; [exact Hfresh|];
     unfold get_object; simpl; rewrite !lookup_insert_eq;
     split; [done|]; split; [done|];
     intros oid' Hne; by rewrite !lookup_insert_ne).
Qed.

(** ** What the operations on attributes and on the omap leave alone *)

Lemma frame_set_coll (s : CyanStore) (c0 : coll_t) (ch0 ch0' : Collection) :
  coll_map s !! c0 = Some ch0 →
  (∀ oid, is_Some (get_object ch0 oid) →
     ∀ offset len, read ch0' oid offset len = read ch0 oid offset len) →
  ∀ c ch, coll_map s !! c = Some ch →
    ∃ ch', coll_map (set_coll c0 ch0' s) !! c = Some ch' ∧
      ∀ oid, is_Some (get_object ch oid) →
        ∀ offset len, read ch' oid offset len = read ch oid offset len.
Proof.
  intros Hch0 Hread c ch Hch. simpl.
  destruct (decide (c = c0)) as [->|Hne].
  - rewrite lookup_insert_eq. exists ch0'. split; [done|].
    assert (ch = ch0) as -> by congruence. done.
  - rewrite lookup_insert_ne by done. by exists ch.
Qed.

(** X9. Only WRITE, TRUNCATE and REMOVE change [used_bytes] or what a [read]
    returns: after any other operation the counter is as before, every
    committed collection is still committed, and every [read] of an object
    that was there returns what it returned before. *)
Theorem metadata_ops_keep_content (s s' : CyanStore) (op : Op) (r : Z) :
  changes_content op = false →
  do_op conf Object_truncate_ret s op = Ret (r, s') →
  used_bytes s' = used_bytes s ∧
  ∀ c ch, coll_map s !! c = Some ch →
    ∃ ch', coll_map s' !! c = Some ch' ∧
      ∀ oid, is_Some (get_object ch oid) →
        ∀ offset len, read ch' oid offset len = read ch oid offset len.
Proof.
  intros Hkind Hdo.
  destruct op; simpl in *; try done; simplify_eq;
    unfold _touch, _setattrs, _create_collection, _omap_set_values,
      _omap_set_header, _omap_rmkeys, _omap_rmkeyrange, _get_collection in *;
    try (split; [done|]; intros c' ch' ?; by exists ch');
    try (destruct (coll_map s !! c) as [ch0|] eqn:Hch0; simplify_eq;
         [|split; [done|]; intros c' ch' ?; by exists ch']).
  - (* OP_TOUCH *)
    split; [done|]. apply (frame_set_coll s c ch0); [done|].
    intros. by apply get_or_create_object_read.
  - (* OP_SETATTR *)
    destruct (get_object ch0 oid) as [o|]; simplify_eq;
      [|split; [done|]; intros c' ch' ?; by exists ch'].
    split; [done|]. apply (frame_set_coll s c ch0); [done|].
    intros. by apply store_object_read.
  - (* OP_MKCOLL *)
    destruct (coll_map s !! c) as [ch0|] eqn:Hch0; simplify_eq;
      [split; [done|]; intros c' ch' ?; by exists ch'|].
    destruct (new_coll_map s !! c) as [p|]; simplify_eq.
    split; [done|]. intros c' ch Hch. exists ch. split; [|done]. simpl.
    rewrite lookup_insert_ne; [done|]. intros ->. congruence.
  - (* OP_OMAP_SETKEYS *)
    destruct (get_or_create_object ch0 oid) as [o ch1] eqn:Hgoc. simplify_eq.
    split; [done|]. apply (frame_set_coll s c ch0); [done|].
    intros oid' Hoid' offset len. rewrite store_object_read by done.
    pose proof (get_or_create_object_read ch0 oid oid' offset len Hoid') as Hread.
    by rewrite Hgoc in Hread.
  - (* OP_OMAP_SETHEADER *)
    destruct (get_or_create_object ch0 oid) as [o ch1] eqn:Hgoc. simplify_eq.
    split; [done|]. apply (frame_set_coll s c ch0); [done|].
    intros oid' Hoid' offset len. rewrite store_object_read by done.
    pose proof (get_or_create_object_read ch0 oid oid' offset len Hoid') as Hread.
    by rewrite Hgoc in Hread.
  - (* OP_OMAP_RMKEYS *)
    destruct (get_or_create_object ch0 oid) as [o ch1] eqn:Hgoc. simplify_eq.
    split; [done|]. apply (frame_set_coll s c ch0); [done|].
    intros oid' Hoid' offset len. rewrite store_object_read by done.
    pose proof (get_or_create_object_read ch0 oid oid' offset len Hoid') as Hread.
    by rewrite Hgoc in Hread.
  - (* OP_OMAP_RMKEYRANGE *)
    destruct (get_or_create_object ch0 oid) as [o ch1] eqn:Hgoc. simplify_eq.
    split; [done|]. apply (frame_set_coll s c ch0); [done|].
    intros oid' Hoid' offset len. rewrite store_object_read by done.
    pose proof (get_or_create_object_read ch0 oid oid' offset len Hoid') as Hread.
    by rewrite Hgoc in Hread.
Qed.
End object_operations.

Section removal.
Context (gh_le : relation ghobject_t) {gh_le_dec : RelDecision gh_le}.
Context (gh_max : ghobject_t).
Context (reserve_max : positive).

(** What [list_objects] returns are identifiers that [object_map] holds. *)
Lemma elem_of_seek {K : Type} (p : K → bool) (l : list K) (k : K) :
  k ∈ seek p l → k ∈ l.
Proof.
  induction l as [|x l IH]; simpl; [done|].
  destruct (p x); [done|]. intros Hk. right. by apply IH.
Qed.

Lemma list_objects_loop_elem (it : list ghobject_t) (end_ : ghobject_t)
    (limit : Z) (objs : list ghobject_t) (next oid : ghobject_t) :
  oid ∈ (list_objects_loop gh_le it end_ limit objs next).1 →
  oid ∈ objs ∨ oid ∈ it.
Proof.
  revert objs. induction it as [|x it IH]; intros objs; simpl; [by left|].
  destruct (bool_decide (gh_le end_ x) || bool_decide (limit ≤ Z.of_nat (length objs)));
    simpl; [by left|].
  intros [Hobjs|Hit]%IH; [|right; by right].
  apply elem_of_app in Hobjs as [?|Hx]; [by left|].
  apply list_elem_of_singleton in Hx as ->. right. left.
Qed.

Lemma list_objects_held (c : Collection) (start end_ : ghobject_t) (limit : Z)
    (objs : list ghobject_t) (next oid : ghobject_t) :
  list_objects gh_le gh_max reserve_max c start end_ limit = Listed objs next →
  oid ∈ objs → is_Some (object_map c !! oid).
Proof.
  unfold list_objects, lower_bound. case_bool_decide; [done|].
  destruct (list_objects_loop _ _ _ _ _ _) as [objs' next'] eqn:Hloop.
  intros [= <- <-] Hoid.
  assert (oid ∈ (list_objects_loop gh_le
                   (seek (λ k, bool_decide (gh_le start k))
                      (ordered_keys gh_le (object_map c)))
                   end_ limit [] gh_max).1) as Hin by (by rewrite Hloop).
  apply list_objects_loop_elem in Hin as [[]%elem_of_nil|Hit%elem_of_seek].
  by apply elem_of_ordered_keys in Hit.
Qed.

(** ** An object that was removed *)

(** X10. After [_remove] of an object that exists, the object cannot be
    looked up, [get_attr] resolves to [EnoentException] for it, and no call
    of [list_objects] returns it; the other objects of the collection are
    read, and their attributes are looked up, as before. A TOUCH of the same
    identifier then creates an empty Object: nothing of the content, the
    attributes or the omap of the removed one comes back. *)
Theorem remove_then_absent (s : CyanStore) (c : coll_t) (ch : Collection)
    (oid : ghobject_t) (o : loc) :
  coll_map s !! c = Some ch → object_hash ch !! oid = Some o →
  ∃ s' ch',
    _remove s c oid = (0, s') ∧ coll_map s' !! c = Some ch' ∧
    get_object ch' oid = None ∧
    (∀ name, get_attr ch' oid name =
             make_exception_future (EnoentException "object does not exist")) ∧
    (∀ start end_ limit objs next,
       list_objects gh_le gh_max reserve_max ch' start end_ limit =
         Listed objs next →
       oid ∉ objs) ∧
    (∀ oid', oid' ≠ oid →
       (∀ offset len, read ch' oid' offset len = read ch oid' offset len) ∧
       get_attrs ch' oid' = get_attrs ch oid') ∧
    ∃ ch'' o',
      _touch s' c oid = (0, set_coll c ch'' s') ∧
      get_object ch'' oid = Some o' ∧ deref ch'' o' = Object_new.
Proof.
  intros Hch Ho. eexists _, _. split.
  { unfold _remove, _get_collection. rewrite Hch, Ho. reflexivity. }
  split; [simpl; apply lookup_insert_eq|].
  set (ch' := {| cid := cid ch; bits := bits ch; exists_ := exists_ ch;
                 object_map := delete oid (object_map ch);
                 object_hash := delete oid (object_hash ch);
                 objects := objects ch |}).
  assert (get_object ch' oid = None) as Hgone
    by (unfold get_object; simpl; apply lookup_delete_eq).
  split; [done|]. split; [intros name; unfold get_attr; by rewrite Hgone|].
  split.
  { intros start end_ limit objs next Hcall Hoid.
    destruct (list_objects_held _ _ _ _ _ _ _ Hcall Hoid) as [? Hsome].
    simpl in Hsome. by rewrite lookup_delete_eq in Hsome. }
  split.
  { intros oid' Hne.
    assert (get_object ch' oid' = get_object ch oid') as Hget
      by (unfold get_object; simpl; by rewrite lookup_delete_ne).
    split; [intros; by apply read_ext|]. unfold get_attrs. by rewrite Hget. }
  destruct (get_or_create_object_spec ch' oid) as [Hget Hderef].
  rewrite Hgone in Hderef.
  eexists _, _. split; [|split; [exact Hget|exact Hderef]].
  unfold _touch, _get_collection. simpl. rewrite lookup_insert_eq.
  unfold set_coll. simpl. by rewrite insert_insert_eq.
Qed.
End removal.

Section sequencing.
Context (conf : Config).
Context (Object_truncate_ret : Z → Object → Z).

(** ** Transactions one after the other *)

(** The loop over two streams, one behind the other: the second is gone
    through from where the first ended, unless the first ended on a
    negative status, on an exception or with the process. *)
Lemma run_ops_app (i1 i2 : list decoded) (r : Z) (s : CyanStore) :
  0 ≤ r →
  run_ops conf Object_truncate_ret r s (i1 ++ i2) =
    match run_ops conf Object_truncate_ret r s i1 with
    | Left_loop r1 s1 =>
        if bool_decide (r1 < 0) then Left_loop r1 s1
        else run_ops conf Object_truncate_ret r1 s1 i2
    | e => e
    end.
Proof.
  revert r s. induction i1 as [|[op|] i1 IH]; intros r s Hr; simpl.
  - by rewrite bool_decide_eq_false_2 by lia.
  - destruct (do_op conf Object_truncate_ret s op) as [[r' s']|]; [|done].
    case_bool_decide as Hr'; [by rewrite bool_decide_eq_true_2|].
    apply IH. lia.
  - done.
Qed.

(** X11. A transaction is the sequence of its operations and nothing more:
    the transaction made of the operations of [t1] followed by those of [t2]
    ends as [t2] ends when it is run on the store that [t1] left, when [t1]
    completes, and as [t1] ends when it does not, in which case no operation
    of [t2] is applied. *)
Theorem do_transaction_sequential (s : CyanStore) (t t1 t2 : Transaction) :
  ops t = ops t1 ++ ops t2 →
  do_transaction conf Object_truncate_ret s t =
    match do_transaction conf Object_truncate_ret s t1 with
    | Completed s1 _ =>
        match do_transaction conf Object_truncate_ret s1 t2 with
        | Completed s2 _ => Completed s2 (complete_all t)
        | failed => failed
        end
    | failed => failed
    end.
Proof.
  intros Hops. unfold do_transaction. rewrite Hops, run_ops_app by done.
  destruct (run_ops conf Object_truncate_ret 0 s (ops t1)) as [r1 s1|s1|];
    [|done..].
  case_bool_decide as Hr1; [by rewrite bool_decide_eq_true_2|].
  destruct (ops t2) as [|op i2] eqn:Hops2.
  { simpl. by rewrite bool_decide_eq_false_2. }
  assert (run_ops conf Object_truncate_ret r1 s1 (op :: i2) =
          run_ops conf Object_truncate_ret 0 s1 (op :: i2)) as -> by done.
  destruct (run_ops conf Object_truncate_ret 0 s1 (op :: i2)) as [r2 s2|s2|];
    [by case_bool_decide|done..].
Qed.
End sequencing.


(** [get_or_create_object] keeps the mark and the identifier of the
    collection. *)
Lemma get_or_create_object_mark (ch : Collection) (oid : ghobject_t) :
  exists_ (get_or_create_object ch oid).2 = exists_ ch ∧
  cid (get_or_create_object ch oid).2 = cid ch.
Proof. unfold get_or_create_object. by destruct (object_hash ch !! oid). Qed.

(** Replacing a committed collection by one with the same mark and the
    same identifier. *)
Lemma Store_named_update (s s' : CyanStore) (c : coll_t) (ch ch' : Collection) :
  Store_named s → coll_map s !! c = Some ch →
  coll_map s' = <[c := ch']> (coll_map s) → new_coll_map s' = new_coll_map s →
  exists_ ch' = exists_ ch → cid ch' = cid ch →
  Store_named s'.
Proof.
  intros Hs Hch Hmap Hnew Hex Hcid c' ch''. rewrite Hmap, Hnew.
  rewrite lookup_insert_Some. intros [[[<- <-]|[_ ?]]|?]; [|apply Hs; auto..].
  rewrite Hex, Hcid. apply Hs. by left.
Qed.

Section identity.
Context (conf : Config).
Context (Object_truncate_ret : Z → Object → Z).

Lemma do_op_named (s s' : CyanStore) (op : Op) (r : Z) :
  Store_named s → do_op conf Object_truncate_ret s op = Ret (r, s') →
  Store_named s' ∧ osd_fsid s' = osd_fsid s.
Proof.
  intros Hs Hop.
  destruct op; simpl in Hop;
    unfold _remove, _touch, _write, _truncate, _setattrs, _create_collection,
      _omap_set_values, _omap_set_header, _omap_rmkeys, _omap_rmkeyrange,
      _get_collection in Hop;
    try (by simplify_eq);
    try (destruct (bool_decide (len = Z.of_nat (length bl))); simpl in Hop;
         [|done]);
    try (destruct (coll_map s !! c) as [ch|] eqn:Hch; [|by simplify_eq]).
  - (* OP_REMOVE *)
    destruct (object_hash ch !! oid) as [i|]; simplify_eq; [|done].
    split; [|done]. by eapply (Store_named_update s _ c ch).
  - (* OP_TOUCH *)
    simplify_eq. split; [|done].
    destruct (get_or_create_object_mark ch oid).
    by eapply (Store_named_update s _ c ch).
  - (* OP_WRITE *)
    destruct (get_or_create_object_mark ch oid).
    destruct (get_or_create_object ch oid) as [o ch1].
    case_match; simplify_eq; (split; [|done]);
      by eapply (Store_named_update s _ c ch).
  - (* OP_TRUNCATE *)
    destruct (get_object ch oid) as [o|]; [|by simplify_eq].
    case_match; simplify_eq; [done|]. split; [|done].
    by eapply (Store_named_update s _ c ch).
  - (* OP_SETATTR *)
    destruct (get_object ch oid) as [o|]; simplify_eq; [|done].
    split; [|done]. by eapply (Store_named_update s _ c ch).
  - (* OP_MKCOLL *)
    destruct (coll_map s !! c) as [ch|] eqn:Hch; [by simplify_eq|].
    destruct (new_coll_map s !! c) as [p|] eqn:Hp; simplify_eq.
    split; [|done]. intros c' ch'. simpl. rewrite lookup_insert_Some.
    intros [[[<- <-]|[_ ?]]|[_ ?]%lookup_delete_Some]; [|apply Hs; auto..].
    simpl. apply Hs. by right.
  - (* OP_OMAP_SETKEYS *)
    destruct (get_or_create_object_mark ch oid).
    destruct (get_or_create_object ch oid) as [o ch1]. simplify_eq.
    split; [|done]. by eapply (Store_named_update s _ c ch).
  - (* OP_OMAP_SETHEADER *)
    destruct (get_or_create_object_mark ch oid).
    destruct (get_or_create_object ch oid) as [o ch1]. simplify_eq.
    split; [|done]. by eapply (Store_named_update s _ c ch).
  - (* OP_OMAP_RMKEYS *)
    destruct (get_or_create_object_mark ch oid).
    destruct (get_or_create_object ch oid) as [o ch1]. simplify_eq.
    split; [|done]. by eapply (Store_named_update s _ c ch).
  - (* OP_OMAP_RMKEYRANGE *)
    destruct (get_or_create_object_mark ch oid).
    destruct (get_or_create_object ch oid) as [o ch1]. simplify_eq.
    split; [|done]. by eapply (Store_named_update s _ c ch).
Qed.

Lemma run_ops_named (r : Z) (s : CyanStore) (i : list decoded) :
  Store_named s →
  match run_ops conf Object_truncate_ret r s i with
  | Left_loop _ s' | Caught s' => Store_named s' ∧ osd_fsid s' = osd_fsid s
  | Crashed => True
  end.
Proof.
  revert r s. induction i as [|[op|] i IH]; intros r s Hs; simpl; [done| |done].
  destruct (do_op conf Object_truncate_ret s op) as [[r' s']|] eqn:Hop; [|done].
  destruct (do_op_named _ _ _ _ Hs Hop) as [Hs' Hfsid].
  case_bool_decide; [done|]. specialize (IH r' s' Hs').
  destruct (run_ops conf Object_truncate_ret r' s' i); [|  |done];
    (split; [apply IH|]; rewrite <-Hfsid; apply IH).
Qed.

(** ** What a run of calls keeps *)

(** X12. From a store in which every collection, committed or pending, is
    marked as existing and carries the identifier it is entered under, as in
    the store that was just constructed, every run of transactions and of
    creations of collections leads to such a store, and leaves the
    filesystem identifier alone. So [read] on a committed collection never
    throws for want of the collection. *)
Theorem calls_keep_collections_marked (s0 s : CyanStore) (calls : list call) :
  Store_named s0 →
  run_calls conf Object_truncate_ret s0 calls = Some s →
  Store_named s ∧ get_fsid s = get_fsid s0 ∧
  ∀ c ch oid offset len,
    coll_map s !! c = Some ch →
    read ch oid offset len ≠ throws (runtime_error "collection does not exist").
Proof.
  intros Hs0 Hrun.
  assert (Store_named s ∧ osd_fsid s = osd_fsid s0) as [Hs Hfsid].
  { revert s0 Hs0 Hrun. induction calls as [|[c|t] calls IH]; intros s0 Hs0 Hrun;
      simpl in Hrun.
    - by simplify_eq.
    - apply IH in Hrun; [done|]. intros c' ch. simpl.
      rewrite lookup_insert_Some. intros [?|[[<- <-]|[_ ?]]]; [apply Hs0; auto|done|].
      apply Hs0; auto.
    - unfold do_transaction in Hrun.
      pose proof (run_ops_named 0 s0 (ops t) Hs0) as Hops.
      destruct (run_ops conf Object_truncate_ret 0 s0 (ops t)) as [r s1|s1|];
        [| |done].
      + destruct Hops as [Hs1 Hfsid1]. case_bool_decide; simplify_eq; [done|].
        apply IH in Hrun as [? ?]; [|done]. split; [done|]. congruence.
      + rewrite bool_decide_eq_true_2 in Hrun by (unfold EINVAL; lia).
        by simplify_eq. }
  split; [done|]. split; [done|].
  intros c ch oid offset len Hch. unfold read.
  destruct (Hs c ch) as [-> _]; [by left|]. simpl.
  destruct (get_object ch oid); [|done].
  case_bool_decide; [done|].
  destruct (Object_read _ _ _ _) as [r bl]. by case_bool_decide.
Qed.
End identity.
End content.

(** ** The space that is reported *)

(** X13. [stat] reports the configured size as the total. As long as the
    content of the store does not exceed the configured size, the available
    space is the configured size less the content lengths of the live
    objects. The subtraction is one of 64-bit numbers: when the counter
    exceeds the configured size, what is reported as available is not 0 but
    [2^64] less the excess. *)
Theorem stat_available_bytes (conf : Config) (s : CyanStore) :
  Store_wf s → is_uint64 (memstore_device_bytes conf) →
  total_ (stat conf s) = memstore_device_bytes conf ∧
  is_uint64 (available (stat conf s)) ∧
  (total_live_bytes s ≤ memstore_device_bytes conf →
   available (stat conf s) = memstore_device_bytes conf - total_live_bytes s) ∧
  (memstore_device_bytes conf < used_bytes s →
   available (stat conf s) =
     two64 - (used_bytes s - memstore_device_bytes conf)).
Proof.
  intros (_ & _ & Hused) Hsize. unfold stat, stat_available. simpl.
  pose proof (map_sum_nonneg live_bytes (coll_map s)) as Hnonneg.
  fold (total_live_bytes s) in Hnonneg.
  assert (0 ≤ total_live_bytes s) as Hlive.
  { apply Hnonneg. intros c ch _. apply map_sum_nonneg.
    intros oid o _. unfold get_size. lia. }
  clear Hnonneg. rewrite Hused.
  split; [done|]. split; [solve_wrap|]. split; intros ?; solve_wrap.
Qed.

(** ** The metadata files *)

Lemma trim_right_all_space (t : string) :
  all_space t = true → trim_right t = EmptyString.
Proof.
  induction t as [|a t IH]; [done|]. simpl.
  intros [Ha Ht]%andb_true_iff. by rewrite (IH Ht), Ha.
Qed.

Lemma trim_right_app_space (v t : string) :
  all_space t = true → trim_right (v +:+ t) = trim_right v.
Proof.
  intros Ht. induction v as [|a v IH]; simpl; [by apply trim_right_all_space|].
  by rewrite IH.
Qed.

Lemma trim_right_prefix (v : string) :
  ∃ t, v = trim_right v +:+ t ∧ all_space t = true.
Proof.
  induction v as [|a v (t & Hv & Ht)]; [by exists EmptyString|]. simpl.
  destruct (trim_right v) as [|b w] eqn:Htrim.
  - change (v = t) in Hv. subst t. destruct (isspace a) eqn:Ha.
    + exists (String a v). simpl. by rewrite Ha, Ht.
    + by exists v.
  - exists t. split; [|done].
    change (String a v = String a (String b w +:+ t)). by f_equal.
Qed.

Lemma trim_right_ends_without_space (v : string) :
  ends_without_space (trim_right v) = true.
Proof.
  induction v as [|a v IH]; [done|]. simpl.
  destruct (trim_right v) as [|b w] eqn:Htrim.
  - destruct (isspace a) eqn:Ha; simpl; [done|by rewrite Ha].
  - exact IH.
Qed.

Lemma trim_right_id (v : string) :
  ends_without_space v = true → trim_right v = v.
Proof.
  induction v as [|a v IH]; [done|]. intros Hv. destruct v as [|b w].
  - simpl in *. by destruct (isspace a).
  - change (match trim_right (String b w) with
            | EmptyString => if isspace a then EmptyString else String a EmptyString
            | t => String a t
            end = String a (String b w)).
    by rewrite (IH Hv).
Qed.

Lemma length_substring_0 (n : nat) (v : string) :
  String.length (String.substring 0 n v) = (n `min` String.length v)%nat.
Proof.
  revert n. induction v as [|a v IH]; intros [|n]; simpl; try done.
  by rewrite IH.
Qed.

Lemma length_append (v t : string) :
  String.length (v +:+ t) = (String.length v + String.length t)%nat.
Proof.
  induction v as [|a v IH]; [done|].
  change (S (String.length (v +:+ t)) = S (String.length v + String.length t)).
  by rewrite IH.
Qed.

Lemma length_trim_right (v : string) :
  (String.length (trim_right v) ≤ String.length v)%nat.
Proof.
  destruct (trim_right_prefix v) as (t & Hv & _).
  rewrite Hv at 2. rewrite length_append. lia.
Qed.

(** What is read back under the key that was written, and under another
    key. *)
Lemma read_meta_written (d : Disk) (key value : string) :
  (String.length value < 4096)%nat →
  read_meta (write_meta d key value) key =
    (Z.of_nat (String.length value) + 1, trim_right value).
Proof.
  intros Hlen. unfold read_meta, safe_read_file, write_meta. simpl.
  rewrite lookup_insert_eq.
  rewrite substring_all by (rewrite length_append_newline; lia).
  rewrite length_append_newline, bool_decide_eq_true_2 by lia.
  rewrite trim_right_app_space by done. f_equal. lia.
Qed.

Lemma read_meta_meta (d d' : Disk) (key : string) :
  meta d = meta d' → read_meta d key = read_meta d' key.
Proof. intros Hmeta. unfold read_meta, safe_read_file. by rewrite Hmeta. Qed.

Lemma read_meta_other (d : Disk) (key key' value : string) :
  key' ≠ key → read_meta (write_meta d key value) key' = read_meta d key'.
Proof.
  intros Hne. unfold read_meta, safe_read_file, write_meta. simpl.
  by rewrite lookup_insert_ne.
Qed.

(** X14. [write_meta] stores the value followed by a newline, and
    [read_meta] drops the white space at the end of what it reads: a value
    shorter than the buffer of 4096 bytes is read back without its trailing
    white space, and as it was written when it does not end in white space.
    The number that comes with it is the length of the file, one more than
    that of the value. The other entries of the directory are as before. *)
Theorem write_meta_read_meta (d : Disk) (key value : string) :
  (String.length value < 4096)%nat →
  read_meta (write_meta d key value) key =
    (Z.of_nat (String.length value) + 1, trim_right value) ∧
  (∃ t, value = trim_right value +:+ t ∧ all_space t = true) ∧
  ends_without_space (trim_right value) = true ∧
  (ends_without_space value = true →
   read_meta (write_meta d key value) key =
     (Z.of_nat (String.length value) + 1, value)) ∧
  (∀ key', key' ≠ key →
     read_meta (write_meta d key value) key' = read_meta d key') ∧
  collections_file (write_meta d key value) = collections_file d.
Proof.
  intros Hlen. split; [by apply read_meta_written|].
  split; [apply trim_right_prefix|].
  split; [apply trim_right_ends_without_space|].
  split; [intros Hends; by rewrite read_meta_written, trim_right_id|].
  split; [|done]. intros key' Hne. by apply read_meta_other.
Qed.

(** X15. What [read_meta] yields, whatever the directory holds: a number
    that is at most 4096, and a string that is empty unless the number is
    positive, no longer than the number says, and free of white space at its
    end. An entry that is absent gives [-ENOENT]; a file gives the length of
    what was read of it, 0 for an empty file, and the bytes read up to the
    white space at their end. *)
Theorem read_meta_shape (d : Disk) (key : string) :
  ((read_meta d key).1 ≤ 0 → (read_meta d key).2 = EmptyString) ∧
  Z.of_nat (String.length (read_meta d key).2) ≤ Z.max 0 (read_meta d key).1 ∧
  ends_without_space (read_meta d key).2 = true ∧
  (meta d !! key = None → read_meta d key = (- ENOENT, EmptyString)) ∧
  (∀ errno, meta d !! key = Some (Unreadable errno) →
     read_meta d key = (- errno, EmptyString)) ∧
  (∀ content, meta d !! key = Some (File content) →
     (read_meta d key).1 = Z.of_nat (4096 `min` String.length content) ∧
     ∃ t, String.substring 0 4096 content = (read_meta d key).2 +:+ t ∧
          all_space t = true).
Proof.
  unfold read_meta, safe_read_file.
  destruct (meta d !! key) as [[content|errno]|] eqn:Hkey.
  - pose proof (length_trim_right (String.substring 0 4096 content)) as Htrim.
    pose proof (length_substring_0 4096 content) as Hl.
    case_bool_decide as Hr; cbn [fst snd].
    + split; [lia|]. split; [lia|].
      split; [apply trim_right_ends_without_space|]. split; [done|].
      split; [done|].
      intros ? [= <-]. split; [by rewrite Hl|]. apply trim_right_prefix.
    + split; [done|]. split; [cbn [String.length]; lia|]. split; [done|].
      split; [done|]. split; [done|]. intros ? [= <-]. split; [by rewrite Hl|].
      exists EmptyString. split; [|done].
      destruct (String.substring 0 4096 content) eqn:Hsub; [done|].
      cbn [String.length] in Hr. lia.
  - case_bool_decide; cbn [fst snd];
      (split; [done|]; split; [simpl; lia|]; split; [done|]; split; [done|];
       split; [by intros ? [= <-]|done]).
  - unfold ENOENT. rewrite bool_decide_eq_false_2 by lia. cbn [fst snd].
    repeat split; try done; simpl; lia.
Qed.

Section formatting.
Context {uuid_eq : EqDecision uuid_d}.
Context (uuid_zero : uuid_d).
Context (uuid_to_string : uuid_d → string).
Context (uuid_parse : string → option uuid_d).

(** ** What mkfs leaves behind *)

(** X16. When mkfs succeeds, the directory holds the type marker
    ["memstore"], an empty manifest, whatever the manifest held before, and
    an fsid that parses to the identifier [get_fsid] then returns, which is
    the identifier supplied unless that was zero. The other metadata
    entries, the collections in memory and the byte counter are as before.
    The rendering of an identifier is taken to be free of white space,
    shorter than the read buffer, and parsed back to the identifier. *)
Theorem mkfs_writes_markers (s s' : CyanStore) (d d' : Disk)
    (new_osd_fsid random : uuid_d) :
  (∀ u, uuid_parse (uuid_to_string u) = Some u) →
  (∀ u, no_space (uuid_to_string u) = true) →
  (∀ u, (String.length (uuid_to_string u) < 4096)%nat) →
  mkfs uuid_zero uuid_to_string uuid_parse s d new_osd_fsid random =
    make_ready_future (s', d') →
  read_meta d' "type" = (9, "memstore") ∧
  collections_file d' = Some ∅ ∧
  uuid_parse (read_meta d' "fsid").2 = Some (get_fsid s') ∧
  (new_osd_fsid ≠ uuid_zero → get_fsid s' = new_osd_fsid) ∧
  coll_map s' = coll_map s ∧ new_coll_map s' = new_coll_map s ∧
  used_bytes s' = used_bytes s ∧
  (∀ key, key ≠ "fsid" → key ≠ "type" → meta d' !! key = meta d !! key).
Proof.
  intros Hparse Hspace Hlen. unfold mkfs.
  destruct (read_meta d "fsid") as [r fsid_str] eqn:Hread.
  assert (∀ d0 : Disk, read_meta (write_meta d0 "type" "memstore") "type" =
                       (9, "memstore")) as Htype.
  { intros d0. by rewrite read_meta_written by (simpl; lia). }
  case_bool_decide as Habsent.
  - intros [= <- <-].
    set (fsid := if bool_decide (new_osd_fsid = uuid_zero) then random
                 else new_osd_fsid).
    split; [apply Htype|]. split; [done|]. split.
    { rewrite read_meta_other by done.
      rewrite (read_meta_meta _ (write_meta d "fsid" (uuid_to_string fsid)))
        by done.
      rewrite read_meta_written by apply Hlen. simpl.
      rewrite trim_right_id; [apply Hparse|].
      clear -Hspace. specialize (Hspace fsid).
      induction (uuid_to_string fsid) as [|a v IH]; [done|].
      simpl in Hspace. apply andb_true_iff in Hspace as [Ha Hv].
      destruct v; [done|]. by apply IH. }
    split.
    { intros Hne. unfold fsid. by rewrite bool_decide_eq_false_2. }
    split; [done|]. split; [done|]. split; [done|].
    intros key Hfsid Htype'. simpl. by rewrite !lookup_insert_ne.
  - case_bool_decide as Hneg; [done|].
    destruct (uuid_parse fsid_str) as [fsid|] eqn:Hfsid; [|done].
    case_bool_decide as Hmatch; [done|]. intros [= <- <-].
    assert (fsid = new_osd_fsid) as -> by (by destruct (decide (fsid = new_osd_fsid))).
    split; [apply Htype|]. split; [done|]. split.
    { rewrite read_meta_other by done.
      rewrite (read_meta_meta _ d) by done. by rewrite Hread. }
    split; [done|]. split; [done|]. split; [done|]. split; [done|].
    intros key _ Htype'. simpl. by rewrite lookup_insert_ne.
Qed.
End formatting.

Section persistence.
Context {encoded : Type}.
Context (coll_le : relation coll_t) {coll_le_dec : RelDecision coll_le}.
Context (Collection_encode : Collection → encoded).
Context (Collection_decode : coll_t → encoded → option Collection).
Context (Collection_used_bytes : Collection → Z).

(** ** mount and umount *)

(** The loop of [mount] comes to its end exactly when every collection of
    the sequence has a file that decodes. *)
Lemma mount_loop_succeeds (files : gmap coll_t encoded) (l : list coll_t)
    (s : CyanStore) :
  (∃ s', mount_loop Collection_decode Collection_used_bytes files s l = Mounted s') ↔
  ∀ c, c ∈ l → ∃ e ch, files !! c = Some e ∧ Collection_decode c e = Some ch.
Proof.
  revert s. induction l as [|c l IH]; intros s; simpl.
  - split; [by intros _ ? ?%elem_of_nil|]. intros _. by exists s.
  - destruct (files !! c) as [e|] eqn:He.
    2:{ split; [by intros [? ?]|]. intros Hall.
        destruct (Hall c) as (? & ? & ? & _); [left|congruence]. }
    destruct (Collection_decode c e) as [ch|] eqn:Hch.
    2:{ split; [by intros [? ?]|]. intros Hall.
        destruct (Hall c) as (? & ? & ? & ?); [left|congruence]. }
    rewrite IH. split.
    + intros Hall c' [->|Hc']%elem_of_cons; [by exists e, ch|by apply Hall].
    + intros Hall c' Hc'. apply Hall. by right.
Qed.

(** What the loop of [mount] has loaded when it comes to its end. *)
Lemma mount_loop_loaded (files : gmap coll_t encoded) (l : list coll_t)
    (s s' : CyanStore) :
  NoDup l → is_uint64 (used_bytes s) →
  mount_loop Collection_decode Collection_used_bytes files s l = Mounted s' →
  ∃ loaded : gmap coll_t Collection,
    dom loaded = list_to_set l ∧
    (∀ c ch, loaded !! c = Some ch →
       ∃ e, files !! c = Some e ∧ Collection_decode c e = Some ch) ∧
    coll_map s' = loaded ∪ coll_map s ∧
    used_bytes s' =
      wrap64 (used_bytes s + map_sum Collection_used_bytes loaded) ∧
    new_coll_map s' = new_coll_map s ∧ osd_fsid s' = osd_fsid s.
Proof.
  intros Hnd. revert s. induction Hnd as [|c l Hc Hnd IH]; intros s Hused; simpl.
  - intros [= <-]. exists ∅. split; [by rewrite dom_empty_L|].
    split; [by intros ?? ?%lookup_empty_Some|].
    split; [by rewrite (left_id_L ∅ (∪))|].
    rewrite map_sum_empty, Z.add_0_r. by rewrite wrap64_uint64.
  - destruct (files !! c) as [e|] eqn:He; [|done].
    destruct (Collection_decode c e) as [ch|] eqn:Hch; [|done].
    intros Hloop. apply IH in Hloop as (loaded & Hdom & Hfiles & Hmap & Hbytes & Hnew & Hfsid);
      [|apply wrap64_is_uint64].
    simpl in *.
    assert (loaded !! c = None) as Hfree.
    { apply not_elem_of_dom. rewrite Hdom. by rewrite elem_of_list_to_set. }
    exists (<[c := ch]> loaded). split; [by rewrite dom_insert_L, Hdom|].
    split.
    { intros c' ch'. rewrite lookup_insert_Some.
      intros [[<- <-]|[_ ?]]; [by exists e|by apply Hfiles]. }
    split.
    { rewrite Hmap. rewrite <-insert_union_r, insert_union_l by done. done. }
    split; [|done].
    rewrite Hbytes, map_sum_insert_None by done.
    rewrite wrap64_add_l. f_equal. lia.
Qed.

(** X17. [mount] returns exactly when the manifest can be read and every
    collection it lists has a file that decodes. The store then holds the
    collections that were decoded, under their identifiers, over what it
    held before under the same identifiers and besides what it held under
    others; the counter has grown by what [Collection::used_bytes] answers
    for the collections decoded; the pending collections and the filesystem
    identifier are as before. *)
Theorem mount_loads_manifest (s : CyanStore) (d : Disk)
    (files : gmap coll_t encoded) :
  is_uint64 (used_bytes s) →
  ((∃ s', mount coll_le Collection_decode Collection_used_bytes s d files =
            Mounted s') ↔
   ∃ collections,
     collections_file d = Some collections ∧
     ∀ c, c ∈ collections →
       ∃ e ch, files !! c = Some e ∧ Collection_decode c e = Some ch) ∧
  ∀ s',
    mount coll_le Collection_decode Collection_used_bytes s d files = Mounted s' →
    ∃ collections loaded,
      collections_file d = Some collections ∧
      dom loaded = collections ∧
      (∀ c ch, loaded !! c = Some ch →
         ∃ e, files !! c = Some e ∧ Collection_decode c e = Some ch) ∧
      coll_map s' = loaded ∪ coll_map s ∧
      used_bytes s' =
        wrap64 (used_bytes s + map_sum Collection_used_bytes loaded) ∧
      new_coll_map s' = new_coll_map s ∧ get_fsid s' = get_fsid s.
Proof.
  intros Hused. unfold mount.
  destruct (collections_file d) as [collections|]; [|split].
  - split.
    + rewrite mount_loop_succeeds. split.
      * intros Hall. exists collections. split; [done|]. intros c Hc.
        apply Hall. by rewrite merge_sort_Permutation, elem_of_elements.
      * intros (? & [= <-] & Hall) c Hc. apply Hall.
        by rewrite merge_sort_Permutation, elem_of_elements in Hc.
    + intros s' Hloop. apply mount_loop_loaded in Hloop
        as (loaded & Hdom & Hrest); [|by rewrite merge_sort_Permutation; apply NoDup_elements|done].
      exists collections, loaded. split; [done|]. split; [|done].
      rewrite Hdom. apply set_eq. intros c.
      by rewrite elem_of_list_to_set, merge_sort_Permutation, elem_of_elements.
  - split; [by intros [? ?]|by intros (? & ? & _)].
  - done.
Qed.

(** What [umount] has written when the loop over [coll_map] and the
    write of the manifest are done. *)
Lemma umount_written (s : CyanStore) (d : Disk) (files : gmap coll_t encoded) :
  umount Collection_encode s d files =
    ({| meta := meta d; collections_file := Some (dom (coll_map s)) |},
     (Collection_encode <$> coll_map s) ∪ files).
Proof.
  unfold umount.
  assert (map_fold (λ col ch '(collections, files0),
                      ({[col]} ∪ collections,
                       <[col := Collection_encode ch]> files0))
            ((∅ : gset coll_t), files) (coll_map s) =
          (dom (coll_map s), (Collection_encode <$> coll_map s) ∪ files)) as ->;
    [|done].
  apply (map_fold_weak_ind
           (λ r m, r = (dom m, (Collection_encode <$> m) ∪ files))).
  - by rewrite dom_empty_L, fmap_empty, (left_id_L ∅ (∪)).
  - intros c ch m r Hc ->.
    by rewrite dom_insert_L, fmap_insert, insert_union_l.
Qed.

(** X18. [umount] writes the manifest with the identifiers of the committed
    collections, the pending ones left out, and for each committed
    collection its file, over what the file held; the metadata entries and
    the files of other collections stay as they are. *)
Theorem umount_snapshot (s : CyanStore) (d : Disk)
    (files : gmap coll_t encoded) :
  collections_file (umount Collection_encode s d files).1 =
    Some (dom (coll_map s)) ∧
  (∀ c, c ∈ dom (coll_map s) ↔ c ∈ list_collections s) ∧
  meta (umount Collection_encode s d files).1 = meta d ∧
  ∀ c, (umount Collection_encode s d files).2 !! c =
       match coll_map s !! c with
       | Some ch => Some (Collection_encode ch)
       | None => files !! c
       end.
Proof.
  rewrite umount_written. simpl. split; [done|]. split.
  { intros c. unfold list_collections.
    rewrite elem_of_dom, list_elem_of_fmap. split.
    - intros [ch Hch]. exists (c, ch). split; [done|].
      by apply elem_of_map_to_list.
    - intros ([c' ch] & -> & Hch%elem_of_map_to_list). by exists ch. }
  split; [done|]. intros c.
  rewrite lookup_union, lookup_fmap.
  destruct (coll_map s !! c); simpl; [|by rewrite (left_id_L None (∪))].
  by destruct (files !! c).
Qed.

(** X19. After [umount], [mount] into a store that was just constructed
    brings back the committed collections and the counter; the pending
    collections are gone. [mount] into the store that was saved, which still
    holds its collections, leaves them as they are and counts their bytes a
    second time. [Collection::decode] is taken to give back the collection
    that [Collection::encode] was given, and [Collection::used_bytes] to
    answer with the content lengths of the objects in [object_map]. *)
Theorem umount_mount_roundtrip (s : CyanStore) (d : Disk)
    (files : gmap coll_t encoded) (zero : uuid_d) :
  Store_wf s →
  (∀ c ch, coll_map s !! c = Some ch →
     Collection_decode c (Collection_encode ch) = Some ch ∧
     Collection_used_bytes ch = wrap64 (live_bytes ch)) →
  let d' := (umount Collection_encode s d files).1 in
  let files' := (umount Collection_encode s d files).2 in
  ∃ s1 s2,
    mount coll_le Collection_decode Collection_used_bytes
      (CyanStore_new zero) d' files' = Mounted s1 ∧
    coll_map s1 = coll_map s ∧ used_bytes s1 = used_bytes s ∧
    new_coll_map s1 = ∅ ∧ Store_wf s1 ∧
    mount coll_le Collection_decode Collection_used_bytes s d' files' =
      Mounted s2 ∧
    coll_map s2 = coll_map s ∧ new_coll_map s2 = new_coll_map s ∧
    used_bytes s2 = wrap64 (2 * used_bytes s).
Proof.
  intros Hwf Hcodec d' files'.
  pose proof (umount_written s d files) as Hwritten.
  assert (d' = {| meta := meta d; collections_file := Some (dom (coll_map s)) |})
    as Hd' by (unfold d'; by rewrite Hwritten).
  assert (files' = (Collection_encode <$> coll_map s) ∪ files)
    as Hfiles' by (unfold files'; by rewrite Hwritten).
  clearbody d' files'. subst d' files'. clear Hwritten.
  assert (∀ s0 s' : CyanStore, is_uint64 (used_bytes s0) →
            mount coll_le Collection_decode Collection_used_bytes s0
              {| meta := meta d; collections_file := Some (dom (coll_map s)) |}
              ((Collection_encode <$> coll_map s) ∪ files) = Mounted s' →
            coll_map s' = coll_map s ∪ coll_map s0 ∧
            used_bytes s' = wrap64 (used_bytes s0 + used_bytes s) ∧
            new_coll_map s' = new_coll_map s0) as Hmount.
  { intros s0 s' Hused Hloop. unfold mount in Hloop. simpl in Hloop.
    apply mount_loop_loaded in Hloop
      as (loaded & Hdom & Hfiles & Hmap & Hbytes & Hnew & _);
      [|by rewrite merge_sort_Permutation; apply NoDup_elements|done].
    assert (loaded = coll_map s) as ->.
    { apply map_eq. intros c.
      destruct (loaded !! c) as [ch|] eqn:Hc.
      - destruct (Hfiles c ch Hc) as (e & He & Hde).
        rewrite lookup_union, lookup_fmap in He.
        destruct (coll_map s !! c) as [ch0|] eqn:Hc0.
        + destruct (Hcodec c ch0 Hc0) as [Hround _].
          assert (e = Collection_encode ch0) as ->.
          { simpl in He. rewrite union_Some_l in He. congruence. }
          congruence.
        + apply not_elem_of_dom in Hc0. destruct Hc0.
          assert (c ∈ dom loaded) as Hin by (apply elem_of_dom; eauto).
          rewrite Hdom, elem_of_list_to_set, merge_sort_Permutation,
            elem_of_elements in Hin. done.
      - apply not_elem_of_dom in Hc. symmetry. apply not_elem_of_dom.
        intros Hin. apply Hc.
        by rewrite Hdom, elem_of_list_to_set, merge_sort_Permutation,
          elem_of_elements. }
    split; [done|]. split; [|done]. rewrite Hbytes.
    destruct Hwf as (_ & _ & ->). unfold total_live_bytes.
    rewrite (map_sum_ext Collection_used_bytes (λ ch, wrap64 (live_bytes ch)))
      by (intros c ch Hc; exact (proj2 (Hcodec c ch Hc))).
    rewrite <-wrap64_add_r, wrap64_map_sum. by rewrite !wrap64_add_r. }
  assert (∀ s0 : CyanStore, ∃ s',
            mount coll_le Collection_decode Collection_used_bytes s0
              {| meta := meta d; collections_file := Some (dom (coll_map s)) |}
              ((Collection_encode <$> coll_map s) ∪ files) = Mounted s')
    as Hsucceeds.
  { intros s0. unfold mount. simpl. apply mount_loop_succeeds. intros c Hc.
    rewrite merge_sort_Permutation, elem_of_elements, elem_of_dom in Hc.
    destruct Hc as [ch Hc]. exists (Collection_encode ch), ch.
    split; [|exact (proj1 (Hcodec c ch Hc))].
    rewrite lookup_union, lookup_fmap, Hc. simpl. by rewrite union_Some_l. }
  destruct (Hsucceeds (CyanStore_new zero)) as [s1 Hs1].
  destruct (Hsucceeds s) as [s2 Hs2].
  pose proof Hwf as (Hcolls & _ & Hused).
  destruct (Hmount (CyanStore_new zero) s1) as (Hmap1 & Hbytes1 & Hnew1);
    [by compute|done|].
  destruct (Hmount s s2) as (Hmap2 & Hbytes2 & Hnew2);
    [rewrite Hused; apply wrap64_is_uint64|done|].
  simpl in Hmap1, Hbytes1, Hnew1.
  rewrite (right_id_L ∅ (∪)) in Hmap1.
  rewrite Z.add_0_l, Hused, wrap64_uint64 in Hbytes1 by apply wrap64_is_uint64.
  exists s1, s2. split; [done|]. split; [done|].
  split; [by rewrite Hused|]. split; [done|]. split.
  { split; [by rewrite Hmap1|]. split; [by rewrite Hnew1|].
    rewrite Hbytes1. unfold total_live_bytes. by rewrite Hmap1. }
  split; [done|]. split; [by rewrite Hmap2, (idemp_L (∪))|]. split; [done|].
  rewrite Hbytes2. f_equal. lia.
Qed.
(** X20. After a successful mkfs, [mount] returns at once: the manifest is
    empty, so nothing is read and the store is as mkfs left it, whatever
    collection files the directory holds. *)
Theorem mkfs_then_mount {uuid_eq : EqDecision uuid_d} (uuid_zero : uuid_d)
    (uuid_to_string : uuid_d → string) (uuid_parse : string → option uuid_d)
    (s s1 : CyanStore) (d d1 : Disk) (new_osd_fsid random : uuid_d)
    (files : gmap coll_t encoded) :
  mkfs uuid_zero uuid_to_string uuid_parse s d new_osd_fsid random =
    make_ready_future (s1, d1) →
  mount coll_le Collection_decode Collection_used_bytes s1 d1 files =
    Mounted s1.
Proof.
  intros Hmkfs.
  assert (collections_file d1 = Some ∅) as Hmanifest.
  { unfold mkfs in Hmkfs. destruct (read_meta d "fsid") as [r fsid_str].
    repeat (case_match; simplify_eq); done. }
  unfold mount. by rewrite Hmanifest, elements_empty.
Qed.
End persistence.

Section indexes.
Context (conf : Config).
Context (Object_truncate_ret : Z → Object → Z).
Context (gh_le : relation ghobject_t) {gh_le_dec : RelDecision gh_le}.
Context (gh_max : ghobject_t).
Context {gh_le_total : TotalOrder gh_le}.
Context (gh_max_top : ∀ oid, gh_le oid gh_max).
Context (reserve_max : positive).

(** ** The two indexes of a collection *)

(** X21. After any run of calls from a consistent store, the ordered index
    that [list_objects] walks and the lookup index that the other paths use
    hold the same objects: whatever [list_objects] returns can be looked up,
    and for an identifier below the sentinel, the listing of at most one
    object from that identifier on returns it exactly when it can be looked
    up. *)
Theorem listed_iff_found (s0 s : CyanStore) (calls : list call) (c : coll_t)
    (ch : Collection) (oid : ghobject_t) :
  Store_wf s0 → run_calls conf Object_truncate_ret s0 calls = Some s →
  coll_map s !! c = Some ch → ¬ gh_le gh_max oid →
  (is_Some (get_object ch oid) ↔
   ∃ next,
     list_objects gh_le gh_max reserve_max ch oid gh_max 1 = Listed [oid] next) ∧
  ∀ start end_ limit objs next oid',
    list_objects gh_le gh_max reserve_max ch start end_ limit = Listed objs next →
    oid' ∈ objs → is_Some (get_object ch oid').
Proof using Type*.
  intros Hs0 Hrun Hch Hbelow.
  pose proof (run_calls_wf _ _ _ _ _ Hs0 Hrun) as (Hcolls & _ & _).
  destruct (Hcolls c ch Hch) as (Hsame & _ & _).
  assert (∀ oid', is_Some (get_object ch oid') ↔ is_Some (object_map ch !! oid'))
    as Hindex by (intros oid'; unfold get_object; by rewrite Hsame).
  split.
  2:{ intros start end_ limit objs next oid' Hcall Hin. apply Hindex.
      by eapply list_objects_held. }
  destruct (list_objects_spec gh_le gh_max gh_max_top reserve_max ch oid gh_max 1)
    as (rest & Hspec & _); [lia|].
  rewrite Hspec.
  destruct (objects_in_range_sorted gh_le gh_max gh_max_top ch oid gh_max)
    as (Hsorted & _ & Hrange).
  rewrite Hindex. split.
  - intros Hoid.
    assert (oid ∈ objects_in_range gh_le ch oid gh_max) as Hin
      by (apply Hrange; done).
    destruct (objects_in_range gh_le ch oid gh_max) as [|x l] eqn:Hl;
      [by apply elem_of_nil in Hin|].
    eexists. f_equal. simpl. rewrite take_0. f_equal.
    apply elem_of_cons in Hin as [->|Hin]; [done|].
    apply (anti_symm gh_le).
    + apply StronglySorted_cons in Hsorted as [Hx _].
      by eapply Forall_forall in Hx.
    + assert (x ∈ x :: l) as Hx by left.
      by apply Hrange in Hx as (_ & ? & _).
  - intros [next [= Htake _]]. change (Z.to_nat 1) with 1%nat in Htake.
    assert (oid ∈ objects_in_range gh_le ch oid gh_max) as Hin.
    { eapply elem_of_sublist; [|apply (sublist_take _ 1)]. rewrite Htake. left. }
    by apply Hrange in Hin as (? & _).
Qed.
End indexes.
End properties.

(** ** The concrete store *)

Lemma hobj_le_total : TotalOrder hobj_le.
Proof.
  split; [split; [split|]|].
  - intros [x|]; simpl; [lia|done].
  - intros [x|] [y|] [z|]; simpl; try done; lia.
  - intros [x|] [y|]; simpl; try done. intros. f_equal. lia.
  - intros [x|] [y|]; unfold strict; simpl; try tauto.
    destruct (N.lt_trichotomy x y) as [?|[->|?]];
      [left; lia|right; left; done|right; right; lia].
Qed.

Lemma hobj_max_top (oid : hobj) : hobj_le oid Hobj_max.
Proof. by destruct oid. Qed.

Lemma byte_parse_to_string (u : ascii) : byte_parse (byte_to_string u) = Some u.
Proof. destruct u as [[] [] [] [] [] [] [] []]; reflexivity. Qed.

Lemma byte_to_string_no_space (u : ascii) : no_space (byte_to_string u) = true.
Proof. destruct u as [[] [] [] [] [] [] [] []]; reflexivity. Qed.

Lemma byte_to_string_short (u : ascii) : (String.length (byte_to_string u) < 4096)%nat.
Proof. simpl. lia. Qed.


(** ** The claims at the concrete store *)

Lemma used_bytes_is_sum_witness :
  run_calls ex_conf ex_truncate_ret ex_new ex_calls = Some ex_final ∧
  used_bytes ex_final = 10 ∧
  Store_wf ex_final ∧
  used_bytes ex_final = wrap64 (total_live_bytes ex_final) ∧
  (total_live_bytes ex_final < two64 →
   used_bytes ex_final = total_live_bytes ex_final).
Proof.
  split; [vm_compute; reflexivity|]. split; [vm_compute; reflexivity|].
  apply (used_bytes_is_sum ex_conf ex_truncate_ret ex_new ex_final ex_calls).
  - apply CyanStore_new_wf.
  - vm_compute. reflexivity.
Defined.

Lemma do_transaction_apply_until_failure_witness :
  apply_ops ex_conf ex_truncate_ret ex_store [OP_TOUCH 1%N (Hobj 7)] = Some ex_touched ∧
  do_op ex_conf ex_truncate_ret ex_touched (OP_TRUNCATE 1%N (Hobj 9) 4) =
    Ret (- ENOENT, ex_touched) ∧
  do_transaction ex_conf ex_truncate_ret ex_store ex_failing = Fatal (- ENOENT) ex_touched.
Proof.
  split; [vm_compute; reflexivity|]. split; [vm_compute; reflexivity|].
  destruct (do_transaction_apply_until_failure ex_conf ex_truncate_ret
              ex_store ex_touched ex_failing [OP_TOUCH 1%N (Hobj 7)])
    as (_ & Hfail & _).
  - vm_compute. reflexivity.
  - apply (Hfail (OP_TRUNCATE 1%N (Hobj 9) 4) [Decoded (OP_TOUCH 1%N (Hobj 8))]).
    + reflexivity.
    + vm_compute. reflexivity.
    + unfold ENOENT. lia.
Defined.

(** With an [Object::truncate] that returns the resulting size, the
    TRUNCATE of an object to 4 bytes leaves the status 4. As the last
    status of a transaction it is not fatal, and the loop does not stop
    there: a TOUCH behind it is applied and the transaction completes. *)
Lemma do_transaction_positive_status :
  ∃ s1 s2,
    do_op ex_conf ex_size_truncate_ret ex_store (OP_TRUNCATE 1%N (Hobj 1) 4) =
      Ret (4, s1) ∧
    (coll_map s1 !! 1%N ≫= λ ch, get_object ch (Hobj 8)) = None ∧
    do_transaction ex_conf ex_size_truncate_ret ex_store
      {| ops := [ Decoded (OP_TRUNCATE 1%N (Hobj 1) 4) ];
         on_applied := None; on_commit := None; on_applied_sync := None |} =
      Completed s1 [] ∧
    do_transaction ex_conf ex_size_truncate_ret ex_store ex_truncate_touch =
      Completed s2 [] ∧
    (coll_map s2 !! 1%N ≫= λ ch, get_object ch (Hobj 8)) = Some 3%positive.
Proof. eexists _, _. repeat split; vm_compute; reflexivity. Qed.

Lemma list_objects_paging_witness :
  list_objects hobj_le Hobj_max ex_reserve_max ex_coll (Hobj 0) Hobj_max 1 =
    Listed [Hobj 1] (Hobj 5) ∧
  list_objects hobj_le Hobj_max ex_reserve_max ex_coll (Hobj 5) Hobj_max 1 =
    Listed [Hobj 5] Hobj_max ∧
  list_pages hobj_le Hobj_max ex_reserve_max 3 ex_coll (Hobj 0) Hobj_max 1 =
    Some (objects_in_range hobj_le ex_coll (Hobj 0) Hobj_max, Hobj_max).
Proof.
  split; [vm_compute; reflexivity|]. split; [vm_compute; reflexivity|].
  destruct (list_objects_paging hobj_le Hobj_max (gh_le_total := hobj_le_total)
              hobj_max_top ex_reserve_max ex_coll (Hobj 0) Hobj_max 1)
    as (_ & _ & Hpages); [by vm_compute|].
  destruct (Hpages ltac:(lia) 3%nat) as (cursor & Hall & Hcursor).
  - vm_compute. lia.
  - by rewrite Hall, (Hcursor eq_refl).
Defined.

(** With [limit] 0 a call returns nothing and hands back, as the cursor, the
    first identifier from [start] on: the client that feeds the cursor back
    receives the same answer again and never an identifier of the range.
    With a [limit] beyond the [max_size()] of the vector, [reserve] throws
    and the call returns nothing at all. *)
Lemma list_objects_limit_zero :
  objects_in_range hobj_le ex_coll (Hobj 0) Hobj_max = [Hobj 1; Hobj 5] ∧
  list_objects hobj_le Hobj_max ex_reserve_max ex_coll (Hobj 0) Hobj_max 0 =
    Listed [] (Hobj 1) ∧
  list_objects hobj_le Hobj_max ex_reserve_max ex_coll (Hobj 1) Hobj_max 0 =
    Listed [] (Hobj 1) ∧
  list_pages hobj_le Hobj_max ex_reserve_max 50 ex_coll (Hobj 0) Hobj_max 0 =
    Some ([], Hobj 1) ∧
  list_objects hobj_le Hobj_max ex_reserve_max ex_coll (Hobj 0) Hobj_max
    18446744073709551615 = Reserve_failed ∧
  list_pages hobj_le Hobj_max ex_reserve_max 50 ex_coll (Hobj 0) Hobj_max
    18446744073709551615 = None.
Proof. repeat split; vm_compute; reflexivity. Qed.

Lemma omap_get_values_paging_witness :
  get_object ex_coll (Hobj 1) = Some 1%positive ∧
  omap_get_values 2 ex_coll (Hobj 1) None =
    make_ready_future (true, {[ "a" := [Byte.x0a]; "b" := [Byte.x0b] ]}) ∧
  omap_get_values 2 ex_coll (Hobj 1) (Some "b") =
    make_ready_future (true, {[ "c" := [Byte.x0c]; "d" := [Byte.x0d] ]}) ∧
  ∃ page,
    omap_get_values 2 ex_coll (Hobj 1) None = make_ready_future (true, page) ∧
    ordered_keys string_le page = take 2 (keys_after None (omap ex_object)) ∧
    ∃ page',
      omap_get_values 2 ex_coll (Hobj 1) (Some "b") =
        make_ready_future (true, page') ∧
      ordered_keys string_le page ++ ordered_keys string_le page' =
        take 4 (keys_after None (omap ex_object)).
Proof.
  split; [reflexivity|]. split; [vm_compute; reflexivity|].
  split; [vm_compute; reflexivity|].
  destruct (omap_get_values_paging 2 ex_coll (Hobj 1) 1%positive None eq_refl)
    as (_ & page & Hcall & Hkeys & _ & _ & Hnext).
  exists page. split; [exact Hcall|]. split; [exact Hkeys|].
  destruct (Hnext "b") as (page' & Hcall' & _ & _ & Hboth).
  - rewrite Hkeys. vm_compute. reflexivity.
  - exists page'. split; [exact Hcall'|exact Hboth].
Defined.

Lemma omap_rmkeyrange_inclusive_witness :
  coll_map ex_store !! 1%N = Some ex_coll ∧
  get_object ex_coll (Hobj 1) = Some 1%positive ∧
  ∃ s', _omap_rmkeyrange ex_store 1%N (Hobj 1) "b" "d" = (0, s') ∧
    omap <$> (coll_map s' !! 1%N ≫= λ ch, objects ch !! 1%positive) =
      Some {[ "a" := [Byte.x0a]; "e" := [Byte.x0e] ]}.
Proof.
  split; [reflexivity|]. split; [reflexivity|].
  destruct (omap_rmkeyrange_inclusive ex_store 1%N ex_coll (Hobj 1) 1%positive
              "b" "d" eq_refl eq_refl) as (Hcall & _ & _).
  eexists. split; [exact Hcall|]. vm_compute. reflexivity.
Defined.

Lemma read_clamps_witness :
  is_uint64 1 ∧ is_uint64 5 ∧
  read ex_read_beyond ex_coll (Hobj 1) 1 5 =
    make_ready_future [Byte.x02; Byte.x03] ∧
  read ex_read_beyond ex_coll (Hobj 1) 3 18446744073709551615 =
    make_ready_future [].
Proof.
  split; [by vm_compute|]. split; [by vm_compute|]. split.
  - destruct (read_clamps ex_read_beyond ex_coll (Hobj 1) 1 5) as [Hread _];
      [by vm_compute..|].
    destruct (Hread eq_refl 1%positive eq_refl) as [Hclamp _].
    rewrite Hclamp; [reflexivity|right; by vm_compute].
  - destruct (read_clamps ex_read_beyond ex_coll (Hobj 1) 3 18446744073709551615)
      as [Hread _]; [by vm_compute..|].
    destruct (Hread eq_refl 1%positive eq_refl) as (Hclamp & Hpast & _).
    rewrite Hclamp, Hpast; [reflexivity|by vm_compute|left; by vm_compute].
Defined.

(** C7, at an input whose [offset + len] does not fit into 64 bits: offset
    1 and length 2^64 - 1 on the object of 3 bytes. The sum wraps to 0,
    the comparison with the size fails, and [read] hands the length to
    [Object::read] as it came, for a window that reaches beyond the
    content; the bytes of the window that lie inside the content are the
    second and the third. *)
Lemma read_wrapping_window :
  get_object ex_coll (Hobj 1) = Some 1%positive ∧
  data (deref ex_coll 1%positive) = [Byte.x01; Byte.x02; Byte.x03] ∧
  wrap64 (1 + 18446744073709551615) = 0 ∧
  read_length 3 1 18446744073709551615 = 18446744073709551615 ∧
  clamped_window [Byte.x01; Byte.x02; Byte.x03] 1 18446744073709551615 =
    [Byte.x02; Byte.x03] ∧
  (∀ beyond,
     read beyond ex_coll (Hobj 1) 1 18446744073709551615 =
       let '(r, bl) :=
         beyond 1 18446744073709551615 [Byte.x01; Byte.x02; Byte.x03] in
       if bool_decide (r < 0) then throws (runtime_error "read")
       else make_ready_future bl) ∧
  read ex_read_beyond ex_coll (Hobj 1) 1 18446744073709551615 =
    throws (runtime_error "read").
Proof.
  repeat split; vm_compute; reflexivity.
Qed.

Lemma omitted_write_frame_witness :
  coll_map ex_store !! 1%N = Some ex_coll ∧
  _write ex_omit_conf ex_store 1%N (Hobj 1) 0 2 [Byte.x07; Byte.x08] 0 =
    Ret (0, ex_store) ∧
  _truncate ex_omit_conf ex_truncate_ret ex_store 1%N (Hobj 1) 0 = (0, ex_store) ∧
  _truncate ex_omit_conf ex_truncate_ret ex_store 1%N (Hobj 9) 0 =
    (- ENOENT, ex_store).
Proof.
  split; [reflexivity|].
  destruct (omitted_write_frame ex_omit_conf ex_truncate_ret ex_store 1%N ex_coll
              (Hobj 1) 0 2 0 0 [Byte.x07; Byte.x08] eq_refl eq_refl)
    as [Hwrite Htruncate].
  destruct (Hwrite (or_introl eq_refl)) as [Hw _].
  destruct (Htruncate eq_refl) as [Ht _].
  destruct (omitted_write_frame ex_omit_conf ex_truncate_ret ex_store 1%N ex_coll
              (Hobj 9) 0 2 0 0 [Byte.x07; Byte.x08] eq_refl eq_refl)
    as [_ Htruncate'].
  destruct (Htruncate' eq_refl) as [_ Ht'].
  split; [exact (Hw 1%positive eq_refl)|].
  split; [exact (Ht 1%positive eq_refl)|exact (Ht' eq_refl)].
Defined.

Lemma mkfs_fsid_check_witness :
  meta ex_disk !! "fsid" = None ∧
  ∃ d1,
    mkfs zero byte_to_string byte_parse ex_new ex_disk (ascii_of_N 5) (ascii_of_N 7) =
      make_ready_future (set_osd_fsid (ascii_of_N 5) ex_new, d1) ∧
    meta d1 !! "fsid" = Some (File (String "0" (String "5" (String "010" EmptyString)))) ∧
    (∃ d2, mkfs zero byte_to_string byte_parse (set_osd_fsid (ascii_of_N 5) ex_new) d1
             (ascii_of_N 5) (ascii_of_N 9) =
           make_ready_future
             (set_osd_fsid (ascii_of_N 5) (set_osd_fsid (ascii_of_N 5) ex_new), d2)) ∧
    (∃ what, mkfs zero byte_to_string byte_parse (set_osd_fsid (ascii_of_N 5) ex_new) d1
               (ascii_of_N 6) (ascii_of_N 9) =
             make_exception_future (runtime_error what)).
Proof.
  split; [reflexivity|].
  destruct (mkfs_fsid_check zero byte_to_string byte_parse ex_new ex_disk
              (ascii_of_N 5) (ascii_of_N 7)
              byte_parse_to_string byte_to_string_no_space byte_to_string_short)
    as [Habsent _].
  destruct (Habsent eq_refl) as (d1 & Hfirst & Hmeta & Hsecond).
  exists d1. split; [exact Hfirst|]. split; [exact Hmeta|].
  split.
  - exact (proj1 (Hsecond (ascii_of_N 5) (ascii_of_N 9)) eq_refl).
  - apply (proj2 (Hsecond (ascii_of_N 6) (ascii_of_N 9))). discriminate.
Defined.

(** mkfs with the zero identifier persists the generated identifier; the
    same call again finds a persisted identifier that is not zero, and
    fails. *)
Lemma mkfs_twice_zero :
  mkfs zero byte_to_string byte_parse ex_new ex_disk zero (ascii_of_N 7) =
    make_ready_future ex_formatted ∧
  osd_fsid ex_formatted.1 = ascii_of_N 7 ∧
  mkfs zero byte_to_string byte_parse ex_formatted.1 ex_formatted.2 zero (ascii_of_N 9) =
    make_exception_future (runtime_error "unmatched osd_fsid").
Proof. repeat split; vm_compute; reflexivity. Qed.

(** REMOVE of an object that is not there, and of a collection that is not
    there, leave the status 0 and the store as it is. *)
Example remove_absent_example :
  do_op ex_conf ex_truncate_ret ex_store (OP_REMOVE 1%N (Hobj 9)) = Ret (0, ex_store) ∧
  do_op ex_conf ex_truncate_ret ex_store (OP_REMOVE 4%N (Hobj 1)) = Ret (0, ex_store) ∧
  _remove ex_store 1%N (Hobj 9) = (- ENOENT, ex_store).
Proof. repeat split; vm_compute; reflexivity. Qed.

Example get_attr_example :
  get_attr ex_coll (Hobj 1) "k" = make_ready_future [Byte.x2a] ∧
  get_attr ex_coll (Hobj 1) "j" =
    make_exception_future (EnoentException "attr does not exist") ∧
  get_attr ex_coll (Hobj 9) "k" =
    make_exception_future (EnoentException "object does not exist") ∧
  get_attrs ex_coll (Hobj 9) = throws (runtime_error "object does not exist").
Proof. repeat split; vm_compute; reflexivity. Qed.

(** ** Further properties at the concrete store *)

Lemma ex_coll_wf : Collection_wf ex_coll.
Proof.
  split; [reflexivity|]. unfold ex_coll. cbn [object_map objects]. split.
  - intros oid1 oid2 o.
    rewrite !lookup_insert_Some, !lookup_singleton_Some. naive_solver.
  - intros oid o. rewrite lookup_insert_Some, lookup_singleton_Some.
    intros [[_ <-]|[_ [_ <-]]]; by eexists.
Qed.

Lemma ex_store_wf : Store_wf ex_store.
Proof.
  split; [|split].
  - intros c ch. unfold ex_store. cbn [coll_map].
    rewrite lookup_singleton_Some. intros [_ <-]. apply ex_coll_wf.
  - intros c ch. unfold ex_store. cbn [new_coll_map]. by rewrite lookup_empty.
  - vm_compute. reflexivity.
Qed.

Lemma ex_new_named : Store_named ex_new.
Proof.
  intros c ch. unfold ex_new, CyanStore_new. cbn [coll_map new_coll_map].
  rewrite !lookup_empty. by intros [?|?].
Qed.

Lemma ex_final_wf : Store_wf ex_final.
Proof.
  apply (run_calls_wf ex_conf ex_truncate_ret ex_new ex_final ex_calls).
  - apply CyanStore_new_wf.
  - vm_compute. reflexivity.
Qed.


Lemma setattrs_get_attr_witness :
  coll_map ex_store !! 1%N = Some ex_coll ∧
  get_object ex_coll (Hobj 1) = Some 1%positive ∧
  get_attr ex_coll (Hobj 1) "k" = make_ready_future [Byte.x2a] ∧
  ∃ ch',
    _setattrs ex_store 1%N (Hobj 1) {[ "k" := [Byte.x07]; "n" := [Byte.x08] ]} =
      (0, set_coll 1%N ch' ex_store) ∧
    get_attr ch' (Hobj 1) "k" = make_ready_future [Byte.x07] ∧
    get_attr ch' (Hobj 1) "n" = make_ready_future [Byte.x08] ∧
    get_attrs ch' (Hobj 5) = make_ready_future ∅ ∧
    read ex_read_beyond ch' (Hobj 1) 0 0 =
      make_ready_future [Byte.x01; Byte.x02; Byte.x03].
Proof.
  split; [reflexivity|]. split; [reflexivity|]. split; [reflexivity|].
  destruct (setattrs_get_attr ex_read_beyond ex_store 1%N ex_coll (Hobj 1)
              {[ "k" := [Byte.x07]; "n" := [Byte.x08] ]} eq_refl ex_coll_wf)
    as [Hpresent _].
  destruct (Hpresent 1%positive eq_refl)
    as (ch' & Hcall & _ & Hattr & Hothers & Hread).
  exists ch'. split; [exact Hcall|].
  split; [exact (Hattr "k")|]. split; [exact (Hattr "n")|].
  split.
  - destruct (Hothers (Hobj 5)) as [-> _]; [discriminate|]. reflexivity.
  - rewrite Hread. reflexivity.
Defined.

Lemma omap_set_values_keeps_existing_witness :
  coll_map ex_store !! 1%N = Some ex_coll ∧
  ∃ ch' o,
    _omap_set_values ex_store 1%N (Hobj 1)
      {[ "a" := [Byte.x01]; "z" := [Byte.x02] ]} = (0, set_coll 1%N ch' ex_store) ∧
    get_object ch' (Hobj 1) = Some o ∧
    omap (deref ch' o) !! "a" = Some [Byte.x0a] ∧
    omap (deref ch' o) !! "z" = Some [Byte.x02].
Proof.
  split; [reflexivity|].
  destruct (omap_set_values_keeps_existing ex_store 1%N ex_coll (Hobj 1)
              {[ "a" := [Byte.x01]; "z" := [Byte.x02] ]} eq_refl)
    as (ch' & o & Hcall & Hget & _ & Hlookup & _).
  exists ch', o. split; [exact Hcall|]. split; [exact Hget|].
  split; [exact (Hlookup "a")|exact (Hlookup "z")].
Defined.

Lemma omap_rmkeys_removes_witness :
  coll_map ex_store !! 1%N = Some ex_coll ∧
  ∃ ch' o,
    _omap_rmkeys ex_store 1%N (Hobj 1) {[ "b"; "zz" ]} =
      (0, set_coll 1%N ch' ex_store) ∧
    get_object ch' (Hobj 1) = Some o ∧
    omap (deref ch' o) !! "b" = None ∧
    omap (deref ch' o) !! "c" = Some [Byte.x0c] ∧
    omap_get_values_keys ch' (Hobj 1) {[ "b"; "zz" ]} = make_ready_future ∅.
Proof.
  split; [reflexivity|].
  destruct (omap_rmkeys_removes ex_store 1%N ex_coll (Hobj 1) {[ "b"; "zz" ]}
              eq_refl)
    as (ch' & o & Hcall & Hget & _ & Hlookup & Hquery).
  exists ch', o. split; [exact Hcall|]. split; [exact Hget|].
  split; [exact (Hlookup "b")|]. split; [exact (Hlookup "c")|exact Hquery].
Defined.

Lemma uncommitted_collection_enoent_witness :
  object_op (OP_TOUCH 4%N (Hobj 1)) = Some (4%N, Hobj 1) ∧
  coll_map ex_store !! 4%N = None ∧
  do_op ex_conf ex_truncate_ret ex_store (OP_TOUCH 4%N (Hobj 1)) =
    Ret (- ENOENT, ex_store) ∧
  do_transaction ex_conf ex_truncate_ret ex_store ex_touch_missing =
    Fatal (- ENOENT) ex_store.
Proof.
  split; [reflexivity|]. split; [reflexivity|].
  exact (uncommitted_collection_enoent ex_conf ex_truncate_ret ex_store
           (OP_TOUCH 4%N (Hobj 1)) 4%N (Hobj 1) ex_touch_missing []
           eq_refl eq_refl eq_refl).
Defined.

Lemma absent_object_created_or_enoent_witness :
  coll_map ex_store !! 1%N = Some ex_coll ∧
  get_object ex_coll (Hobj 9) = None ∧
  do_op ex_conf ex_truncate_ret ex_store (OP_OMAP_RMKEYS 1%N (Hobj 9) {[ "a" ]}) =
    Ret (0, ex_after (OP_OMAP_RMKEYS 1%N (Hobj 9) {[ "a" ]})) ∧
  (∃ ch' o,
     coll_map (ex_after (OP_OMAP_RMKEYS 1%N (Hobj 9) {[ "a" ]})) =
       <[1%N := ch']> (coll_map ex_store) ∧
     objects ex_coll !! o = None ∧ get_object ch' (Hobj 9) = Some o) ∧
  do_op ex_conf ex_truncate_ret ex_store (OP_SETATTR 1%N (Hobj 9) "k" []) =
    Ret (- ENOENT, ex_store).
Proof.
  split; [reflexivity|]. split; [reflexivity|].
  assert (do_op ex_conf ex_truncate_ret ex_store
            (OP_OMAP_RMKEYS 1%N (Hobj 9) {[ "a" ]}) =
          Ret (0, ex_after (OP_OMAP_RMKEYS 1%N (Hobj 9) {[ "a" ]}))) as Hdo
    by (vm_compute; reflexivity).
  split; [exact Hdo|]. split.
  - destruct (absent_object_created_or_enoent ex_conf ex_truncate_ret ex_store _
                (OP_OMAP_RMKEYS 1%N (Hobj 9) {[ "a" ]}) 1%N ex_coll (Hobj 9) 0
                eq_refl eq_refl eq_refl Hdo)
      as (_ & ch' & o & Hmap & Hfresh & Hget & _).
    exists ch', o. split; [exact Hmap|]. split; [exact Hfresh|exact Hget].
  - vm_compute. reflexivity.
Defined.

Lemma metadata_ops_keep_content_witness :
  do_op ex_conf ex_truncate_ret ex_store (OP_SETATTR 1%N (Hobj 1) "k" [Byte.x07]) =
    Ret (0, ex_after (OP_SETATTR 1%N (Hobj 1) "k" [Byte.x07])) ∧
  used_bytes (ex_after (OP_SETATTR 1%N (Hobj 1) "k" [Byte.x07])) = 3 ∧
  ∃ ch',
    coll_map (ex_after (OP_SETATTR 1%N (Hobj 1) "k" [Byte.x07])) !! 1%N =
      Some ch' ∧
    read ex_read_beyond ch' (Hobj 1) 1 1 = make_ready_future [Byte.x02].
Proof.
  assert (do_op ex_conf ex_truncate_ret ex_store
            (OP_SETATTR 1%N (Hobj 1) "k" [Byte.x07]) =
          Ret (0, ex_after (OP_SETATTR 1%N (Hobj 1) "k" [Byte.x07]))) as Hdo
    by (vm_compute; reflexivity).
  split; [exact Hdo|].
  destruct (metadata_ops_keep_content ex_read_beyond ex_conf ex_truncate_ret
              ex_store _
              (OP_SETATTR 1%N (Hobj 1) "k" [Byte.x07]) 0 eq_refl Hdo)
    as [Hused Hcolls].
  split; [exact Hused|].
  destruct (Hcolls 1%N ex_coll eq_refl) as (ch' & Hch' & Hread).
  exists ch'. split; [exact Hch'|].
  rewrite (Hread (Hobj 1)) by (by eexists). reflexivity.
Defined.

Lemma remove_then_absent_witness :
  coll_map ex_store !! 1%N = Some ex_coll ∧
  object_hash ex_coll !! Hobj 1 = Some 1%positive ∧
  ∃ s' ch',
    _remove ex_store 1%N (Hobj 1) = (0, s') ∧ coll_map s' !! 1%N = Some ch' ∧
    get_object ch' (Hobj 1) = None ∧
    list_objects hobj_le Hobj_max ex_reserve_max ch' (Hobj 0) Hobj_max 10 =
      Listed [Hobj 5] Hobj_max ∧
    ∃ ch'' o',
      _touch s' 1%N (Hobj 1) = (0, set_coll 1%N ch'' s') ∧
      get_object ch'' (Hobj 1) = Some o' ∧ deref ch'' o' = Object_new.
Proof.
  split; [reflexivity|]. split; [reflexivity|].
  destruct (remove_then_absent ex_read_beyond hobj_le Hobj_max ex_reserve_max
              ex_store 1%N ex_coll (Hobj 1) 1%positive eq_refl eq_refl)
    as (s' & ch' & Hremove & Hch' & Hgone & _ & _ & _ & Htouch).
  exists s', ch'. split; [exact Hremove|]. split; [exact Hch'|].
  split; [exact Hgone|]. split; [|exact Htouch].
  assert (s' = (_remove ex_store 1%N (Hobj 1)).2) as -> by (by rewrite Hremove).
  assert (Some ch' = Some (default ex_coll
            (coll_map (_remove ex_store 1%N (Hobj 1)).2 !! 1%N))) as [= ->]
    by (by rewrite Hch').
  vm_compute. reflexivity.
Defined.

Lemma do_transaction_sequential_witness :
  ops ex_failing = ops ex_failing_head ++ ops ex_failing_tail ∧
  do_transaction ex_conf ex_truncate_ret ex_store ex_failing_head =
    Completed ex_touched [] ∧
  do_transaction ex_conf ex_truncate_ret ex_touched ex_failing_tail =
    Fatal (- ENOENT) ex_touched ∧
  do_transaction ex_conf ex_truncate_ret ex_store ex_failing =
    Fatal (- ENOENT) ex_touched.
Proof.
  split; [reflexivity|].
  assert (do_transaction ex_conf ex_truncate_ret ex_store ex_failing_head =
            Completed ex_touched []) as Hhead by (vm_compute; reflexivity).
  assert (do_transaction ex_conf ex_truncate_ret ex_touched ex_failing_tail =
            Fatal (- ENOENT) ex_touched) as Htail by (vm_compute; reflexivity).
  split; [exact Hhead|]. split; [exact Htail|].
  rewrite (do_transaction_sequential ex_conf ex_truncate_ret ex_store ex_failing
             ex_failing_head ex_failing_tail eq_refl).
  rewrite Hhead, Htail. reflexivity.
Defined.

Lemma calls_keep_collections_marked_witness :
  Store_named ex_new ∧
  run_calls ex_conf ex_truncate_ret ex_new ex_calls = Some ex_final ∧
  Store_named ex_final ∧ get_fsid ex_final = zero.
Proof.
  split; [exact ex_new_named|].
  assert (run_calls ex_conf ex_truncate_ret ex_new ex_calls = Some ex_final)
    as Hrun by (vm_compute; reflexivity).
  split; [exact Hrun|].
  destruct (calls_keep_collections_marked ex_read_beyond ex_conf
              ex_truncate_ret ex_new ex_final ex_calls ex_new_named Hrun) as (Hnamed & Hfsid & _).
  split; [exact Hnamed|exact Hfsid].
Defined.

Lemma stat_available_bytes_witness :
  Store_wf ex_final ∧ used_bytes ex_final = 10 ∧
  available (stat ex_conf ex_final) = 1073741814 ∧
  available (stat ex_small_conf ex_final) = 18446744073709551610.
Proof.
  split; [exact ex_final_wf|]. split; [vm_compute; reflexivity|].
  destruct (stat_available_bytes ex_conf ex_final ex_final_wf)
    as (_ & _ & Hfits & _); [by vm_compute|].
  destruct (stat_available_bytes ex_small_conf ex_final ex_final_wf)
    as (_ & _ & _ & Hover); [by vm_compute|].
  split.
  - rewrite Hfits by (vm_compute; discriminate). vm_compute. reflexivity.
  - rewrite Hover by (vm_compute; reflexivity). vm_compute. reflexivity.
Defined.

Lemma write_meta_read_meta_witness :
  read_meta (write_meta ex_disk "type" "memstore") "type" = (9, "memstore") ∧
  read_meta (write_meta ex_disk "note" "ab  ") "note" = (5, "ab") ∧
  read_meta (write_meta ex_disk "note" "ab  ") "type" = (- ENOENT, "").
Proof.
  destruct (write_meta_read_meta ex_disk "type" "memstore")
    as (_ & _ & _ & Hback & _); [simpl; lia|].
  destruct (write_meta_read_meta ex_disk "note" "ab  ")
    as (Hread & _ & _ & _ & Hother & _); [simpl; lia|].
  split; [exact (Hback eq_refl)|]. split; [exact Hread|].
  rewrite (Hother "type") by discriminate. reflexivity.
Defined.

Lemma mkfs_writes_markers_witness :
  mkfs zero byte_to_string byte_parse ex_new ex_disk zero (ascii_of_N 7) =
    make_ready_future ex_formatted ∧
  read_meta ex_formatted.2 "type" = (9, "memstore") ∧
  collections_file ex_formatted.2 = Some ∅ ∧
  byte_parse (read_meta ex_formatted.2 "fsid").2 = Some (ascii_of_N 7) ∧
  get_fsid ex_formatted.1 = ascii_of_N 7.
Proof.
  assert (mkfs zero byte_to_string byte_parse ex_new ex_disk zero (ascii_of_N 7) =
            make_ready_future (ex_formatted.1, ex_formatted.2)) as Hmkfs
    by (vm_compute; reflexivity).
  split; [exact Hmkfs|].
  destruct (mkfs_writes_markers zero byte_to_string byte_parse ex_new
              ex_formatted.1 ex_disk ex_formatted.2 zero (ascii_of_N 7)
              byte_parse_to_string byte_to_string_no_space byte_to_string_short
              Hmkfs)
    as (Htype & Hmanifest & Hfsid & _).
  split; [exact Htype|]. split; [exact Hmanifest|].
  assert (get_fsid ex_formatted.1 = ascii_of_N 7) as Hget by reflexivity.
  split; [|exact Hget]. rewrite Hfsid, Hget. reflexivity.
Defined.

Lemma mount_loads_manifest_witness :
  is_uint64 (used_bytes ex_new) ∧
  mount N.le ex_decode ex_used_bytes ex_new ex_saved.1 ex_saved.2 =
    Mounted ex_mounted ∧
  ∃ loaded,
    dom loaded = {[ 1%N ]} ∧
    coll_map ex_mounted = loaded ∪ coll_map ex_new ∧
    used_bytes ex_mounted =
      wrap64 (used_bytes ex_new + map_sum ex_used_bytes loaded) ∧
    used_bytes ex_mounted = 3.
Proof.
  assert (is_uint64 (used_bytes ex_new)) as Hused by (by vm_compute).
  split; [exact Hused|].
  assert (mount N.le ex_decode ex_used_bytes ex_new ex_saved.1 ex_saved.2 =
            Mounted ex_mounted) as Hmount by (vm_compute; reflexivity).
  split; [exact Hmount|].
  destruct (mount_loads_manifest N.le ex_decode ex_used_bytes ex_new
              ex_saved.1 ex_saved.2 Hused) as [_ Hloaded].
  destruct (Hloaded ex_mounted Hmount)
    as (collections & loaded & Hmanifest & Hdom & _ & Hmap & Hbytes & _).
  exists loaded. split.
  - rewrite Hdom. assert (Some collections = Some {[ 1%N ]}) as [= ->]; [|done].
    rewrite <-Hmanifest. vm_compute. reflexivity.
  - split; [exact Hmap|]. split; [exact Hbytes|]. vm_compute. reflexivity.
Defined.

Lemma umount_mount_roundtrip_witness :
  Store_wf ex_store ∧
  ∃ s1 s2,
    mount N.le ex_decode ex_used_bytes ex_new ex_saved.1 ex_saved.2 = Mounted s1 ∧
    coll_map s1 = coll_map ex_store ∧ used_bytes s1 = 3 ∧
    mount N.le ex_decode ex_used_bytes ex_store ex_saved.1 ex_saved.2 =
      Mounted s2 ∧
    coll_map s2 = coll_map ex_store ∧ used_bytes s2 = 6.
Proof.
  split; [exact ex_store_wf|].
  destruct (umount_mount_roundtrip N.le ex_encode ex_decode ex_used_bytes
              ex_store ex_disk ∅ zero ex_store_wf)
    as (s1 & s2 & Hs1 & Hmap1 & Hbytes1 & _ & _ & Hs2 & Hmap2 & _ & Hbytes2).
  { intros c ch _. split; reflexivity. }
  exists s1, s2. split; [exact Hs1|]. split; [exact Hmap1|].
  split; [exact Hbytes1|]. split; [exact Hs2|]. split; [exact Hmap2|].
  rewrite Hbytes2. vm_compute. reflexivity.
Defined.

Lemma mkfs_then_mount_witness :
  mkfs zero byte_to_string byte_parse ex_new ex_disk zero (ascii_of_N 7) =
    make_ready_future ex_formatted ∧
  mount N.le ex_decode ex_used_bytes ex_formatted.1 ex_formatted.2 ex_saved.2 =
    Mounted ex_formatted.1.
Proof.
  assert (mkfs zero byte_to_string byte_parse ex_new ex_disk zero (ascii_of_N 7) =
            make_ready_future (ex_formatted.1, ex_formatted.2)) as Hmkfs
    by (vm_compute; reflexivity).
  split; [exact Hmkfs|].
  exact (mkfs_then_mount N.le ex_decode ex_used_bytes zero byte_to_string
           byte_parse ex_new ex_formatted.1 ex_disk ex_formatted.2 zero
           (ascii_of_N 7) ex_saved.2 Hmkfs).
Defined.

Lemma listed_iff_found_witness :
  Store_wf ex_new ∧
  run_calls ex_conf ex_truncate_ret ex_new ex_calls = Some ex_final ∧
  coll_map ex_final !! 1%N = Some ex_final_coll ∧
  is_Some (get_object ex_final_coll (Hobj 1)) ∧
  ∃ next,
    list_objects hobj_le Hobj_max ex_reserve_max ex_final_coll (Hobj 1)
      Hobj_max 1 = Listed [Hobj 1] next.
Proof.
  assert (run_calls ex_conf ex_truncate_ret ex_new ex_calls = Some ex_final)
    as Hrun by (vm_compute; reflexivity).
  assert (coll_map ex_final !! 1%N = Some ex_final_coll)
    as Hch by (vm_compute; reflexivity).
  assert (is_Some (get_object ex_final_coll (Hobj 1)))
    as Hfound by (eexists; vm_compute; reflexivity).
  split; [apply CyanStore_new_wf|]. split; [exact Hrun|]. split; [exact Hch|].
  split; [exact Hfound|].
  destruct (listed_iff_found ex_conf ex_truncate_ret hobj_le Hobj_max
              (gh_le_total := hobj_le_total) hobj_max_top ex_reserve_max
              ex_new ex_final ex_calls 1%N ex_final_coll (Hobj 1)
              (CyanStore_new_wf zero) Hrun Hch) as [Hiff _].
  - simpl. tauto.
  - apply Hiff, Hfound.
Defined.
